(** * mc-hook: item pickup tracker, block break forwarder and HTTP shim

    A shallow embedding of the three script modules of the add-on
    ([api/events/itemPickup.js], [api/events/blockBreak.js] and
    [api/lib/httpReq.js]) together with the properties their description
    states about them, and of the copy of the template that the
    installer ([index.js]) performs.

    Conventions of the embedding:
    - JavaScript numbers that the scripts only ever use as integer counts
      (stack amounts, tick periods, counters, block coordinates, status
      codes) are [Z]; the scripts add, subtract and compare them, which
      is exact on doubles for integers below 2^53;
    - a JavaScript [Map], and an object used as one, is an
      insertion-ordered association list with one entry per key
      ([JsMap]); the player cache, which is only read with [get] and
      written with [set], is a [gmap];
    - arrays indexed by position are lists read with [!!] and written
      with [<[_:=_]>] or [alter]; a loop over indices is a [Fixpoint] on
      the number of iterations left;
    - a call that may throw returns a [Completion] next to the state it
      leaves behind, so that the writes done before a throw stay visible;
    - the host (containers, the recurring-task scheduler, the command
      runner, the HTTP transport, [JSON]) is modelled by what the scripts
      can observe of it: results, thrown messages, and the calls it
      received;
    - callbacks registered by the user are lists of the operations they
      perform, while they run, on what the call hands them ([data],
      [actions], and for the pickup tracker the listener entry as
      [this]) and on the module through [listen]; a list is run in
      order and ends at the first operation that throws. What a callback
      keeps from one call to a later one (an entry or a [data] object
      stored in a variable of its own) is not modelled, so where a
      statement assumes that callbacks do not assign to a listener entry
      or to [data], it assumes this of every assignment, also through
      such a reference;
    - the configuration of [httpReq] has the types its documentation
      gives: strings for the URL and the method, an object or a string
      for the body, an object of strings for the headers. *)

From stdpp Require Import base gmap list strings pretty.
From Stdlib Require Import ZArith.

Local Open Scope Z_scope.

(** ** JavaScript runtime notions shared by the three modules *)

Module Js.

(** How a call ends: it returns a value or throws an [Error] whose
    [message] is [msg]. *)
Inductive Completion (A : Type) : Type :=
| Normal (a : A)
| Throw (msg : string).

Arguments Normal {A} a.
Arguments Throw {A} msg.

(** Stateful, possibly throwing computations. The state survives a throw. *)
Definition M (S A : Type) : Type := S -> Completion A * S.

Definition ret {S A : Type} (a : A) : M S A := fun s => (Normal a, s).

Definition throw {S A : Type} (msg : string) : M S A := fun s => (Throw msg, s).

Definition bind {S A B : Type} (m : M S A) (k : A -> M S B) : M S B :=
  fun s =>
    match m s with
    | (Normal a, s') => k a s'
    | (Throw msg, s') => (Throw msg, s')
    end.

Definition modify {S : Type} (f : S -> S) : M S unit := fun s => (Normal tt, f s).

Definition gets {S A : Type} (f : S -> A) : M S A := fun s => (Normal (f s), s).

(** [try { m } catch (error) { handler error.message }] *)
Definition try_catch {S A : Type} (m : M S A) (handler : string -> M S A) : M S A :=
  fun s =>
    match m s with
    | (Normal a, s') => (Normal a, s')
    | (Throw msg, s') => handler msg s'
    end.

(** [value || 0] on a number that may be [undefined]. *)
Definition or_zero (v : option Z) : Z :=
  match v with
  | Some n => if n =? 0 then 0 else n
  | None => 0
  end.

End Js.

Import Js.

#[global] Instance M_ret {S : Type} : MRet (M S) := fun A => ret.
#[global] Instance M_bind {S : Type} : MBind (M S) := fun A B k m => bind m k.

(** ** [Map]: insertion-ordered, one entry per key *)

Module JsMap.

Definition t (V : Type) : Type := list (string * V).

Definition empty {V : Type} : t V := [].

Fixpoint get {V : Type} (m : t V) (k : string) : option V :=
  match m with
  | [] => None
  | (k', v) :: m' => if decide (k' = k) then Some v else get m' k
  end.

(** [set] overwrites the value of an existing key where it stands and
    appends a new key at the end. *)
Fixpoint set {V : Type} (m : t V) (k : string) (v : V) : t V :=
  match m with
  | [] => [(k, v)]
  | (k', v') :: m' =>
      if decide (k' = k) then (k, v) :: m' else (k', v') :: set m' k v
  end.

Definition keys {V : Type} (m : t V) : list string := m.*1.

(** The invariant of every [Map] value: keys are pairwise distinct. *)
Definition wf {V : Type} (m : t V) : Prop := NoDup (keys m).

End JsMap.

(** ** Item pickup tracker ([api/events/itemPickup.js]) *)

Module ItemPickup.

(** *** Host inventory container *)

Record ItemStack : Type := mkItemStack { typeId : string; amount : Z }.

(** A container has a fixed number of slots. [write_fault i = Some msg]
    says that the host rejects a write to slot [i] by throwing [msg]. *)
Record Container : Type := mkContainer {
  slots : list (option ItemStack);
  write_fault : nat -> option string
}.

Definition size (inventory : Container) : nat := length (slots inventory).

Definition getItem (inventory : Container) (i : nat) : option ItemStack :=
  mjoin (slots inventory !! i).

Definition setItem (i : nat) (item : option ItemStack) : M Container unit :=
  fun inventory =>
    match write_fault inventory i with
    | Some msg => (Throw msg, inventory)
    | None =>
        (Normal tt,
         {| slots := <[i := item]> (slots inventory);
            write_fault := write_fault inventory |})
    end.

(** *** Snapshot engine *)

Abbreviation Snapshot := (JsMap.t Z).

(** What one iteration of the snapshot loop does with the [item] it
    reads: nothing for an empty slot. *)
Definition add_slot (result : Snapshot) (item : option ItemStack) : Snapshot :=
  match item with
  | Some item =>
      JsMap.set result (typeId item)
        (or_zero (JsMap.get result (typeId item)) + amount item)
  | None => result
  end.

(** [for (let i = 0; i < inventory.size; i++)]: [n] iterations are left,
    the next one reads slot [i]. *)
Fixpoint snapshot_loop (inventory : Container) (n i : nat) (result : Snapshot)
  : Snapshot :=
  match n with
  | O => result
  | S n' => snapshot_loop inventory n' (S i) (add_slot result (getItem inventory i))
  end.

Definition snapshotInventory (inventory : Container) : Snapshot :=
  snapshot_loop inventory (size inventory) 0%nat JsMap.empty.

(** *** Diff engine *)

(** The [data] object handed to listeners; the player is kept by name. *)
Record GainRecord : Type := mkGain {
  gain_typeId : string;
  gain_amount : Z;
  gain_player : string
}.

#[global] Instance GainRecord_eq_dec : EqDecision GainRecord.
Proof. solve_decision. Defined.

(** [playerCache.get(player.name) || new Map()] *)
Definition previous_of (cache : gmap string Snapshot) (name : string) : Snapshot :=
  default JsMap.empty (cache !! name).

(** One entry of [current]: [None] when the loop takes [continue],
    otherwise the picked-up amount. *)
Definition pickedUp (previous : Snapshot) (entry : string * Z) : option Z :=
  let oldAmount := or_zero (JsMap.get previous entry.1) in
  if entry.2 <=? oldAmount then None else Some (entry.2 - oldAmount).

(** The records the loop over [current] builds, in iteration order. *)
Definition diff (player : string) (previous current : Snapshot) : list GainRecord :=
  omap (fun entry =>
          (fun pickedUpAmount => mkGain entry.1 pickedUpAmount player)
            <$> pickedUp previous entry)
       current.

(** *** Inventory removal action *)

(** The body of [for (let i = 0; i < inventory.size && remaining > 0; i++)]:
    [n] slots are left, the next one is slot [i]. *)
Fixpoint remove_loop (type : string) (n i : nat) (remaining : Z)
  : M Container unit :=
  match n with
  | O => ret tt
  | S n' =>
      if 0 <? remaining then
        slot ← gets (fun inventory => getItem inventory i);
        match slot with
        | Some item =>
            if decide (typeId item = type) then
              if amount item <=? remaining then
                setItem i None ;;
                remove_loop type n' (S i) (remaining - amount item)
              else
                setItem i (Some (mkItemStack (typeId item) (amount item - remaining))) ;;
                remove_loop type n' (S i) 0
            else remove_loop type n' (S i) remaining
        | None => remove_loop type n' (S i) remaining
        end
      else ret tt
  end.

Definition removeItemsFromInventory (type : string) (amountToRemove : Z)
  : M Container unit :=
  n ← gets size;
  remove_loop type n 0%nat amountToRemove.

(** Total amount of [type] held over all slots. *)
Fixpoint held_in (type : string) (l : list (option ItemStack)) : Z :=
  match l with
  | [] => 0
  | Some item :: l' =>
      (if decide (typeId item = type) then amount item else 0) + held_in type l'
  | None :: l' => held_in type l'
  end.

Definition held (type : string) (inventory : Container) : Z :=
  held_in type (slots inventory).

(** The item types of the non-empty slots, slot by slot. *)
Definition types_in (l : list (option ItemStack)) : list string :=
  typeId <$> omap id l.

(** The removal rule as the description words it, slot by slot: clear a
    matching stack that fits in what is left to remove, shrink the first
    one that does not, leave everything after that alone. *)
Fixpoint remove_described (type : string) (remaining : Z)
  (l : list (option ItemStack)) : list (option ItemStack) :=
  match l with
  | [] => []
  | slot :: l' =>
      if remaining <=? 0 then slot :: l'
      else
        match slot with
        | Some item =>
            if decide (typeId item = type) then
              if amount item <=? remaining
              then None :: remove_described type (remaining - amount item) l'
              else Some (mkItemStack (typeId item) (amount item - remaining)) :: l'
            else slot :: remove_described type remaining l'
        | None => slot :: remove_described type remaining l'
        end
  end.

(** *** Listener registry and host scheduler *)

(** The [tick] argument of [listen]: left out, an integer, or anything
    [Number.isInteger] rejects. *)
Inductive TickArg : Type :=
| TickOmitted
| TickInteger (z : Z)
| TickNotInteger.

(** Listener callbacks are code of the add-on's user. They are modelled
    by what they can do to the module while they run, in order, through
    what the call hands them and through the module's interface: call
    [actions.remove()], throw, register a further listener, and write
    the properties of their own listener entry, which
    [listener.callback(data, actions)] passes as [this]
    ([this.tick = z], [this.counter = z], [this.callback = f]). The
    [callback] argument of [listen] is [None] when it is not a function. *)
#[warnings="-register-all"]
Inductive Op : Type :=
| OpRemove
| OpThrow (msg : string)
| OpListen (callback : option (list Op)) (tick : TickArg)
| OpSetTick (z : Z)
| OpSetCounter (z : Z)
| OpSetCallback (callback : list Op).

Definition Callback : Type := list Op.

Record Listener : Type := mkListener {
  callback : Callback;
  tick : Z;
  counter : Z
}.

(** A player as [world.getPlayers()] returns it; [inventory] is [None]
    when the player has no ["minecraft:inventory"] component. *)
Record Player : Type := mkPlayer {
  name : string;
  inventory : option Container
}.

(** Calls received by the host's recurring-task scheduler. *)
Inductive HostCall : Type :=
| RunInterval (handle : nat) (period : Z)
| ClearRun (handle : nat).

Definition host_step (alive : list nat) (c : HostCall) : list nat :=
  match c with
  | RunInterval h _ => alive ++ [h]
  | ClearRun h => filter (fun h' => h' <> h) alive
  end.

(** The recurring tasks that are live after a sequence of scheduler calls. *)
Definition live (log : list HostCall) : list nat := fold_left host_step log [].

Arguments live : simpl never.

Definition DEFAULT_TICK : Z := 10.

Record State : Type := mkState {
  (* the closure variables of [ItemPickup()] *)
  listeners : list Listener;
  playerCache : gmap string Snapshot;
  systemIntervalId : option nat;
  systemIntervalTick : Z;
  (* the host *)
  players : list Player;
  host_calls : list HostCall;
  next_handle : nat;
  console : list string;
  (* every callback invocation so far: index of the listener, and the
     [data] object as the poll built it; the module does not read the
     object again *)
  calls : list (nat * GainRecord)
}.

Definition initial : State :=
  {| listeners := []; playerCache := ∅; systemIntervalId := None;
     systemIntervalTick := DEFAULT_TICK; players := []; host_calls := [];
     next_handle := 0%nat; console := []; calls := [] |}.

Definition set_listeners (f : list Listener -> list Listener) (s : State) : State :=
  {| listeners := f (listeners s); playerCache := playerCache s;
     systemIntervalId := systemIntervalId s;
     systemIntervalTick := systemIntervalTick s; players := players s;
     host_calls := host_calls s; next_handle := next_handle s;
     console := console s; calls := calls s |}.

Definition set_playerCache (f : gmap string Snapshot -> gmap string Snapshot)
  (s : State) : State :=
  {| listeners := listeners s; playerCache := f (playerCache s);
     systemIntervalId := systemIntervalId s;
     systemIntervalTick := systemIntervalTick s; players := players s;
     host_calls := host_calls s; next_handle := next_handle s;
     console := console s; calls := calls s |}.

Definition set_systemIntervalId (v : option nat) (s : State) : State :=
  {| listeners := listeners s; playerCache := playerCache s;
     systemIntervalId := v;
     systemIntervalTick := systemIntervalTick s; players := players s;
     host_calls := host_calls s; next_handle := next_handle s;
     console := console s; calls := calls s |}.

Definition set_systemIntervalTick (v : Z) (s : State) : State :=
  {| listeners := listeners s; playerCache := playerCache s;
     systemIntervalId := systemIntervalId s;
     systemIntervalTick := v; players := players s;
     host_calls := host_calls s; next_handle := next_handle s;
     console := console s; calls := calls s |}.

Definition set_players (f : list Player -> list Player) (s : State) : State :=
  {| listeners := listeners s; playerCache := playerCache s;
     systemIntervalId := systemIntervalId s;
     systemIntervalTick := systemIntervalTick s; players := f (players s);
     host_calls := host_calls s; next_handle := next_handle s;
     console := console s; calls := calls s |}.

Definition set_host (log : list HostCall) (next : nat) (s : State) : State :=
  {| listeners := listeners s; playerCache := playerCache s;
     systemIntervalId := systemIntervalId s;
     systemIntervalTick := systemIntervalTick s; players := players s;
     host_calls := log; next_handle := next;
     console := console s; calls := calls s |}.

Definition set_console (f : list string -> list string) (s : State) : State :=
  {| listeners := listeners s; playerCache := playerCache s;
     systemIntervalId := systemIntervalId s;
     systemIntervalTick := systemIntervalTick s; players := players s;
     host_calls := host_calls s; next_handle := next_handle s;
     console := f (console s); calls := calls s |}.

Definition set_calls (f : list (nat * GainRecord) -> list (nat * GainRecord))
  (s : State) : State :=
  {| listeners := listeners s; playerCache := playerCache s;
     systemIntervalId := systemIntervalId s;
     systemIntervalTick := systemIntervalTick s; players := players s;
     host_calls := host_calls s; next_handle := next_handle s;
     console := console s; calls := f (calls s) |}.

(** [system.runInterval(callback, period)]: a fresh handle. *)
Definition system_runInterval (period : Z) : M State nat :=
  fun s =>
    let h := next_handle s in
    (Normal h, set_host (host_calls s ++ [RunInterval h period]) (S h) s).

(** [system.clearRun(handle)] *)
Definition system_clearRun (h : nat) : M State unit :=
  modify (fun s => set_host (host_calls s ++ [ClearRun h]) (next_handle s) s).

(** [console.error(line)] *)
Definition console_error (line : string) : M State unit :=
  modify (set_console (fun out => out ++ [line])).

Definition startSystemInterval : M State unit :=
  id ← gets systemIntervalId;
  match id with
  | Some _ => ret tt
  | None =>
      period ← gets systemIntervalTick;
      h ← system_runInterval period;
      modify (set_systemIntervalId (Some h))
  end.

(** [listeners.reduce((min, listener) => Math.min(listener.tick, min), DEFAULT_TICK)] *)
Definition minTick_of (ls : list Listener) : Z :=
  fold_left (fun min listener => Z.min (tick listener) min) ls DEFAULT_TICK.

Arguments minTick_of : simpl never.

Definition adjustSystemInterval : M State unit :=
  minTick ← gets (fun s => minTick_of (listeners s));
  current ← gets systemIntervalTick;
  if decide (minTick <> current) then
    modify (set_systemIntervalTick minTick) ;;
    id ← gets systemIntervalId;
    match id with
    | Some h =>
        system_clearRun h ;;
        modify (set_systemIntervalId None) ;;
        startSystemInterval
    | None => ret tt
    end
  else ret tt.

(** The default value [tick = DEFAULT_TICK] of the parameter. *)
Definition tick_or_default (tick : TickArg) : TickArg :=
  match tick with
  | TickOmitted => TickInteger DEFAULT_TICK
  | _ => tick
  end.

Definition listen (callback : option Callback) (tick : TickArg) : M State unit :=
  match callback with
  | None => throw "Callback must be a function"
  | Some cb =>
      match tick_or_default tick with
      | TickInteger z =>
          if z <? 1 then throw "Tick must be a positive integer"
          else
            modify (set_listeners (fun ls => ls ++ [mkListener cb z 0])) ;;
            adjustSystemInterval ;;
            startSystemInterval
      | _ => throw "Tick must be a positive integer"
      end
  end.

(** *** One poll cycle *)

(** The container of the player at index [p], if there is one. *)
Definition inventory_at (ps : list Player) (p : nat) : option Container :=
  match ps !! p with
  | Some player => inventory player
  | None => None
  end.

(** Run a container action on the inventory of the player at index [p];
    the container keeps whatever was written before a throw. *)
Definition on_inventory (p : nat) (m : M Container unit) : M State unit :=
  fun s =>
    match inventory_at (players s) p with
    | Some inv =>
        let r := m inv in
        (r.1, set_players (alter (fun pl => mkPlayer (name pl) (Some r.2)) p) s)
    | None => (Normal tt, s)
    end.

(** [actions.remove()] of the record about [type] of the player at [p]. *)
Definition actions_remove (p : nat) (type : string) (pickedUpAmount : Z)
  : M State unit :=
  try_catch
    (on_inventory p (removeItemsFromInventory type pickedUpAmount))
    (fun msg => console_error ("Failed to remove items: " +:+ msg)).

(** A write to the listener entry at index [k]. *)
Definition write_entry (k : nat) (f : Listener -> Listener) : State -> State :=
  set_listeners (alter f k).

(** One operation of the callback of the listener at index [k], called
    for [data] of the player at index [p]; [this] is the entry at [k]. *)
Definition run_op (k p : nat) (data : GainRecord) (op : Op) : M State unit :=
  match op with
  | OpRemove => actions_remove p (gain_typeId data) (gain_amount data)
  | OpThrow msg => throw msg
  | OpListen cb t => listen cb t
  | OpSetTick z =>
      modify (write_entry k (fun l => mkListener (callback l) z (counter l)))
  | OpSetCounter z =>
      modify (write_entry k (fun l => mkListener (callback l) (tick l) z))
  | OpSetCallback cb =>
      modify (write_entry k (fun l => mkListener cb (tick l) (counter l)))
  end.

Fixpoint run_ops (k p : nat) (data : GainRecord) (ops : list Op) : M State unit :=
  match ops with
  | [] => ret tt
  | op :: ops' => run_op k p data op ;; run_ops k p data ops'
  end.

(** [listener.callback(data, actions)] for the listener at index [k]. *)
Definition invoke (k p : nat) (data : GainRecord) (cb : Callback) : M State unit :=
  modify (set_calls (fun tr => tr ++ [(k, data)])) ;;
  run_ops k p data cb.

(** [listener.counter = 0] for the listener at index [k]. *)
Definition reset_counter (k : nat) : State -> State :=
  write_entry k (fun l => mkListener (callback l) (tick l) 0).

(** [listener.counter >= listener.tick] *)
Definition due (l : Listener) : bool := tick l <=? counter l.

(** [listeners.forEach] of the fan-out: [n] indices are left, the next is
    [k]. Entries pushed while the loop runs lie beyond its range. *)
Fixpoint fanout_loop (n k p : nat) (data : GainRecord) : M State unit :=
  match n with
  | O => ret tt
  | S n' =>
      ls ← gets listeners;
      match ls !! k with
      | Some listener =>
          if due listener then
            invoke k p data (callback listener) ;;
            modify (reset_counter k) ;;
            fanout_loop n' (S k) p data
          else fanout_loop n' (S k) p data
      | None => fanout_loop n' (S k) p data
      end
  end.

Definition fanout (p : nat) (data : GainRecord) : M State unit :=
  ls ← gets listeners;
  fanout_loop (length ls) 0%nat p data.

(** [for (const [typeId, amount] of current)] *)
Fixpoint entries_loop (p : nat) (player : string) (previous : Snapshot)
  (entries : list (string * Z)) : M State unit :=
  match entries with
  | [] => ret tt
  | entry :: rest =>
      match pickedUp previous entry with
      | None => entries_loop p player previous rest
      | Some pickedUpAmount =>
          fanout p (mkGain entry.1 pickedUpAmount player) ;;
          entries_loop p player previous rest
      end
  end.

(** The fan-outs of a list of records, one after the other. *)
Fixpoint deliver (p : nat) (records : list GainRecord) : M State unit :=
  match records with
  | [] => ret tt
  | data :: rest => fanout p data ;; deliver p rest
  end.

(** [for (const player of players)]: [n] players are left, the next one
    is at index [p]. *)
Fixpoint players_loop (n p : nat) : M State unit :=
  match n with
  | O => ret tt
  | S n' =>
      ps ← gets players;
      match ps !! p with
      | Some player =>
          match inventory player with
          | None => players_loop n' (S p)
          | Some inv =>
              let current := snapshotInventory inv in
              cache ← gets playerCache;
              let previous := previous_of cache (name player) in
              entries_loop p (name player) previous current ;;
              modify (set_playerCache (fun c => <[name player := current]> c)) ;;
              players_loop n' (S p)
          end
      | None => ret tt
      end
  end.

Definition advance_counters (s : State) : State :=
  set_listeners
    (fmap (fun l => mkListener (callback l) (tick l)
                      (counter l + systemIntervalTick s))) s.

(** The callback given to [system.runInterval]. *)
Definition poll_cycle : M State unit :=
  modify advance_counters ;;
  ps ← gets players;
  players_loop (length ps) 0%nat.

(** *** What happens to the module over time *)

Inductive Event : Type :=
| CallListen (callback : option Callback) (tick : TickArg)
| TimerFires
| WorldChanges (players : list Player).

Definition step (s : State) (e : Event) : State :=
  match e with
  | CallListen cb t => (listen cb t s).2
  | TimerFires =>
      match live (host_calls s) with
      | [] => s
      | _ :: _ => (poll_cycle s).2
      end
  | WorldChanges ps => set_players (fun _ => ps) s
  end.

Definition run (events : list Event) : State := fold_left step events initial.

(** The gain records of one poll cycle, computed from the players and
    the cache as the cycle finds them. *)
Fixpoint gains_from (ps : list Player) (cache : gmap string Snapshot)
  : list GainRecord :=
  match ps with
  | [] => []
  | player :: ps' =>
      match inventory player with
      | None => gains_from ps' cache
      | Some inv =>
          let current := snapshotInventory inv in
          diff (name player) (previous_of cache (name player)) current
          ++ gains_from ps' (<[name player := current]> cache)
      end
  end.

Definition cycle_gains (s : State) : list GainRecord :=
  gains_from (players s) (playerCache s).

(** How often the listener at index [k] was called in a trace. *)
Definition times_called (k : nat) (tr : list (nat * GainRecord)) : nat :=
  length (filter (fun c => c.1 = k) tr).

Arguments times_called : simpl never.

(** *** Notions used in the statements about the tracker *)

(** A property of the state that a computation keeps, however it ends. *)
Definition preserves (P : State -> Prop) {A : Type} (m : M State A) : Prop :=
  forall s, P s -> P (m s).2.

(** Every registered period is a positive number of ticks. *)
Definition periods_positive (s : State) : Prop :=
  Forall (fun l => 1 <= tick l) (listeners s).

(** The poll period is the least of the default period and the periods
    of the registered listeners. *)
Definition least_period (period : Z) (ls : list Listener) : Prop :=
  period <= DEFAULT_TICK
  /\ Forall (fun l => period <= tick l) ls
  /\ (period = DEFAULT_TICK \/ Exists (fun l => tick l = period) ls).

(** The poll period as the description has it: the minimum of the
    registered periods, the default when nothing is registered. *)
Definition min_period_or_default (ls : list Listener) : Z :=
  match ls with
  | [] => DEFAULT_TICK
  | l :: ls' => foldr (fun l' acc => Z.min (tick l') acc) (tick l) ls'
  end.

Definition handle_list (id : option nat) : list nat :=
  match id with
  | Some h => [h]
  | None => []
  end.

(** At no point of a log of scheduler calls are two recurring tasks live. *)
Definition never_two_live (log : list HostCall) : Prop :=
  forall pre, pre `prefix_of` log -> (length (live pre) <= 1)%nat.

(** Whenever a recurring task is created, none is live. *)
Definition created_when_idle (log : list HostCall) : Prop :=
  forall pre h period, pre ++ [RunInterval h period] `prefix_of` log -> live pre = [].

(** The scheduler calls so far left live exactly the task whose handle
    the module holds, never two, and created none while one was live. *)
Definition scheduler_inv (s : State) : Prop :=
  live (host_calls s) = handle_list (systemIntervalId s)
  /\ never_two_live (host_calls s)
  /\ created_when_idle (host_calls s).

(** The poll period is the one [adjustSystemInterval] computes from the
    registered periods, and these are as [listen] accepts them. This is
    so as long as no callback has written a period. *)
Definition period_inv (s : State) : Prop :=
  systemIntervalTick s = minTick_of (listeners s)
  /\ periods_positive s.

(** What a fan-out does to a listener: reset when due, nothing otherwise. *)
Definition fire (l : Listener) : Listener :=
  if due l then mkListener (callback l) (tick l) 0 else l.

(** The invocations of one fan-out of [data] over the listeners at the
    indices [k], ..., [k + n - 1] of [ls]: those that are due, in order. *)
Definition fired (k n : nat) (ls : list Listener) (data : GainRecord)
  : list (nat * GainRecord) :=
  omap (fun j => l ← ls !! j; if due l then Some (j, data) else None) (seq k n).

Arguments fired : simpl never.

(** An operation of a callback that returns instead of throwing. *)
Definition op_returns (op : Op) : Prop :=
  match op with
  | OpRemove | OpSetTick _ | OpSetCounter _ | OpSetCallback _ => True
  | OpThrow _ => False
  | OpListen cb t =>
      cb <> None /\ exists z, tick_or_default t = TickInteger z /\ 1 <= z
  end.

(** The callbacks of the listeners that are due return. *)
Definition due_callbacks_return (ls : list Listener) : Prop :=
  Forall (fun l => due l = true -> Forall op_returns (callback l)) ls.

(** An operation of a callback that assigns to no listener entry. *)
Definition op_keeps_entry (op : Op) : Prop :=
  match op with
  | OpSetTick _ | OpSetCounter _ | OpSetCallback _ => False
  | OpRemove | OpThrow _ | OpListen _ _ => True
  end.

(** A callback that assigns to no listener entry. *)
Definition keeps_entry (cb : Callback) : Prop := Forall op_keeps_entry cb.

(** The callbacks of the listeners that are due assign to no listener
    entry. *)
Definition due_callbacks_keep (ls : list Listener) : Prop :=
  Forall (fun l => due l = true -> keeps_entry (callback l)) ls.

(** What a callback that writes no entry can do to the registry: nothing
    to the calls recorded so far nor to the listeners already there, and
    new listeners start with counter 0 and a positive period. *)
Definition grows (s s' : State) : Prop :=
  calls s' = calls s
  /\ playerCache s' = playerCache s
  /\ exists extra,
       listeners s' = listeners s ++ extra
       /\ Forall (fun l => counter l = 0 /\ 1 <= tick l) extra.

(** What the callback of the listener at [k] can do to the registry in
    general: besides registering listeners, write the entry at [k]; the
    other entries and the calls recorded so far stay. *)
Definition grows_around (k : nat) (s s' : State) : Prop :=
  calls s' = calls s
  /\ playerCache s' = playerCache s
  /\ (length (listeners s) <= length (listeners s'))%nat
  /\ (forall j l, j <> k -> listeners s !! j = Some l ->
        listeners s' !! j = Some l).

(** Within a poll cycle: every period is positive, and the callbacks
    that can be called do not write their entries. *)
Definition steady (s : State) : Prop :=
  periods_positive s /\ due_callbacks_keep (listeners s).

(** Where the listener at [k] stands within a poll cycle that found it
    called [c0] times and (if it exists) with its counter advanced to [v]:
    either it has not been called in the cycle and its counter is [v] (0
    if it was registered during the cycle), or it has been called once
    and its counter is 0. *)
Definition once_pre (k c0 : nat) (v : Z) (s : State) : Prop :=
  steady s
  /\ ((times_called k (calls s) = c0
       /\ forall l, listeners s !! k = Some l -> counter l = v \/ counter l = 0)
      \/ (times_called k (calls s) = S c0
          /\ exists l, listeners s !! k = Some l /\ counter l = 0)).

(** The same after a computation; a throw may have left the counter of
    the listener just called at [v]. *)
Definition once_post (k c0 : nat) (v : Z) (r : Completion unit * State) : Prop :=
  match r.1 with
  | Normal _ => once_pre k c0 v r.2
  | Throw _ =>
      periods_positive r.2
      /\ (c0 <= times_called k (calls r.2) <= S c0)%nat
      /\ forall l, listeners r.2 !! k = Some l -> counter l = v \/ counter l = 0
  end.

(** The effect of one fan-out of [data] over the listeners at the
    indices [k], ..., [k + n - 1]: the due ones are called in order and
    have their counter reset, the others are left alone, and listeners
    registered meanwhile start with counter 0 and a positive period. *)
Definition fanned (k n : nat) (data : GainRecord) (s s' : State) : Prop :=
  calls s' = calls s ++ fired k n (listeners s) data
  /\ (forall j l, listeners s !! j = Some l ->
        listeners s' !! j
        = Some (if decide (k <= j < k + n)%nat then fire l else l))
  /\ (forall j l, (length (listeners s) <= j)%nat ->
        listeners s' !! j = Some l -> counter l = 0 /\ 1 <= tick l).

(** No listener is due. *)
Definition quiet (s : State) : Prop :=
  Forall (fun l => due l = false) (listeners s).

(** A computation that, run within a poll cycle, keeps the listener at
    [k] called at most once more than [c0] times. *)
Definition at_most_once (k c0 : nat) (v : Z) (m : M State unit) : Prop :=
  forall s, once_pre k c0 v s -> once_post k c0 v (m s).

(** *** Sample worlds for the examples *)

Definition two_stacks : Container :=
  mkContainer [Some (mkItemStack "A" 2); Some (mkItemStack "A" 4)] (fun _ => None).

Definition mixed_slots : Container :=
  mkContainer [Some (mkItemStack "A" 3); Some (mkItemStack "B" 2);
               Some (mkItemStack "A" 1)] (fun _ => None).

Definition mixed_slots_reordered : Container :=
  mkContainer [Some (mkItemStack "A" 1); Some (mkItemStack "A" 3);
               Some (mkItemStack "B" 2)] (fun _ => None).

Definition empty_slots : Container := mkContainer [None; None] (fun _ => None).

(** A container whose every write the host rejects. *)
Definition locked_slots : Container :=
  mkContainer [Some (mkItemStack "A" 2); Some (mkItemStack "B" 1)]
              (fun _ => Some "container is locked").

(** Two listeners at the default period, the first of which removes what
    was picked up, and one player whose container rejects writes. *)
Definition two_listeners_locked_player : list Event :=
  [CallListen (Some [OpRemove]) TickOmitted;
   CallListen (Some []) TickOmitted;
   WorldChanges [mkPlayer "steve" (Some locked_slots)]].

(** *** Notions used in the further statements about the tracker *)

(** The scheduler is idle exactly when nothing is registered; while it
    runs, its last call created the live task, at the poll period. *)
Definition running_inv (s : State) : Prop :=
  (listeners s = [] <-> systemIntervalId s = None)
  /\ match systemIntervalId s with
     | Some h =>
         exists pre,
           host_calls s = pre ++ [RunInterval h (systemIntervalTick s)]
     | None => host_calls s = []
     end.

(** What a slot holds of [type]. *)
Definition slot_amount (type : string) (slot : option ItemStack) : Z :=
  match slot with
  | Some item => if decide (typeId item = type) then amount item else 0
  | None => 0
  end.

(** A slot after removals: untouched, cleared, or its stack made smaller. *)
Definition reduced_slot (slot slot' : option ItemStack) : Prop :=
  slot' = slot
  \/ exists item,
       slot = Some item
       /\ (slot' = None
           \/ exists a, slot' = Some (mkItemStack (typeId item) a)
                        /\ 0 < a < amount item).

(** A container after removals: the same host behaviour, the same
    number of slots, every slot reduced. *)
Definition shrunk (inv inv' : Container) : Prop :=
  write_fault inv' = write_fault inv
  /\ Forall2 reduced_slot (slots inv) (slots inv').

(** No stack has a negative amount. *)
Definition nonneg_amounts (inv : Container) : Prop :=
  forall i item, getItem inv i = Some item -> 0 <= amount item.

(** A player after callbacks ran: the same name, and a container that
    only lost items. *)
Definition player_kept (pl pl' : Player) : Prop :=
  name pl' = name pl
  /\ match inventory pl, inventory pl' with
     | Some inv, Some inv' => shrunk inv inv'
     | None, None => True
     | _, _ => False
     end.

(** What the fan-outs for the player at index [p] can do to the world:
    nothing to the cache, nothing to the other players, and to the
    player's own container only removals. *)
Definition touches_only (p : nat) (s s' : State) : Prop :=
  playerCache s' = playerCache s
  /\ Forall2 player_kept (players s) (players s')
  /\ forall j, j <> p -> players s' !! j = players s !! j.



(** How an operation of a callback ends: [None] when it returns, the
    message when it throws. *)
Definition op_outcome (op : Op) : option string :=
  match op with
  | OpRemove | OpSetTick _ | OpSetCounter _ | OpSetCallback _ => None
  | OpThrow msg => Some msg
  | OpListen None _ => Some "Callback must be a function"
  | OpListen (Some _) t =>
      match tick_or_default t with
      | TickInteger z =>
          if z <? 1 then Some "Tick must be a positive integer" else None
      | _ => Some "Tick must be a positive integer"
      end
  end.

(** How a callback ends: with the first of its operations that throws. *)
Fixpoint callback_outcome (cb : Callback) : option string :=
  match cb with
  | [] => None
  | op :: ops =>
      match op_outcome op with
      | Some msg => Some msg
      | None => callback_outcome ops
      end
  end.

(** A listener that returns, one that removes and then throws, and a
    third one, over one player with items. *)
Definition thrower_then_listener : list Event :=
  [CallListen (Some []) TickOmitted;
   CallListen (Some [OpRemove; OpThrow "boom"]) TickOmitted;
   CallListen (Some []) TickOmitted;
   WorldChanges [mkPlayer "steve" (Some mixed_slots)]].

(** The listener at [k] is as it was and has not been called since. *)
Definition undisturbed (k : nat) (s s' : State) : Prop :=
  listeners s' !! k = listeners s !! k
  /\ times_called k (calls s') = times_called k (calls s).

(** How often the timer fires in a sequence of events. *)
Fixpoint timer_fires (events : list Event) : nat :=
  match events with
  | [] => O
  | TimerFires :: events' => S (timer_fires events')
  | _ :: events' => timer_fires events'
  end.

(** A listener with period 30 over one player with items. *)
Definition slow_listener : list Event :=
  [CallListen (Some []) (TickInteger 30);
   WorldChanges [mkPlayer "steve" (Some mixed_slots)]].

(** An operation of a callback that does not assign to a listener entry
    and registers only callbacks of which the same holds. *)
Fixpoint op_never_writes (op : Op) : Prop :=
  match op with
  | OpRemove | OpThrow _ | OpListen None _ => True
  | OpListen (Some cb) _ =>
      (fix all (ops : list Op) : Prop :=
         match ops with
         | [] => True
         | op' :: ops' => op_never_writes op' /\ all ops'
         end) cb
  | OpSetTick _ | OpSetCounter _ | OpSetCallback _ => False
  end.

(** A callback that never assigns to a listener entry, nor registers a
    callback that does. *)
Definition never_writes (cb : Callback) : Prop := Forall op_never_writes cb.

(** An event that brings no callback that assigns to a listener entry. *)
Definition registers_no_writer (e : Event) : Prop :=
  match e with
  | CallListen (Some cb) _ => never_writes cb
  | _ => True
  end.

(** No registered callback assigns to a listener entry. *)
Definition no_writers (s : State) : Prop :=
  Forall (fun l => never_writes (callback l)) (listeners s).

(** The registry as registrations alone leave it: the poll period is the
    one computed from the registered periods, which are as [listen]
    accepts them, and no callback will change that. *)
Definition unwritten (s : State) : Prop := period_inv s /\ no_writers s.

(** The item types of a list, each once, in the order in which they
    first occur. *)
Fixpoint first_occurrences (types : list string) : list string :=
  match types with
  | [] => []
  | type :: types' =>
      type :: filter (fun other => other <> type) (first_occurrences types')
  end.

End ItemPickup.

(** ** Block break forwarder ([api/events/blockBreak.js]) *)

Module BlockBreak.

Record Location : Type := mkLocation { loc_x : Z; loc_y : Z; loc_z : Z }.

(** The native event: who broke which block where, and with which tool
    in hand afterwards ([None] for an empty hand). *)
Record BreakEvent : Type := mkBreakEvent {
  ev_player : string;
  ev_brokenBlockId : string;
  ev_location : Location;
  ev_dimension : string;
  ev_itemStackAfterBreak : option string
}.

(** The [data] object handed to listeners. *)
Record BreakRecord : Type := mkBreakRecord {
  player : string;
  blockId : string;
  location : Location;
  dimension : string;
  toolTypeId : option string
}.

(** Listener callbacks are code of the add-on's user. They are modelled
    by what they can do to the module while they run, in order, through
    what the call hands them and through the module's interface: call
    [actions.restore()], throw, register a further listener ([None]: not
    a function), and assign to the properties of [data] that [restore()]
    reads back when it is called, [data.blockId] and [data.location]. *)
#[warnings="-register-all"]
Inductive Op : Type :=
| OpRestore
| OpThrow (msg : string)
| OpListen (callback : option (list Op))
| OpSetBlockId (id : string)
| OpSetLocation (loc : Location).

Definition Callback : Type := list Op.

(** [command_fault cmd = Some msg] says that the host rejects the
    command [cmd] by throwing [msg]. [data_object] holds the properties
    of the [data] object that [handleBlockBreak] built last, as the
    callbacks have left them; [calls] names the object by the record it
    was built as. *)
Record State : Type := mkState {
  listeners : list Callback;
  command_fault : string -> option string;
  commands : list (string * string);
  console : list string;
  calls : list (nat * BreakRecord);
  data_object : BreakRecord
}.

Definition set_listeners (f : list Callback -> list Callback) (s : State) : State :=
  {| listeners := f (listeners s); command_fault := command_fault s;
     commands := commands s; console := console s; calls := calls s;
     data_object := data_object s |}.

Definition set_commands (f : list (string * string) -> list (string * string))
  (s : State) : State :=
  {| listeners := listeners s; command_fault := command_fault s;
     commands := f (commands s); console := console s; calls := calls s;
     data_object := data_object s |}.

Definition set_console (f : list string -> list string) (s : State) : State :=
  {| listeners := listeners s; command_fault := command_fault s;
     commands := commands s; console := f (console s); calls := calls s;
     data_object := data_object s |}.

Definition set_calls (f : list (nat * BreakRecord) -> list (nat * BreakRecord))
  (s : State) : State :=
  {| listeners := listeners s; command_fault := command_fault s;
     commands := commands s; console := console s; calls := f (calls s);
     data_object := data_object s |}.

Definition set_data_object (f : BreakRecord -> BreakRecord) (s : State) : State :=
  {| listeners := listeners s; command_fault := command_fault s;
     commands := commands s; console := console s; calls := calls s;
     data_object := f (data_object s) |}.

(** [dimension.runCommand(cmd)] *)
Definition runCommand (dim cmd : string) : M State unit :=
  fault ← gets (fun s => command_fault s cmd);
  match fault with
  | Some msg => throw msg
  | None => modify (set_commands (fun done => done ++ [(dim, cmd)]))
  end.

Definition console_error (line : string) : M State unit :=
  modify (set_console (fun out => out ++ [line])).

Definition setblock_command (data : BreakRecord) : string :=
  "setblock " +:+ pretty (loc_x (location data)) +:+ " "
  +:+ pretty (loc_y (location data)) +:+ " "
  +:+ pretty (loc_z (location data)) +:+ " " +:+ blockId data.

(** [actions.restore()], where [data] holds what the properties of the
    [data] object are when it is called. The command goes to
    [block.dimension], which is what [data.dimension] was built from. *)
Definition actions_restore (data : BreakRecord) : M State unit :=
  try_catch
    (runCommand (dimension data) (setblock_command data))
    (fun msg => console_error ("Failed to restore block: " +:+ msg)).

Definition listen (callback : option Callback) : M State unit :=
  match callback with
  | None => throw "Callback must be a function"
  | Some cb => modify (set_listeners (fun ls => ls ++ [cb]))
  end.

Definition run_op (op : Op) : M State unit :=
  match op with
  | OpRestore => data ← gets data_object; actions_restore data
  | OpThrow msg => throw msg
  | OpListen cb => listen cb
  | OpSetBlockId id =>
      modify (set_data_object (fun data =>
        mkBreakRecord (player data) id (location data) (dimension data)
                      (toolTypeId data)))
  | OpSetLocation loc =>
      modify (set_data_object (fun data =>
        mkBreakRecord (player data) (blockId data) loc (dimension data)
                      (toolTypeId data)))
  end.

Fixpoint run_ops (ops : list Op) : M State unit :=
  match ops with
  | [] => ret tt
  | op :: ops' => run_op op ;; run_ops ops'
  end.

(** [listener(data, actions)] for the listener at index [k]; [data]
    names the object. *)
Definition invoke (k : nat) (data : BreakRecord) (cb : Callback) : M State unit :=
  modify (set_calls (fun tr => tr ++ [(k, data)])) ;;
  run_ops cb.

(** [listeners.forEach((listener) => listener(data, actions))] *)
Fixpoint forEach_loop (n k : nat) (data : BreakRecord) : M State unit :=
  match n with
  | O => ret tt
  | S n' =>
      ls ← gets listeners;
      match ls !! k with
      | Some cb => invoke k data cb ;; forEach_loop n' (S k) data
      | None => forEach_loop n' (S k) data
      end
  end.

Definition handleBlockBreak (event : BreakEvent) : M State unit :=
  let data :=
    mkBreakRecord (ev_player event) (ev_brokenBlockId event) (ev_location event)
                  (ev_dimension event) (ev_itemStackAfterBreak event) in
  modify (set_data_object (fun _ => data)) ;;
  ls ← gets listeners;
  forEach_loop (length ls) 0%nat data.

(** How a callback ends when it is run: [Some msg] when it throws [msg]
    (its own throw, or [listen] called with something that is not a
    function), [None] when it returns. *)
Definition op_outcome (op : Op) : option string :=
  match op with
  | OpThrow msg => Some msg
  | OpListen None => Some "Callback must be a function"
  | OpRestore | OpListen (Some _) | OpSetBlockId _ | OpSetLocation _ => None
  end.

Fixpoint callback_outcome (ops : Callback) : option string :=
  match ops with
  | [] => None
  | op :: ops' =>
      match op_outcome op with
      | Some msg => Some msg
      | None => callback_outcome ops'
      end
  end.

(** The callbacks a callback registers, and how often it calls
    [actions.restore()], when it runs to its end. *)
Fixpoint registered (ops : Callback) : list Callback :=
  match ops with
  | [] => []
  | OpListen (Some cb) :: ops' => cb :: registered ops'
  | _ :: ops' => registered ops'
  end.

Fixpoint restores (ops : Callback) : nat :=
  match ops with
  | [] => O
  | OpRestore :: ops' => S (restores ops')
  | _ :: ops' => restores ops'
  end.

(** What [n] calls of [actions.restore()] leave behind: [n] commands when
    the host accepts the command, [n] console lines when it rejects it. *)
Definition issued (data : BreakRecord) (fault : option string) (n : nat)
  : list (string * string) :=
  match fault with
  | None => replicate n (dimension data, setblock_command data)
  | Some _ => []
  end.

Definition logged (fault : option string) (n : nat) : list string :=
  match fault with
  | Some msg => replicate n ("Failed to restore block: " +:+ msg)
  | None => []
  end.

(** The [data] object built from the native event. *)
Definition record_of (event : BreakEvent) : BreakRecord :=
  mkBreakRecord (ev_player event) (ev_brokenBlockId event) (ev_location event)
                (ev_dimension event) (ev_itemStackAfterBreak event).

(** An operation of a callback that leaves the [data] object as it is. *)
Definition op_keeps_data (op : Op) : Prop :=
  match op with
  | OpSetBlockId _ | OpSetLocation _ => False
  | OpRestore | OpThrow _ | OpListen _ => True
  end.

(** A callback that does not assign to the [data] object. *)
Definition keeps_data (cb : Callback) : Prop := Forall op_keeps_data cb.

(** Before the first event no [data] object exists; the field is read
    only after [handleBlockBreak] has set it. *)
Definition no_data : BreakRecord :=
  mkBreakRecord "" "" (mkLocation 0 0 0) "" None.

(** Three listeners: one restores twice and registers a fourth, one
    throws after restoring, one is never reached. *)
Definition restorer_thrower_idle : State :=
  mkState [[OpRestore; OpListen (Some [OpRestore]); OpRestore];
           [OpRestore; OpThrow "stop"; OpRestore];
           [OpRestore]]
          (fun _ => None) [] [] [] no_data.

Definition restorers_only : State :=
  mkState [[OpRestore; OpListen (Some [OpRestore]); OpRestore]; [];
           [OpRestore]]
          (fun _ => None) [] [] [] no_data.

(** A listener that restores, one that puts another block id into
    [data], and a third that restores. *)
Definition restorer_writer_restorer : State :=
  mkState [[OpRestore]; [OpSetBlockId "minecraft:tnt"]; [OpRestore]]
          (fun _ => None) [] [] [] no_data.

Definition stone_broken : BreakEvent :=
  mkBreakEvent "steve" "minecraft:stone" (mkLocation 1 (-2) 3) "overworld" None.

End BlockBreak.

(** ** HTTP shim ([api/lib/httpReq.js]) *)

Module HttpReq.

Inductive HttpRequestMethod : Type := Get | Post | Put | Delete | Head.

(** A property of the configuration object that may be left out or [null]. *)
Inductive Field (A : Type) : Type :=
| Undefined
| Null
| Value (a : A).

Arguments Undefined {A}.
Arguments Null {A}.
Arguments Value {A} a.

#[global] Instance Field_eq_dec {A : Type} `{EqDecision A} : EqDecision (Field A).
Proof. solve_decision. Defined.

(** A request body: an object, which is serialised, or a string, which
    is sent as it is. *)
Inductive Body (Json : Type) : Type :=
| BodyObject (o : Json)
| BodyText (s : string).

Arguments BodyObject {Json} o.
Arguments BodyText {Json} s.

Record Config (Json : Type) : Type := mkConfig {
  url : Field string;
  method : option string;
  data : Field (Body Json);
  body : Field (Body Json);
  headers : option (JsMap.t string)
}.

Arguments mkConfig {Json}.
Arguments url {Json}.
Arguments method {Json}.
Arguments data {Json}.
Arguments body {Json}.
Arguments headers {Json}.

Record HttpRequest : Type := mkRequest {
  req_url : string;
  req_method : HttpRequestMethod;
  req_body : option string;
  req_headers : list (string * string)
}.

(** The response of the transport; [resp_body] is [None] when absent. *)
Record HttpResponse : Type := mkResponse {
  resp_status : Z;
  resp_body : option string;
  resp_headers : list (string * string)
}.

(** What [httpReq] resolves to; [res_data] is [None] for [null]. *)
Record Result (Json : Type) : Type := mkResult {
  res_status : Z;
  res_data : option Json;
  res_headers : list (string * string)
}.

Arguments mkResult {Json}.
Arguments res_status {Json}.
Arguments res_data {Json}.
Arguments res_headers {Json}.

(** [!url] *)
Definition url_missing (u : Field string) : bool :=
  match u with
  | Value s => bool_decide (s = "")
  | _ => true
  end.

Definition url_text (u : Field string) : string :=
  match u with
  | Value s => s
  | _ => ""
  end.

(** A string used as a condition. *)
Definition truthy (s : option string) : bool :=
  match s with
  | Some text => negb (bool_decide (text = ""))
  | None => false
  end.

(** The requests handed to the transport so far. *)
Definition Sent : Type := list HttpRequest.

(** [headers] after the default [Content-Type] of an object body. *)
Definition with_content_type (headers : JsMap.t string) : JsMap.t string :=
  if truthy (JsMap.get headers "Content-Type")
     || truthy (JsMap.get headers "content-type")
  then headers
  else JsMap.set headers "Content-Type" "application/json".

Section Host.
Context {Json : Type}.
(** [String.prototype.toUpperCase], [JSON.stringify], [JSON.parse] and
    [http.request] of the host. [JSON.stringify] throws for an object it
    cannot serialise (a circular structure, a BigInt inside) and gives
    [None] where it returns [undefined]. *)
Variable toUpperCase : string -> string.
Variable JSON_stringify : Json -> Completion (option string).
Variable JSON_parse : string -> Completion Json.
Variable transport : HttpRequest -> Completion HttpResponse.

(** [switch (method.toUpperCase())] *)
Definition method_of (name : string) : HttpRequestMethod :=
  let upper := toUpperCase name in
  if decide (upper = "GET") then Get
  else if decide (upper = "POST") then Post
  else if decide (upper = "PUT") then Put
  else if decide (upper = "DELETE") then Delete
  else if decide (upper = "HEAD") then Head
  else Get.

(** [http.request(request)] *)
Definition http_request (request : HttpRequest) : M Sent HttpResponse :=
  fun sent => (transport request, sent ++ [request]).

(** The request object built from the configuration, before the [try]:
    what [JSON.stringify] throws is thrown by [httpReq] as it is. *)
Definition build_request (u : string) (config : Config Json)
  : Completion HttpRequest :=
  let method := default "GET" (method config) in
  let body :=
    match body config with
    | Undefined => data config
    | b => b
    end in
  let headers := default JsMap.empty (headers config) in
  let request_method := method_of method in
  match body with
  | Value (BodyObject o) =>
      match JSON_stringify o with
      | Normal text =>
          Normal (mkRequest u request_method text (with_content_type headers))
      | Throw msg => Throw msg
      end
  | Value (BodyText text) => Normal (mkRequest u request_method (Some text) headers)
  | Undefined | Null => Normal (mkRequest u request_method None headers)
  end.

Definition httpReq (config : Config Json) : M Sent (Result Json) :=
  if url_missing (url config) then throw "URL is required"
  else
    match build_request (url_text (url config)) config with
    | Throw msg => throw msg
    | Normal request =>
        try_catch
          (response ← http_request request;
           if truthy (resp_body response) then
             match JSON_parse (default "" (resp_body response)) with
             | Normal parsed =>
                 ret (mkResult (resp_status response) (Some parsed)
                               (resp_headers response))
             | Throw msg => throw msg
             end
           else
             ret (mkResult (resp_status response) None (resp_headers response)))
          (fun msg => throw ("HTTP request failed: " +:+ msg))
    end.

End Host.

(** An options object handed to a wrapper: for each property that
    [httpReq] reads, [None] when the object has no such key. *)
Record Options (Json : Type) : Type := mkOptions {
  opt_url : option (Field string);
  opt_method : option (option string);
  opt_data : option (Field (Body Json));
  opt_body : option (Field (Body Json));
  opt_headers : option (option (JsMap.t string))
}.

Arguments mkOptions {Json}.
Arguments opt_url {Json}.
Arguments opt_method {Json}.
Arguments opt_data {Json}.
Arguments opt_body {Json}.
Arguments opt_headers {Json}.

(** [{ ...base, ...config }]: a key of [config] replaces that of [base]. *)
Definition spread {Json : Type} (base : Config Json) (config : Options Json)
  : Config Json :=
  mkConfig (default (url base) (opt_url config))
           (default (method base) (opt_method config))
           (default (data base) (opt_data config))
           (default (body base) (opt_body config))
           (default (headers base) (opt_headers config)).

Section Wrappers.
Context {Json : Type}.
Variable toUpperCase : string -> string.
Variable JSON_stringify : Json -> Completion (option string).
Variable JSON_parse : string -> Completion Json.
Variable transport : HttpRequest -> Completion HttpResponse.

(** [httpReq.get(url, config)] *)
Definition httpReq_get (u : Field string) (config : Options Json)
  : M Sent (Result Json) :=
  httpReq toUpperCase JSON_stringify JSON_parse transport
    (spread (mkConfig u (Some "GET") Undefined Undefined None) config).

(** [httpReq.post(url, body, config)] *)
Definition httpReq_post (u : Field string) (b : Field (Body Json))
  (config : Options Json) : M Sent (Result Json) :=
  httpReq toUpperCase JSON_stringify JSON_parse transport
    (spread (mkConfig u (Some "POST") Undefined b None) config).

(** [httpReq.put(url, body, config)] *)
Definition httpReq_put (u : Field string) (b : Field (Body Json))
  (config : Options Json) : M Sent (Result Json) :=
  httpReq toUpperCase JSON_stringify JSON_parse transport
    (spread (mkConfig u (Some "PUT") Undefined b None) config).

(** [httpReq.delete(url, config)] *)
Definition httpReq_delete (u : Field string) (config : Options Json)
  : M Sent (Result Json) :=
  httpReq toUpperCase JSON_stringify JSON_parse transport
    (spread (mkConfig u (Some "DELETE") Undefined Undefined None) config).

(** [httpReq.head(url, config)] *)
Definition httpReq_head (u : Field string) (config : Options Json)
  : M Sent (Result Json) :=
  httpReq toUpperCase JSON_stringify JSON_parse transport
    (spread (mkConfig u (Some "HEAD") Undefined Undefined None) config).

End Wrappers.

(** [body = data]: the body of the configuration, [data] when [body]
    is undefined. *)
Definition payload_of {Json : Type} (config : Config Json) : Field (Body Json) :=
  match body config with
  | Undefined => data config
  | b => b
  end.

(** The body that is sent for a payload, when it can be serialised. *)
Definition serialised {Json : Type}
  (JSON_stringify : Json -> Completion (option string))
  (payload : Field (Body Json)) : Completion (option string) :=
  match payload with
  | Value (BodyObject o) => JSON_stringify o
  | Value (BodyText text) => Normal (Some text)
  | Undefined | Null => Normal None
  end.

(** The names of the methods, as the wrappers and the [switch] spell
    them. *)
Definition METHOD_NAMES : list string := ["GET"; "POST"; "PUT"; "DELETE"; "HEAD"].

(** *** Host doubles for the examples *)

(** [toUpperCase] on the letters a to z; every other character is kept,
    which the host does not do for all of them. *)
Definition upper_ascii (c : Ascii.ascii) : Ascii.ascii :=
  let n := Ascii.nat_of_ascii c in
  if ((97 <=? n) && (n <=? 122))%nat then Ascii.ascii_of_nat (n - 32) else c.

Fixpoint toUpperCase_ascii (s : string) : string :=
  match s with
  | EmptyString => EmptyString
  | String c s' => String (upper_ascii c) (toUpperCase_ascii s')
  end.

(** No JSON value but [null], which is the only text the parser accepts
    and what the serialiser answers. *)
Definition parse_null (text : string) : Completion unit :=
  if decide (text = "null") then Normal tt
  else Throw "Unexpected token".

Definition stringify_null (o : unit) : Completion (option string) :=
  Normal (Some "null").

(** A serialiser that rejects what it is given, as [JSON.stringify]
    rejects an object that contains itself. *)
Definition stringify_circular (o : unit) : Completion (option string) :=
  Throw "Converting circular structure to JSON".

(** Every call succeeds with an empty response. *)
Definition transport_ok (request : HttpRequest) : Completion HttpResponse :=
  Normal (mkResponse 204 None []).

End HttpReq.

(** ** Installer ([index.js], the copy of the template) *)

Module Installer.

(** The host file system, as far as [copyDirRecursive] reads and writes
    it: a path is the list of its components, [path.join(dir, file)] is
    [dir ++ [file]], and the file system maps the paths that exist to
    what is there. Operations fail for the reasons that lie in this
    structure (something missing, a file where a directory is needed or
    the reverse); links, permissions and I/O errors are not modelled. *)
Abbreviation Path := (list string).

Inductive Node : Type :=
| File (content : string)
| Directory.

Abbreviation FileSystem := (gmap (list string) Node).

(** [fs.existsSync(p)] *)
Definition existsSync (p : Path) (fs : FileSystem) : bool :=
  bool_decide (is_Some (fs !! p)).

(** [fs.mkdirSync(p, { recursive: true })]: the directories of [todo]
    below [at_], which is there, are created one after the other where
    they are missing; a file on the way is an error. *)
Fixpoint mkdir_loop (at_ : Path) (todo : list string) : M FileSystem unit :=
  match todo with
  | [] => ret tt
  | d :: todo' =>
      entry ← gets (fun fs => fs !! (at_ ++ [d]));
      match entry with
      | Some Directory => mkdir_loop (at_ ++ [d]) todo'
      | Some (File _) =>
          throw (match todo' with [] => "EEXIST" | _ => "ENOTDIR" end)
      | None =>
          modify (insert (at_ ++ [d]) Directory) ;;
          mkdir_loop (at_ ++ [d]) todo'
      end
  end.

Definition mkdirSync (p : Path) : M FileSystem unit := mkdir_loop [] p.

(** [fs.statSync(p).isDirectory()] *)
Definition isDirectory (p : Path) : M FileSystem bool :=
  entry ← gets (fun fs => fs !! p);
  match entry with
  | Some Directory => ret true
  | Some (File _) => ret false
  | None => throw "ENOENT"
  end.

(** [fs.copyFileSync(src, dest)]: [dest] is created or overwritten. *)
Definition copyFileSync (src dest : Path) : M FileSystem unit :=
  source ← gets (fun fs => fs !! src);
  match source with
  | Some (File content) =>
      target ← gets (fun fs => fs !! dest);
      match target with
      | Some Directory => throw "EISDIR"
      | _ =>
          parent ← gets (fun fs => fs !! removelast dest);
          match parent with
          | Some Directory => modify (insert dest (File content))
          | Some (File _) => throw "ENOTDIR"
          | None => throw "ENOENT"
          end
      end
  | Some Directory => throw "EISDIR"
  | None => throw "ENOENT"
  end.

(** [for (const file of files) body(file)] *)
Fixpoint for_of (body : string -> M FileSystem unit) (files : list string)
  : M FileSystem unit :=
  match files with
  | [] => ret tt
  | file :: files' => body file ;; for_of body files'
  end.

Section Host.
(** The names [fs.readdirSync] lists for a directory, in the order of
    the host. *)
Variable entries : FileSystem -> Path -> list string.

(** [fs.readdirSync(p)] *)
Definition readdirSync (p : Path) : M FileSystem (list string) :=
  entry ← gets (fun fs => fs !! p);
  match entry with
  | Some Directory => gets (fun fs => entries fs p)
  | Some (File _) => throw "ENOTDIR"
  | None => throw "ENOENT"
  end.

(** [copyDirRecursive(src, dest)]; [depth] is the number of nested calls
    the call stack has room for. *)
Fixpoint copyDirRecursive (depth : nat) (src dest : Path) : M FileSystem unit :=
  match depth with
  | O => throw "Maximum call stack size exceeded"
  | S depth' =>
      there ← gets (existsSync dest);
      (if there : bool then ret tt else mkdirSync dest) ;;
      files ← readdirSync src;
      for_of (fun file =>
                let srcPath := src ++ [file] in
                let destPath := dest ++ [file] in
                dir ← isDirectory srcPath;
                if dir : bool then copyDirRecursive depth' srcPath destPath
                else copyFileSync srcPath destPath)
             files
  end.

End Host.

(** A host listing: the names below [p], in the order of the map. *)
Definition names_below (fs : FileSystem) (p : Path) : list string :=
  omap (fun q => match drop (length p) q with
                 | [n] => if decide (take (length p) q = p) then Some n else None
                 | _ => None
                 end)
       (map_to_list fs).*1.

(** *** Notions used in the statements about the copy *)

(** Neither path lies at or below the other. *)
Definition apart (src dest : Path) : Prop :=
  ~ src `prefix_of` dest /\ ~ dest `prefix_of` src.

(** What is at the target does not stand in the way of what is copied:
    no file where a directory is needed, no directory where a file is. *)
Definition compatible (source target : option Node) : Prop :=
  match source, target with
  | Some Directory, Some (File _) => False
  | Some (File _), Some Directory => False
  | _, _ => True
  end.

(** The tree at [src] can be copied to [dest] within [depth] nested
    calls: [src] is a directory tree (what lies in a directory lies in
    something that is a directory) of depth below [depth], no file lies
    on the way to [dest], and nothing at the target is in the way. *)
Definition copyable (depth : nat) (src dest : Path) (fs : FileSystem) : Prop :=
  fs !! src = Some Directory
  /\ dest <> []
  /\ (forall q n, is_Some (fs !! (src ++ q ++ [n])) ->
        fs !! (src ++ q) = Some Directory)
  /\ (forall q, is_Some (fs !! (src ++ q)) -> (length q < depth)%nat)
  /\ (forall p c, p `prefix_of` dest -> fs !! p <> Some (File c))
  /\ (forall q, compatible (fs !! (src ++ q)) (fs !! (dest ++ q))).

(** What can happen to a path that is not written by the copy: nothing,
    or a missing directory on the way to [dest] is created. *)
Definition kept_or_made (dest : Path) (fs fs' : FileSystem) (p : Path) : Prop :=
  fs' !! p = fs !! p
  \/ (p `prefix_of` dest /\ fs !! p = None /\ fs' !! p = Some Directory).

(** [fs'] is [fs] with the entries of [src] whose first component is
    among [names] copied below [dest]. *)
Definition copied_names (names : list string) (src dest : Path)
  (fs fs' : FileSystem) : Prop :=
  (forall n q e, n ∈ names -> fs !! (src ++ n :: q) = Some e ->
     fs' !! (dest ++ n :: q) = Some e)
  /\ (forall p,
        (forall n q, n ∈ names -> p = dest ++ n :: q ->
           fs !! (src ++ n :: q) = None) ->
        kept_or_made dest fs fs' p).

(** [fs'] is [fs] with the tree at [src] copied to [dest]. *)
Definition copied (src dest : Path) (fs fs' : FileSystem) : Prop :=
  (forall q e, fs !! (src ++ q) = Some e -> fs' !! (dest ++ q) = Some e)
  /\ (forall p, (forall q, p = dest ++ q -> fs !! (src ++ q) = None) ->
        kept_or_made dest fs fs' p).

(** The host lists each name of a directory once, and nothing else. *)
Definition lists_entries (entries : FileSystem -> Path -> list string) : Prop :=
  forall fs p,
    NoDup (entries fs p)
    /\ forall n, n ∈ entries fs p <-> is_Some (fs !! (p ++ [n])).

(** What a write may do to an entry: create it, or replace a file by a
    file. *)
Definition written (old new : option Node) : Prop :=
  match old, new with
  | None, Some _ => True
  | Some (File _), Some (File _) => True
  | _, _ => False
  end.

(** What a copy to [dest] may do to the path [p], however it ends:
    nothing, create a missing directory on the way to [dest], or write
    below [dest]. *)
Definition allowed (dest : Path) (fs fs' : FileSystem) (p : Path) : Prop :=
  kept_or_made dest fs fs' p
  \/ (dest `prefix_of` p /\ p <> dest /\ written (fs !! p) (fs' !! p)).

(** A computation that, however it ends, does to every path only what a
    copy to [dest] may do. *)
Definition within (dest : Path) {A : Type} (m : M FileSystem A) : Prop :=
  forall fs p, allowed dest fs (m fs).2 p.

(** *** A sample world: the package with its template, and a project *)

Definition package_and_project : FileSystem :=
  list_to_map
    [(["pkg"], Directory);
     (["pkg"; "template"], Directory);
     (["pkg"; "template"; "mcHook"], Directory);
     (["pkg"; "template"; "mcHook"; "index.js"], File "export {}");
     (["project"], Directory);
     (["project"; "manifest.json"], File "{}")].

End Installer.

(** * Properties *)

Import ItemPickup.

(** Unfolds the monad operations in the goal. *)
Ltac unfold_M :=
  unfold mbind, mret, M_bind, M_ret, bind, ret, throw, modify, gets, try_catch.

Example snapshot_example :
  snapshotInventory
    (mkContainer [Some (mkItemStack "A" 3); Some (mkItemStack "B" 2); None;
                  Some (mkItemStack "A" 1)] (fun _ => None))
  = [("A", 4); ("B", 2)].
Proof. reflexivity. Qed.

Example diff_example :
  diff "p" [("A", 5)] [("A", 8); ("B", 1); ("C", 0)]
  = [mkGain "A" 3 "p"; mkGain "B" 1 "p"].
Proof. reflexivity. Qed.

Example diff_ignores_decrease : diff "p" [("A", 5)] [("A", 3)] = [].
Proof. reflexivity. Qed.

Example diff_first_seen_burst :
  diff "p" (previous_of ∅ "p") [("A", 2); ("B", 1)]
  = [mkGain "A" 2 "p"; mkGain "B" 1 "p"].
Proof. reflexivity. Qed.

Example remove_example :
  slots (removeItemsFromInventory "A" 5 two_stacks).2
  = [None; Some (mkItemStack "A" 1)].
Proof. reflexivity. Qed.

Example remove_more_than_held :
  removeItemsFromInventory "A" 100 two_stacks
  = (Normal tt, mkContainer [None; None] (write_fault two_stacks)).
Proof. reflexivity. Qed.

(** A write the host rejects ends the removal with a throw. *)
Example remove_from_locked_container :
  removeItemsFromInventory "A" 1 locked_slots
  = (Throw "container is locked", locked_slots).
Proof. reflexivity. Qed.

(** Periods 20, 10 and 5 bring the poll period to 5; the listener with
    period 20 is first called in the fourth poll cycle. *)
Example periods_20_10_5 :
  let registered :=
    [CallListen (Some []) (TickInteger 20); CallListen (Some []) (TickInteger 10);
     CallListen (Some []) (TickInteger 5);
     WorldChanges [mkPlayer "steve" (Some two_stacks)]] in
  let grow n :=
    WorldChanges
      [mkPlayer "steve"
         (Some (mkContainer [Some (mkItemStack "A" n)] (fun _ => None)))] in
  systemIntervalTick (run registered) = 5
  ∧ times_called 0
      (calls (run (registered ++ [TimerFires; grow 7; TimerFires;
                                  grow 8; TimerFires]))) = 0%nat
  ∧ calls (run (registered ++ [TimerFires; grow 7; TimerFires;
                               grow 8; TimerFires; grow 9; TimerFires]))
    = [(2%nat, mkGain "A" 6 "steve");
       (1%nat, mkGain "A" 1 "steve"); (2%nat, mkGain "A" 1 "steve");
       (2%nat, mkGain "A" 1 "steve");
       (0%nat, mkGain "A" 1 "steve"); (1%nat, mkGain "A" 1 "steve");
       (2%nat, mkGain "A" 1 "steve")].
Proof. by vm_compute. Qed.

(** A restore command the host rejects is logged, and the listeners
    after the one that called [restore()] still run. *)
Example restore_failure_is_logged :
  let s :=
    BlockBreak.mkState [[BlockBreak.OpRestore]; []] (fun _ => Some "denied")
                       [] [] [] BlockBreak.no_data in
  let event :=
    BlockBreak.mkBreakEvent "steve" "minecraft:stone"
      (BlockBreak.mkLocation 1 (-2) 3) "overworld" None in
  let r := BlockBreak.handleBlockBreak event s in
  r.1 = Normal tt
  ∧ BlockBreak.console r.2 = ["Failed to restore block: denied"]
  ∧ (BlockBreak.calls r.2).*1 = [0%nat; 1%nat]
  ∧ BlockBreak.setblock_command
      (BlockBreak.mkBreakRecord "steve" "minecraft:stone"
         (BlockBreak.mkLocation 1 (-2) 3) "overworld" None)
    = "setblock 1 -2 3 minecraft:stone".
Proof. by vm_compute. Qed.

(** A listener that assigns [data.blockId] changes what the [restore()]
    of a later listener puts back. *)
Example assigned_block_id_reaches_later_restore :
  BlockBreak.commands
    (BlockBreak.handleBlockBreak BlockBreak.stone_broken
       BlockBreak.restorer_writer_restorer).2
  = [("overworld", "setblock 1 -2 3 minecraft:stone");
     ("overworld", "setblock 1 -2 3 minecraft:tnt")].
Proof. by vm_compute. Qed.

(** ** The [Map] model *)

Section JsMapFacts.
Context {V : Type}.
Implicit Types (m : JsMap.t V) (k : string) (v : V).

Lemma get_set_eq m k v : JsMap.get (JsMap.set m k v) k = Some v.
Proof.
  induction m as [|[k' v'] m IH]; simpl.
  - by rewrite decide_True.
  - destruct (decide (k' = k)) as [->|Hne]; simpl.
    + by rewrite decide_True.
    + by rewrite decide_False.
Qed.

Lemma get_set_ne m k k' v : k ≠ k' → JsMap.get (JsMap.set m k v) k' = JsMap.get m k'.
Proof.
  intros Hne. induction m as [|[k0 v0] m IH]; simpl.
  - by rewrite decide_False.
  - destruct (decide (k0 = k)) as [->|Hne0]; simpl.
    + by rewrite !decide_False.
    + destruct (decide (k0 = k')); [done | apply IH].
Qed.

Lemma keys_set_old m k v :
  k ∈ JsMap.keys m → JsMap.keys (JsMap.set m k v) = JsMap.keys m.
Proof.
  unfold JsMap.keys. induction m as [|[k0 v0] m IH]; intros Hin.
  - by apply elem_of_nil in Hin.
  - cbn [JsMap.set]. destruct (decide (k0 = k)) as [->|Hne]; [done |].
    rewrite fmap_cons in Hin. apply elem_of_cons in Hin as [?|Hin]; [simplify_eq/= |].
    rewrite !fmap_cons. f_equal. by apply IH.
Qed.

Lemma keys_set_new m k v :
  k ∉ JsMap.keys m → JsMap.keys (JsMap.set m k v) = JsMap.keys m ++ [k].
Proof.
  unfold JsMap.keys. induction m as [|[k0 v0] m IH]; intros Hnin; [done |].
  rewrite fmap_cons in Hnin. apply not_elem_of_cons in Hnin as [Hne Hnin].
  cbn [JsMap.set]. destruct (decide (k0 = k)) as [?|_]; [simplify_eq/= |].
  rewrite !fmap_cons. cbn [app]. f_equal. by apply IH.
Qed.

Lemma wf_set m k v : JsMap.wf m → JsMap.wf (JsMap.set m k v).
Proof.
  unfold JsMap.wf. intros Hm.
  destruct (decide (k ∈ JsMap.keys m)) as [Hin|Hnin].
  - by rewrite keys_set_old.
  - rewrite keys_set_new by done.
    apply NoDup_app. split; [done |]. split; [| apply NoDup_singleton].
    intros x Hx ->%list_elem_of_singleton. done.
Qed.

Lemma get_None_keys m k : JsMap.get m k = None ↔ k ∉ JsMap.keys m.
Proof.
  unfold JsMap.keys. induction m as [|[k0 v0] m IH]; simpl.
  - split; [intros _ ?%elem_of_nil; done | done].
  - destruct (decide (k0 = k)) as [->|Hne].
    + split; [done | intros []; by left].
    + rewrite IH, not_elem_of_cons. simpl.
      split; [intros ?; split; [congruence | done] | by intros [_ ?]].
Qed.

End JsMapFacts.

Lemma or_zero_Some (n : Z) : or_zero (Some n) = n.
Proof. unfold or_zero. destruct (Z.eqb_spec n 0); congruence. Qed.

(** ** Snapshot engine *)

Lemma snapshot_loop_fold inventory n i result :
  snapshot_loop inventory n i result
  = fold_left add_slot (take n (drop i (slots inventory))) result.
Proof.
  revert i result. induction n as [|n IH]; intros i result; [done |].
  cbn [snapshot_loop]. rewrite IH. unfold getItem.
  destruct (slots inventory !! i) as [slot|] eqn:Hi.
  - rewrite (drop_S _ _ _ Hi). by destruct slot.
  - apply lookup_ge_None in Hi.
    rewrite !drop_ge by lia. by rewrite !take_nil.
Qed.

Lemma snapshotInventory_fold inventory :
  snapshotInventory inventory = fold_left add_slot (slots inventory) JsMap.empty.
Proof.
  unfold snapshotInventory, size. rewrite snapshot_loop_fold, drop_0.
  by rewrite firstn_all.
Qed.

Lemma get_add_slot result slot type :
  JsMap.get (add_slot result slot) type =
  match slot with
  | Some item =>
      if decide (typeId item = type)
      then Some (or_zero (JsMap.get result type) + amount item)
      else JsMap.get result type
  | None => JsMap.get result type
  end.
Proof.
  destruct slot as [item|]; [| done]. unfold add_slot.
  destruct (decide (typeId item = type)) as [<-|Hne].
  - apply get_set_eq.
  - by apply get_set_ne.
Qed.

Lemma types_in_cons slot l :
  types_in (slot :: l) =
  match slot with Some item => typeId item :: types_in l | None => types_in l end.
Proof. by destruct slot. Qed.

Lemma held_in_absent type l : type ∉ types_in l → held_in type l = 0.
Proof.
  induction l as [|[item|] l IH]; rewrite ?types_in_cons; cbn [held_in]; auto.
  intros [Hne Hnin]%not_elem_of_cons.
  rewrite decide_False by done. rewrite IH by done. lia.
Qed.

Lemma get_fold_add_slot l result type :
  JsMap.get (fold_left add_slot l result) type =
  if decide (type ∈ types_in l)
  then Some (or_zero (JsMap.get result type) + held_in type l)
  else JsMap.get result type.
Proof.
  revert result. induction l as [|slot l IH]; intros result.
  - rewrite decide_False; [done | by intros ?%elem_of_nil].
  - cbn [fold_left]. rewrite IH, get_add_slot, types_in_cons.
    destruct slot as [item|]; cbn [held_in]; [| done].
    destruct (decide (typeId item = type)) as [<-|Hne].
    + rewrite or_zero_Some. rewrite (decide_True (P := _ ∈ _ :: _)) by by left.
      case_decide as Hin; f_equal; [lia |].
      rewrite (held_in_absent _ _ Hin). lia.
    + case_decide as Hin.
      * rewrite decide_True by by right. f_equal; lia.
      * rewrite decide_False; [done |].
        intros [?|?]%elem_of_cons; congruence.
Qed.

Lemma wf_fold_add_slot l result :
  JsMap.wf result → JsMap.wf (fold_left add_slot l result).
Proof.
  revert result. induction l as [|slot l IH]; intros result Hwf; [done |].
  cbn [fold_left]. apply IH. destruct slot; [by apply wf_set | done].
Qed.

Lemma snapshotInventory_wf inventory : JsMap.wf (snapshotInventory inventory).
Proof.
  rewrite snapshotInventory_fold. apply wf_fold_add_slot, NoDup_nil_2.
Qed.

Lemma held_in_Permutation type l l' : l ≡ₚ l' → held_in type l = held_in type l'.
Proof.
  induction 1 as [|x l l' _ IH|x y l|l l' l'' _ IH1 _ IH2]; cbn [held_in].
  - done.
  - by rewrite IH.
  - destruct x, y; lia.
  - congruence.
Qed.

Lemma types_in_Permutation l l' : l ≡ₚ l' → types_in l ≡ₚ types_in l'.
Proof. intros Hp. unfold types_in. by rewrite Hp. Qed.

(** C4. The snapshot of a container gives every item type held in a
    non-empty slot the sum of that type's amounts over all slots, with one
    entry per type and no entry for other types; as a mapping it does not
    depend on the order of the slots; a container without items gives the
    empty snapshot. *)
Theorem snapshot_sums_amounts_by_type (inventory : Container) :
  (∀ type,
     JsMap.get (snapshotInventory inventory) type =
     if decide (type ∈ types_in (slots inventory))
     then Some (held type inventory) else None)
  ∧ JsMap.wf (snapshotInventory inventory)
  ∧ (∀ inventory' type,
       slots inventory ≡ₚ slots inventory' →
       JsMap.get (snapshotInventory inventory) type
       = JsMap.get (snapshotInventory inventory') type)
  ∧ ((∀ i, getItem inventory i = None) → snapshotInventory inventory = JsMap.empty).
Proof.
  assert (Hget : ∀ inv type,
     JsMap.get (snapshotInventory inv) type =
     if decide (type ∈ types_in (slots inv)) then Some (held type inv) else None).
  { intros inv type. rewrite snapshotInventory_fold, get_fold_add_slot.
    case_decide; [| done]. unfold held. f_equal. }
  split; [apply Hget |]. split; [apply snapshotInventory_wf |]. split.
  - intros inventory' type Hp. rewrite !Hget. unfold held.
    rewrite (held_in_Permutation _ _ _ Hp).
    apply types_in_Permutation in Hp.
    repeat case_decide; try done.
    + exfalso. by rewrite Hp in *.
    + exfalso. by rewrite <- Hp in *.
  - intros Hempty. rewrite snapshotInventory_fold.
    assert (Hall : Forall (fun slot => slot = None) (slots inventory)).
    { apply Forall_lookup. intros i slot Hi. specialize (Hempty i).
      unfold getItem in Hempty. by rewrite Hi in Hempty. }
    generalize (@JsMap.empty Z).
    induction Hall as [|slot l -> _ IH]; intros result; [done | apply IH].
Qed.

(** ** Diff engine *)

Lemma diff_cons player previous entry current :
  diff player previous (entry :: current) =
  match pickedUp previous entry with
  | Some n => mkGain entry.1 n player :: diff player previous current
  | None => diff player previous current
  end.
Proof. unfold diff. cbn [omap list_omap]. by destruct (pickedUp previous entry). Qed.

(** The loop over [current] fans out exactly the records of [diff], in
    their order. *)
Lemma entries_loop_delivers_diff p player previous entries s :
  entries_loop p player previous entries s
  = deliver p (diff player previous entries) s.
Proof.
  revert s. induction entries as [|entry rest IH]; intros s; [done |].
  rewrite diff_cons. cbn [entries_loop].
  destruct (pickedUp previous entry) as [n|]; [| apply IH].
  cbn [deliver]. unfold_M.
  destruct (fanout p _ s) as [[[]|msg] s1]; [apply IH | done].
Qed.

Lemma diff_typeId_in_keys player previous current r :
  r ∈ diff player previous current → gain_typeId r ∈ JsMap.keys current.
Proof.
  unfold JsMap.keys. induction current as [|entry current IH]; rewrite ?diff_cons.
  - by intros ?%elem_of_nil.
  - rewrite fmap_cons. destruct (pickedUp previous entry).
    + intros [->|Hin]%elem_of_cons; [by left | right; auto].
    + intros Hin. right; auto.
Qed.

Lemma filter_diff_absent player previous current type :
  type ∉ JsMap.keys current →
  filter (fun r => gain_typeId r = type) (diff player previous current) = [].
Proof.
  intros Hnin.
  destruct (filter _ _) as [|r rs] eqn:Hf; [done | exfalso].
  assert (Hr : r ∈ filter (fun r => gain_typeId r = type)
                 (diff player previous current)) by (rewrite Hf; by left).
  apply list_elem_of_filter in Hr as [<- Hr].
  by apply diff_typeId_in_keys in Hr.
Qed.

Lemma filter_diff player previous current type :
  JsMap.wf current →
  filter (fun r => gain_typeId r = type) (diff player previous current) =
  match JsMap.get current type with
  | Some n =>
      if or_zero (JsMap.get previous type) <? n
      then [mkGain type (n - or_zero (JsMap.get previous type)) player]
      else []
  | None => []
  end.
Proof.
  unfold JsMap.wf, JsMap.keys.
  induction current as [|[k n] current IH]; [done |].
  rewrite fmap_cons. intros [Hnin Hwf]%NoDup_cons.
  rewrite diff_cons. cbn [JsMap.get]. unfold pickedUp. cbn [fst snd] in *.
  destruct (decide (k = type)) as [->|Hne].
  - rewrite (Z.leb_antisym _ n).
    destruct (or_zero (JsMap.get previous type) <? n); cbn [negb].
    + rewrite filter_cons_True by done.
      by rewrite (filter_diff_absent _ _ _ _ Hnin).
    + by apply filter_diff_absent.
  - destruct (n <=? _).
    + by apply IH.
    + rewrite filter_cons_False by done. by apply IH.
Qed.

(** C3. What the loop of the poll over the entries of a player's
    current snapshot does is to fan out a list of records, one after the
    other, and this list, the diff of the cached snapshot (an empty one
    when the player is not in the cache) and the current snapshot, holds
    for every item type exactly one record, of amount current minus
    previous, when the current count strictly exceeds the previous count
    (counted as 0 when the type, or the whole previous snapshot, is
    absent), and no record otherwise: not for a count that stayed equal,
    decreased, or disappeared from the current snapshot. (A fan-out
    calls the listeners that are due when it runs.) *)
Theorem poll_emits_exactly_the_increases
  (cache : gmap string Snapshot) (player : string) (current : Snapshot)
  (Hwf : JsMap.wf current) :
  let previous_count type :=
    match cache !! player with
    | Some previous => default 0 (JsMap.get previous type)
    | None => 0
    end in
  let emitted := diff player (previous_of cache player) current in
  (∀ p s, entries_loop p player (previous_of cache player) current s
          = deliver p emitted s)
  ∧ ∀ type,
      filter (fun r => gain_typeId r = type) emitted
      = match JsMap.get current type with
        | Some n =>
            if previous_count type <? n
            then [mkGain type (n - previous_count type) player]
            else []
        | None => []
        end.
Proof.
  intros previous_count emitted.
  split; [intros p s; apply entries_loop_delivers_diff |].
  intros type. unfold emitted. rewrite filter_diff by done.
  assert (or_zero (JsMap.get (previous_of cache player) type) = previous_count type)
    as ->; [| done].
  unfold previous_of, previous_count.
  destruct (cache !! player) as [previous|]; simpl; [| done].
  destruct (JsMap.get previous type) eqn:Hg; [apply or_zero_Some | done].
Qed.

Lemma poll_emits_exactly_the_increases_witness :
  let cache : gmap string Snapshot := {["steve" := [("A", 5); ("C", 2)]]} in
  let current := [("A", 8); ("B", 1); ("C", 2)] in
  JsMap.wf current
  ∧ entries_loop 0 "steve" (previous_of cache "steve") current initial
    = deliver 0 [mkGain "A" 3 "steve"; mkGain "B" 1 "steve"] initial
  ∧ filter (fun r => gain_typeId r = "A")
      (diff "steve" (previous_of cache "steve") current)
    = [mkGain "A" 3 "steve"].
Proof.
  intros cache current.
  assert (Hwf : JsMap.wf current).
  { unfold JsMap.wf. compute_done. }
  destruct (poll_emits_exactly_the_increases cache "steve" current Hwf)
    as [Hloop Hdiff].
  split; [exact Hwf |]. split.
  - etrans; [exact (Hloop 0%nat initial) | by vm_compute].
  - etrans; [exact (Hdiff "A") | by vm_compute].
Defined.

(** ** Inventory removal action *)

Lemma remove_described_done type remaining l :
  remaining ≤ 0 → remove_described type remaining l = l.
Proof.
  intros Hle. destruct l as [|slot l]; [done |]. cbn [remove_described].
  by rewrite (proj2 (Z.leb_le _ _) Hle).
Qed.

(** The loop started at slot [i] rewrites the slots from [i] on as the
    description says and leaves the slots before [i] alone, as long as the
    host accepts the writes. *)
Lemma remove_loop_described type n i remaining inventory :
  (∀ j, write_fault inventory j = None) →
  n = length (drop i (slots inventory)) →
  remove_loop type n i remaining inventory
  = (Normal tt,
     mkContainer
       (take i (slots inventory)
        ++ remove_described type remaining (drop i (slots inventory)))
       (write_fault inventory)).
Proof.
  revert i remaining inventory.
  induction n as [|n IH]; intros i remaining [sl wf] Hhost Hn; cbn [slots write_fault] in *.
  - symmetry in Hn. apply nil_length_inv in Hn. rewrite Hn. cbn.
    unfold_M. rewrite <- Hn at 1. by rewrite take_drop.
  - destruct (drop i sl) as [|slot rest] eqn:Hdrop; [done |].
    assert (Hi : sl !! i = Some slot).
    { rewrite <- (take_drop i sl) at 1. rewrite Hdrop.
      rewrite lookup_app_r by (rewrite length_take; lia).
      assert (i < length sl)%nat.
      { destruct (decide (i < length sl)%nat); [done |].
        rewrite drop_ge in Hdrop by lia. done. }
      rewrite length_take, Nat.min_l by lia. by rewrite Nat.sub_diag. }
    assert (Hrest : rest = drop (S i) sl).
    { rewrite (drop_S _ _ _ Hi) in Hdrop. congruence. }
    assert (Hlen : (i < length sl)%nat) by (by apply lookup_lt_Some in Hi).
    assert (Hstep : ∀ v, take (S i) (<[i:=v]> sl) = take i sl ++ [v]).
    { intros v. rewrite (take_S_r _ _ v); [by rewrite take_insert_ge by lia |].
      by apply list_lookup_insert_eq. }
    cbn [remove_loop remove_described]. rewrite (Z.leb_antisym 0 remaining).
    destruct (0 <? remaining) eqn:Hpos; cbn [negb].
    + unfold_M. unfold getItem. cbn [slots]. rewrite Hi. cbn [mjoin option_join].
      destruct slot as [item|].
      * destruct (decide (typeId item = type)) as [Heq|Hne].
        -- destruct (amount item <=? remaining).
           ++ unfold setItem at 1. cbn [write_fault slots]. rewrite Hhost.
              rewrite IH; cbn [slots write_fault]; [| done |].
              ** rewrite Hstep, drop_insert_lt by lia.
                 rewrite <- Hrest. by rewrite <- app_assoc.
              ** rewrite drop_insert_lt by lia. rewrite <- Hrest.
                 cbn in Hn. lia.
           ++ unfold setItem at 1. cbn [write_fault slots]. rewrite Hhost.
              rewrite IH; cbn [slots write_fault]; [| done |].
              ** rewrite Hstep, drop_insert_lt by lia.
                 rewrite <- Hrest, remove_described_done by lia.
                 by rewrite <- app_assoc.
              ** rewrite drop_insert_lt by lia. rewrite <- Hrest.
                 cbn in Hn. lia.
        -- rewrite IH; cbn [slots write_fault]; [| done |].
           ++ rewrite (take_S_r _ _ _ Hi), <- Hrest. by rewrite <- app_assoc.
           ++ rewrite <- Hrest. cbn in Hn. lia.
      * rewrite IH; cbn [slots write_fault]; [| done |].
        -- rewrite (take_S_r _ _ _ Hi), <- Hrest. by rewrite <- app_assoc.
        -- rewrite <- Hrest. cbn in Hn. lia.
    + unfold_M. rewrite <- Hdrop. by rewrite take_drop.
Qed.

Lemma removeItemsFromInventory_described type amountToRemove inventory :
  (∀ j, write_fault inventory j = None) →
  removeItemsFromInventory type amountToRemove inventory
  = (Normal tt,
     mkContainer (remove_described type amountToRemove (slots inventory))
                 (write_fault inventory)).
Proof.
  intros Hhost. unfold removeItemsFromInventory. unfold_M.
  rewrite remove_loop_described; [| done | by rewrite drop_0].
  by rewrite take_0, drop_0.
Qed.

Lemma held_in_nonneg type l :
  Forall (fun slot => ∀ item, slot = Some item → 0 ≤ amount item) l →
  0 ≤ held_in type l.
Proof.
  induction 1 as [|[item|] l Hitem _ IH]; cbn [held_in]; [lia | | done].
  specialize (Hitem item eq_refl). case_decide; lia.
Qed.

Lemma held_in_remove_described type remaining l :
  Forall (fun slot => ∀ item, slot = Some item → 0 ≤ amount item) l →
  0 ≤ remaining →
  held_in type (remove_described type remaining l)
  = held_in type l - Z.min remaining (held_in type l).
Proof.
  intros Hl. revert remaining.
  induction Hl as [|slot l Hitem Hl IH]; intros remaining Hpos;
    cbn [remove_described held_in]; [lia |].
  pose proof (held_in_nonneg type l Hl) as Hnn.
  destruct slot as [item|].
  - specialize (Hitem item eq_refl).
    destruct (Z.leb_spec remaining 0).
    { cbn [held_in]. case_decide; lia. }
    destruct (decide (typeId item = type)) as [Heq|Hne].
    + destruct (Z.leb_spec (amount item) remaining); cbn [held_in typeId amount].
      * rewrite IH by lia. lia.
      * rewrite decide_True by done. lia.
    + cbn [held_in]. rewrite decide_False by done. rewrite IH by lia. lia.
  - destruct (Z.leb_spec remaining 0); cbn [held_in]; [lia | by apply IH].
Qed.

Lemma held_in_remove_described_other type other remaining l :
  other ≠ type →
  held_in other (remove_described type remaining l) = held_in other l.
Proof.
  intros Hne. revert remaining.
  induction l as [|slot l IH]; intros remaining; cbn [remove_described]; [done |].
  destruct (remaining <=? 0); [done |].
  destruct slot as [item|]; [| cbn [held_in]; by apply IH].
  destruct (decide (typeId item = type)) as [Heq|Hne'].
  - destruct (amount item <=? remaining); cbn [held_in typeId amount].
    + rewrite IH. rewrite decide_False by congruence. lia.
    + by rewrite !decide_False by congruence.
  - cbn [held_in]. by rewrite IH.
Qed.

(** C5. When the host accepts the writes, [remove] returns normally and
    leaves the slots as the slot-by-slot rule of the description leaves
    them (ascending order, a matching stack cleared when it fits in what
    is left to remove, the first one that does not fit decremented, nothing
    touched once nothing is left to remove). With non-negative amounts the
    total removed is the smaller of the amount asked for and the amount
    held, so asking for more than is held removes what is held and is no
    error; other item types keep their totals. *)
Theorem remove_takes_min_of_requested_and_held
  (type : string) (amountToRemove : Z) (inventory : Container)
  (Hhost : ∀ i, write_fault inventory i = None)
  (Hamounts : ∀ i item, getItem inventory i = Some item → 0 ≤ amount item)
  (Hrequest : 0 ≤ amountToRemove) :
  let result := removeItemsFromInventory type amountToRemove inventory in
  result.1 = Normal tt
  ∧ slots result.2 = remove_described type amountToRemove (slots inventory)
  ∧ held type inventory - held type result.2
    = Z.min amountToRemove (held type inventory)
  ∧ (∀ other, other ≠ type → held other result.2 = held other inventory).
Proof.
  intros result. unfold result.
  rewrite removeItemsFromInventory_described by done. cbn [fst snd slots].
  split; [done |]. split; [done |]. unfold held. cbn [slots]. split.
  - rewrite held_in_remove_described; [lia | | done].
    apply Forall_lookup. intros i slot Hi item ->.
    apply (Hamounts i). unfold getItem. by rewrite Hi.
  - intros other Hne. by apply held_in_remove_described_other.
Qed.

(** ** Properties kept by every step of the module *)

Section Preservation.
Variable P : State → Prop.

Lemma preserves_ret {A : Type} (a : A) : preserves P (ret a).
Proof. by intros s Hs. Qed.

Lemma preserves_throw {A : Type} msg : preserves P (@throw State A msg).
Proof. by intros s Hs. Qed.

Lemma preserves_gets {A : Type} (f : State → A) : preserves P (gets f).
Proof. by intros s Hs. Qed.

Lemma preserves_modify (f : State → State) :
  (∀ s, P s → P (f s)) → preserves P (modify f).
Proof. intros Hf s Hs. by apply Hf. Qed.

Lemma preserves_bind {A B : Type} (m : M State A) (k : A → M State B) :
  preserves P m → (∀ a, preserves P (k a)) → preserves P (m ≫= k).
Proof.
  intros Hm Hk s Hs. unfold_M. specialize (Hm s Hs).
  destruct (m s) as [[a|msg] s1]; [by apply Hk | done].
Qed.

Lemma preserves_try_catch {A : Type} (m : M State A) handler :
  preserves P m → (∀ msg, preserves P (handler msg)) → preserves P (try_catch m handler).
Proof.
  intros Hm Hh s Hs. unfold try_catch. specialize (Hm s Hs).
  destruct (m s) as [[a|msg] s1]; [done | by apply Hh].
Qed.

Hypothesis P_console : ∀ f s, P s → P (set_console f s).
Hypothesis P_players : ∀ f s, P s → P (set_players f s).

Lemma preserves_actions_remove p type n : preserves P (actions_remove p type n).
Proof.
  apply preserves_try_catch.
  - intros s Hs. unfold on_inventory.
    destruct (inventory_at (players s) p); [by apply P_players | done].
  - intros msg. by apply preserves_modify, P_console.
Qed.

(** A property that [listen] keeps, whatever it is called with, and that
    no write to a listener entry breaks, is kept by every callback. *)
Lemma preserves_run_ops k p data ops :
  (∀ k f s, P s → P (write_entry k f s)) →
  (∀ cb t, preserves P (listen cb t)) →
  preserves P (run_ops k p data ops).
Proof.
  intros P_entry P_listen.
  induction ops as [|op ops IH]; [apply preserves_ret |].
  apply preserves_bind; [| done].
  destruct op;
    [apply preserves_actions_remove | apply preserves_throw | apply P_listen | ..];
    by apply preserves_modify, P_entry.
Qed.

Hypothesis P_advance : ∀ s, P s → P (advance_counters s).
Hypothesis P_reset : ∀ k s, P s → P (reset_counter k s).
Hypothesis P_calls : ∀ f s, P s → P (set_calls f s).
Hypothesis P_cache : ∀ f s, P s → P (set_playerCache f s).

(** The callbacks that the registry holds keep the property ... *)
Hypothesis P_callback : ∀ k p data l s,
  P s → listeners s !! k = Some l → P (run_ops k p data (callback l) s).2.

(** ... and so do the registrations in question. *)
Variable event_ok : Event → Prop.
Hypothesis P_listen : ∀ cb t s,
  event_ok (CallListen cb t) → P s → P (listen cb t s).2.

Lemma preserves_fanout_loop n k p data : preserves P (fanout_loop n k p data).
Proof.
  revert k. induction n as [|n IH]; intros k s Hs; [done |].
  cbn [fanout_loop]. unfold_M. cbn.
  destruct (listeners s !! k) as [l|] eqn:Hk; [| by apply IH].
  destruct (due l); [| by apply IH].
  unfold invoke. unfold_M. cbn.
  set (s0 := set_calls _ s).
  pose proof (P_callback k p data l s0 (P_calls _ _ Hs) Hk) as H1.
  destruct (run_ops k p data (callback l) s0) as [[[]|msg] s1];
    cbn [fst snd] in *; [| done].
  by apply IH, P_reset.
Qed.

Lemma preserves_fanout p data : preserves P (fanout p data).
Proof.
  apply preserves_bind; [apply preserves_gets |]. intros ls.
  apply preserves_fanout_loop.
Qed.

Lemma preserves_entries_loop p player previous entries :
  preserves P (entries_loop p player previous entries).
Proof.
  induction entries as [|entry rest IH]; [apply preserves_ret |].
  cbn [entries_loop]. destruct (pickedUp previous entry); [| done].
  apply preserves_bind; [apply preserves_fanout | done].
Qed.

Lemma preserves_players_loop n p : preserves P (players_loop n p).
Proof.
  revert p. induction n as [|n IH]; intros p; [apply preserves_ret |].
  apply preserves_bind; [apply preserves_gets |]. intros ps.
  destruct (ps !! p) as [player|]; [| apply preserves_ret].
  destruct (inventory player) as [inv|]; [| apply IH].
  apply preserves_bind; [apply preserves_gets |]. intros cache.
  apply preserves_bind; [apply preserves_entries_loop |]. intros _.
  apply preserves_bind; [by apply preserves_modify, P_cache |]. intros _. apply IH.
Qed.

Lemma preserves_poll_cycle : preserves P poll_cycle.
Proof.
  apply preserves_bind; [by apply preserves_modify, P_advance |]. intros _.
  apply preserves_bind; [apply preserves_gets |]. intros ps.
  apply preserves_players_loop.
Qed.

Lemma kept_by_step s e : event_ok e → P s → P (step s e).
Proof.
  intros He Hs. destruct e as [cb t| |ps]; cbn [step].
  - by apply P_listen.
  - destruct (live (host_calls s)); [done | by apply preserves_poll_cycle].
  - by apply P_players.
Qed.



End Preservation.

(** Properties that every callback keeps. *)
Section PreservationAnyCallback.
Variable P : State → Prop.
Hypothesis P_advance : ∀ s, P s → P (advance_counters s).
Hypothesis P_entry : ∀ k f s, P s → P (write_entry k f s).
Hypothesis P_calls : ∀ f s, P s → P (set_calls f s).
Hypothesis P_console : ∀ f s, P s → P (set_console f s).
Hypothesis P_players : ∀ f s, P s → P (set_players f s).
Hypothesis P_cache : ∀ f s, P s → P (set_playerCache f s).
Hypothesis P_listen : ∀ cb t, preserves P (listen cb t).

Lemma preserves_step s e : P s → P (step s e).
Proof.
  apply (kept_by_step P) with (event_ok := fun _ => True); try done.
  - intros k s0. apply P_entry.
  - intros k p data l s0 Hs0 _. by apply preserves_run_ops.
  - intros cb t s0 _. apply P_listen.
Qed.

Lemma preserved_by_run events : P initial → P (run events).
Proof.
  unfold run. generalize initial.
  induction events as [|e events IH]; intros s Hs; [done |].
  cbn [fold_left]. by apply IH, preserves_step.
Qed.

End PreservationAnyCallback.

(** ** The scheduler *)

Lemma minTick_of_ticks ls ls' :
  tick <$> ls = tick <$> ls' → minTick_of ls = minTick_of ls'.
Proof.
  unfold minTick_of. generalize DEFAULT_TICK. revert ls'.
  induction ls as [|l ls IH]; intros [|l' ls'] acc Heq; try done.
  rewrite !fmap_cons in Heq. injection Heq as Hl Hls.
  cbn [fold_left]. rewrite Hl. by apply IH.
Qed.

Lemma minTick_of_least ls : least_period (minTick_of ls) ls.
Proof.
  unfold minTick_of, least_period.
  cut (∀ acc,
    let m := fold_left (fun min l => Z.min (tick l) min) ls acc in
    m ≤ acc ∧ Forall (fun l => m ≤ tick l) ls
    ∧ (m = acc ∨ Exists (fun l => tick l = m) ls)).
  { intros H. apply H. }
  induction ls as [|l ls IH]; intros acc; cbn [fold_left].
  - split; [lia |]. split; [constructor | by left].
  - destruct (IH (Z.min (tick l) acc)) as (Hle & Hall & Hex).
    split; [lia |]. split; [constructor; [lia | done] |].
    destruct Hex as [Heq|Hex]; [| right; by right].
    destruct (Z.min_spec (tick l) acc) as [[? Hm]|[? Hm]].
    + right. left. lia.
    + left. lia.
Qed.

Lemma live_snoc log c : live (log ++ [c]) = host_step (live log) c.
Proof. unfold live. by rewrite fold_left_app. Qed.

Lemma prefix_snoc_cases {A : Type} (pre l : list A) x :
  pre `prefix_of` l ++ [x] → pre `prefix_of` l ∨ pre = l ++ [x].
Proof.
  intros [k Hk]. destruct k as [|y k _] using rev_ind.
  - right. by rewrite app_nil_r in Hk.
  - left. rewrite app_assoc in Hk. apply app_inj_tail in Hk as [-> _].
    by apply prefix_app_r.
Qed.

Lemma never_two_live_snoc log c :
  never_two_live log → (length (host_step (live log) c) ≤ 1)%nat →
  never_two_live (log ++ [c]).
Proof.
  intros Hlog Hc pre [Hpre| ->]%prefix_snoc_cases; [by apply Hlog |].
  by rewrite live_snoc.
Qed.

Lemma created_when_idle_snoc log c :
  created_when_idle log →
  (∀ h period, c = RunInterval h period → live log = []) →
  created_when_idle (log ++ [c]).
Proof.
  intros Hlog Hc pre h period [Hpre|Heq]%prefix_snoc_cases; [by eapply Hlog |].
  apply app_inj_tail in Heq as [-> <-]. by eapply Hc.
Qed.

Lemma fmap_alter_unchanged {A B : Type} (f : A → B) (g : A → A) (l : list A) k :
  (∀ x, f (g x) = f x) → f <$> alter g k l = f <$> l.
Proof.
  intros Hfg. revert k. induction l as [|x l IH]; intros [|k]; cbn; try done.
  - by rewrite Hfg.
  - f_equal. apply IH.
Qed.

Lemma scheduler_inv_listen cb t : preserves scheduler_inv (listen cb t).
Proof.
  intros s Hs. unfold listen.
  destruct cb as [cb|]; [| done].
  destruct (tick_or_default t) as [|z|]; try done.
  destruct (Z.ltb_spec z 1) as [|Hz]; [done |].
  destruct Hs as (Hlive & Hone & Hidle).
  unfold adjustSystemInterval, startSystemInterval, system_clearRun,
    system_runInterval.
  unfold_M. cbn.
  destruct (decide (minTick_of _ ≠ _)) as [Hne|Heq]; cbn;
    destruct (systemIntervalId s) as [h|] eqn:Hid; cbn;
    unfold scheduler_inv; cbn; rewrite ?Hid; cbn.
  - (* restart: cancel the live task, then create the new one *)
    rewrite !live_snoc, Hlive. cbn.
    rewrite decide_False by (by intros ?).
    split; [done |]. split.
    + apply never_two_live_snoc; [apply never_two_live_snoc |]; try done.
      * rewrite Hlive. cbn. rewrite decide_False by (by intros ?). cbn. lia.
      * rewrite live_snoc, Hlive. cbn. rewrite decide_False by (by intros ?). cbn. lia.
    + apply created_when_idle_snoc; [apply created_when_idle_snoc |]; try done.
      intros _ _ _. rewrite live_snoc, Hlive. cbn.
      by rewrite decide_False by (by intros ?).
  - (* first registration with a new period *)
    rewrite live_snoc, Hlive. cbn.
    split; [done |]. split.
    + apply never_two_live_snoc; [done |]. rewrite Hlive. cbn. lia.
    + apply created_when_idle_snoc; [done |]. by intros _ _ _.
  - (* running at the right period already *)
    done.
  - rewrite live_snoc, Hlive. cbn.
    split; [done |]. split.
    + apply never_two_live_snoc; [done |]. rewrite Hlive. cbn. lia.
    + apply created_when_idle_snoc; [done |]. by intros _ _ _.
Qed.

Lemma scheduler_inv_initial : scheduler_inv initial.
Proof.
  unfold scheduler_inv. cbn.
  split; [done |]. split.
  - intros pre Hpre. apply prefix_nil_inv in Hpre as ->. unfold live. cbn. lia.
  - intros pre h period [k Hk]. by destruct pre.
Qed.

Lemma scheduler_inv_run events : scheduler_inv (run events).
Proof.
  apply preserved_by_run; try done.
  - apply scheduler_inv_listen.
  - apply scheduler_inv_initial.
Qed.

Lemma foldr_min_acc (ls : list Listener) a b :
  foldr (fun l acc => Z.min (tick l) acc) (Z.min a b) ls
  = Z.min a (foldr (fun l acc => Z.min (tick l) acc) b ls).
Proof. induction ls as [|l ls IH]; cbn [foldr]; [done | rewrite IH; lia]. Qed.

Lemma fold_left_min_foldr (ls : list Listener) acc :
  fold_left (fun min l => Z.min (tick l) min) ls acc
  = foldr (fun l a => Z.min (tick l) a) acc ls.
Proof.
  revert acc. induction ls as [|l ls IH]; intros acc; cbn [fold_left foldr]; [done |].
  by rewrite IH, foldr_min_acc.
Qed.

(** C2, where the code misses it. A listener registered alone with a
    period above the default is polled at the default period 10: the
    minimum that [adjustSystemInterval] takes starts from the default,
    not from the registered periods, so the poll period is [min(10, z)]
    where the comment of [adjustSystemInterval] promises the minimum
    tick value of all listeners, here [z]. *)
Theorem lone_slow_listener_is_polled_at_the_default
  (cb : Callback) (z : Z) (Hz : DEFAULT_TICK < z) :
  let s := run [CallListen (Some cb) (TickInteger z)] in
  listeners s = [mkListener cb z 0]
  ∧ min_period_or_default (listeners s) = z
  ∧ systemIntervalTick s = DEFAULT_TICK
  ∧ host_calls s = [RunInterval 0 DEFAULT_TICK].
Proof.
  unfold DEFAULT_TICK in Hz. unfold run. cbn [fold_left step].
  unfold listen. cbn [tick_or_default].
  rewrite (proj2 (Z.ltb_ge z 1)) by lia.
  unfold adjustSystemInterval, startSystemInterval, system_clearRun,
    system_runInterval.
  unfold_M. cbn.
  change (minTick_of [mkListener cb z 0]) with (Z.min z DEFAULT_TICK).
  unfold DEFAULT_TICK. rewrite Z.min_r by lia.
  rewrite decide_False by (intros Hne; by apply Hne). done.
Qed.

Lemma lone_slow_listener_is_polled_at_the_default_witness :
  let s := run [CallListen (Some []) (TickInteger 20)] in
  min_period_or_default (listeners s) = 20 ∧ systemIntervalTick s = 10.
Proof.
  destruct (lone_slow_listener_is_polled_at_the_default [] 20 ltac:(done))
    as (_ & Hmin & Hperiod & _).
  by split.
Defined.

(** C6. Over any sequence of registrations, timer firings and world
    changes, at no point of the scheduler calls made so far are two
    recurring polls live, not even between the calls of a restart: every
    recurring poll is created when none is live, so a restart has
    cancelled the old one first; and the one that is live is the one the
    module holds the handle of. *)
Theorem at_most_one_recurring_poll (events : list Event) :
  let s := run events in
  never_two_live (host_calls s)
  ∧ created_when_idle (host_calls s)
  ∧ live (host_calls s) = handle_list (systemIntervalId s).
Proof.
  intros s. by destruct (scheduler_inv_run events) as (? & ? & ?).
Qed.

(** A restart: the second registration asks for a shorter period. *)
Example restart_cancels_then_creates :
  let s := run [CallListen (Some []) (TickInteger 20);
                CallListen (Some []) (TickInteger 5)] in
  host_calls s = [RunInterval 0 10; ClearRun 0; RunInterval 1 5]
  ∧ live (host_calls s) = [1%nat]
  ∧ systemIntervalTick s = 5.
Proof. by vm_compute. Qed.

(** ** What a callback can do to the registry *)

Lemma grows_refl s : grows s s.
Proof.
  split; [done |]. split; [done |]. exists []. by rewrite app_nil_r.
Qed.

Lemma grows_trans s1 s2 s3 : grows s1 s2 → grows s2 s3 → grows s1 s3.
Proof.
  intros (Hc1 & Hp1 & e1 & Hl1 & He1) (Hc2 & Hp2 & e2 & Hl2 & He2).
  split; [congruence |]. split; [congruence |]. exists (e1 ++ e2).
  split; [by rewrite Hl2, Hl1, app_assoc | by apply Forall_app].
Qed.

Lemma listen_grows cb t s : grows s (listen cb t s).2.
Proof.
  unfold listen. destruct cb as [cb|]; [| apply grows_refl].
  destruct (tick_or_default t) as [|z|]; try apply grows_refl.
  destruct (Z.ltb_spec z 1) as [|Hz]; [apply grows_refl |].
  unfold adjustSystemInterval, startSystemInterval, system_clearRun,
    system_runInterval.
  unfold_M. cbn.
  assert (Hnew : Forall (fun l => counter l = 0 ∧ 1 ≤ tick l) [mkListener cb z 0])
    by by repeat constructor.
  destruct (decide (minTick_of _ ≠ _)); cbn;
    destruct (systemIntervalId s) eqn:Hid; cbn; rewrite ?Hid; cbn.
  all: split; [done |]; split; [done |]; by eexists.
Qed.

Lemma listen_returns cb t s :
  op_returns (OpListen cb t) → (listen cb t s).1 = Normal tt.
Proof.
  intros [Hcb (z & Ht & Hz)]. unfold listen.
  destruct cb as [cb|]; [| done]. rewrite Ht.
  destruct (Z.ltb_spec z 1) as [|_]; [lia |].
  unfold adjustSystemInterval, startSystemInterval, system_clearRun,
    system_runInterval.
  unfold_M. cbn.
  destruct (decide (minTick_of _ ≠ _)); cbn;
    destruct (systemIntervalId s) eqn:Hid; cbn; rewrite ?Hid; done.
Qed.

Lemma actions_remove_grows p type n s : grows s (actions_remove p type n s).2.
Proof.
  unfold actions_remove, try_catch, on_inventory, console_error. unfold_M.
  destruct (inventory_at (players s) p) as [inv|]; [| apply grows_refl].
  destruct (removeItemsFromInventory type n inv) as [[[]|msg] inv']; cbn;
    (split; [done |]; split; [done |]; exists []; by rewrite app_nil_r).
Qed.

Lemma actions_remove_returns p type n s : (actions_remove p type n s).1 = Normal tt.
Proof.
  unfold actions_remove, try_catch, on_inventory, console_error. unfold_M.
  destruct (inventory_at (players s) p) as [inv|]; [| done].
  by destruct (removeItemsFromInventory type n inv) as [[[]|msg] inv'].
Qed.

(** A callback that does not write its entry only registers. *)
Lemma run_ops_grows k p data ops s :
  keeps_entry ops → grows s (run_ops k p data ops s).2.
Proof.
  intros Hops. revert s.
  induction Hops as [|op ops Hop _ IH]; intros s; [apply grows_refl |].
  cbn [run_ops]. unfold_M.
  assert (Hg : grows s (run_op k p data op s).2).
  { destruct op; try done;
      [apply actions_remove_grows | apply grows_refl | apply listen_grows]. }
  destruct (run_op k p data op s) as [[[]|msg] s1]; [| done].
  eapply grows_trans; [exact Hg | apply IH].
Qed.

Lemma grows_around_refl k s : grows_around k s s.
Proof. by repeat split. Qed.

Lemma grows_around_trans k s1 s2 s3 :
  grows_around k s1 s2 → grows_around k s2 s3 → grows_around k s1 s3.
Proof.
  intros (Hc1 & Hp1 & Hn1 & Hl1) (Hc2 & Hp2 & Hn2 & Hl2).
  split; [congruence |]. split; [congruence |]. split; [lia |].
  intros j l Hj Hl. by apply Hl2, Hl1.
Qed.

Lemma grows_grows_around k s s' : grows s s' → grows_around k s s'.
Proof.
  intros (Hc & Hp & extra & Hl & _).
  split; [done |]. split; [done |]. split.
  - rewrite Hl, length_app. lia.
  - intros j l _ Hj. rewrite Hl. by apply lookup_app_l_Some.
Qed.

Lemma write_entry_grows_around k f s : grows_around k s (write_entry k f s).
Proof.
  split; [done |]. split; [done |]. cbn. split.
  - by rewrite length_alter.
  - intros j l Hj Hl. by rewrite list_lookup_alter_ne.
Qed.

(** Any callback leaves the entries of the other listeners as they are. *)
Lemma run_ops_grows_around k p data ops s :
  grows_around k s (run_ops k p data ops s).2.
Proof.
  revert s. induction ops as [|op ops IH]; intros s; [apply grows_around_refl |].
  cbn [run_ops]. unfold_M.
  assert (Hg : grows_around k s (run_op k p data op s).2).
  { destruct op;
      [apply grows_grows_around, actions_remove_grows | apply grows_around_refl
      | apply grows_grows_around, listen_grows | ..];
      apply write_entry_grows_around. }
  destruct (run_op k p data op s) as [[[]|msg] s1]; [| done].
  eapply grows_around_trans; [exact Hg | apply IH].
Qed.

Lemma run_ops_returns k p data ops s :
  Forall op_returns ops → (run_ops k p data ops s).1 = Normal tt.
Proof.
  intros Hops. revert s. induction Hops as [|op ops Hop _ IH]; intros s; [done |].
  cbn [run_ops]. unfold_M.
  assert (Hr : (run_op k p data op s).1 = Normal tt).
  { destruct op; try done; [apply actions_remove_returns | by apply listen_returns]. }
  destruct (run_op k p data op s) as [[[]|msg] s1]; [apply IH | done].
Qed.

(** ** At most one call per listener and cycle *)

Lemma times_called_snoc k k' data tr :
  times_called k (tr ++ [(k', data)])
  = (times_called k tr + if decide (k' = k) then 1 else 0)%nat.
Proof.
  unfold times_called. rewrite filter_app, length_app. f_equal.
  destruct (decide (k' = k)) as [->|Hne].
  - by rewrite filter_cons_True.
  - by rewrite filter_cons_False.
Qed.

Lemma periods_positive_alter k s :
  periods_positive s → periods_positive (reset_counter k s).
Proof.
  unfold periods_positive. cbn. intros H.
  apply (Forall_fmap tick (Z.le 1)).
  rewrite fmap_alter_unchanged by done. by apply Forall_fmap.
Qed.

Lemma periods_positive_grows s s' :
  grows s s' → periods_positive s → periods_positive s'.
Proof.
  intros (_ & _ & extra & Hl & Hextra) Hs. unfold periods_positive in *.
  rewrite Hl. apply Forall_app. split; [done |].
  eapply Forall_impl; [exact Hextra | by intros l [_ ?]].
Qed.

Lemma grows_lookup s s' k l :
  grows s s' → listeners s !! k = Some l → listeners s' !! k = Some l.
Proof.
  intros (_ & _ & extra & Hl & _) Hk. rewrite Hl. by apply lookup_app_l_Some.
Qed.

Lemma grows_lookup_inv s s' k l :
  grows s s' → listeners s' !! k = Some l →
  listeners s !! k = Some l ∨ counter l = 0.
Proof.
  intros (_ & _ & extra & Hl & Hextra) Hk. rewrite Hl in Hk.
  apply lookup_app_Some in Hk as [Hk|[_ Hk]]; [by left | right].
  by apply (proj1 (Forall_lookup _ _) Hextra _ _ Hk).
Qed.

Lemma not_due_fresh l : counter l = 0 → 1 ≤ tick l → due l = false.
Proof. intros Hzero Htick. unfold due. apply Z.leb_gt. lia. Qed.

(** After the call of a listener that keeps its entry, and the reset of
    its counter, the cycle is as steady as before. *)
Lemma steady_reset k s s1 :
  steady s → grows s s1 → steady (reset_counter k s1).
Proof.
  intros [Hpos Hkeep] Hg.
  assert (Hpos1 : periods_positive s1) by by eapply periods_positive_grows.
  split; [by apply periods_positive_alter |].
  destruct Hg as (_ & _ & extra & Hl & Hextra).
  apply Forall_lookup. intros j x Hj Hdue. cbn in Hj.
  destruct (decide (j = k)) as [->|Hne].
  - exfalso. rewrite list_lookup_alter_eq in Hj.
    destruct (listeners s1 !! k) as [y|] eqn:Hy; [| done]. injection Hj as <-.
    pose proof (proj1 (Forall_lookup _ _) Hpos1 _ _ Hy) as Htick.
    by rewrite not_due_fresh in Hdue.
  - rewrite list_lookup_alter_ne, Hl in Hj by done.
    apply lookup_app_Some in Hj as [Hj|[_ Hj]].
    + by apply (proj1 (Forall_lookup _ _) Hkeep _ _ Hj).
    + exfalso. destruct (proj1 (Forall_lookup _ _) Hextra _ _ Hj) as [Hzero Htick].
      by rewrite not_due_fresh in Hdue.
Qed.

Section AtMostOnce.
Variables (k c0 : nat) (v : Z).

Lemma once_pre_bounds s :
  once_pre k c0 v s → (c0 ≤ times_called k (calls s) ≤ S c0)%nat.
Proof. intros [_ [[-> _]|[-> _]]]; lia. Qed.

Lemma once_pre_counter s l :
  once_pre k c0 v s → listeners s !! k = Some l → counter l = v ∨ counter l = 0.
Proof.
  intros [_ [[_ Hv]|[_ (l' & Hl' & Hzero)]]] Hl; [by apply Hv |].
  right. congruence.
Qed.

Lemma invoke_once k' p data listener s :
  once_pre k c0 v s →
  listeners s !! k' = Some listener →
  due listener = true →
  let r := invoke k' p data (callback listener) s in
  match r.1 with
  | Normal _ => once_pre k c0 v (reset_counter k' r.2)
  | Throw _ =>
      periods_positive r.2
      ∧ (c0 ≤ times_called k (calls r.2) ≤ S c0)%nat
      ∧ ∀ l, listeners r.2 !! k = Some l → counter l = v ∨ counter l = 0
  end.
Proof.
  intros Hpre Hk' Hdue r. unfold r, invoke. unfold_M. cbn.
  destruct Hpre as [Hsteady Hcount].
  pose proof Hsteady as [Hpos Hkeep].
  set (s0 := set_calls _ s).
  assert (Hsteady0 : steady s0) by done.
  pose proof (run_ops_grows k' p data (callback listener) s0
                (proj1 (Forall_lookup _ _) Hkeep _ _ Hk' Hdue)) as Hg.
  assert (Hcalls : calls (run_ops k' p data (callback listener) s0).2
                   = calls s ++ [(k', data)]) by apply Hg.
  pose proof (steady_reset k' s0 _ Hsteady0 Hg) as Hsteady1.
  assert (Hlook : ∀ j l, listeners s !! j = Some l →
            listeners (run_ops k' p data (callback listener) s0).2 !! j = Some l).
  { intros j l Hj. eapply grows_lookup; [exact Hg | done]. }
  assert (Hback : ∀ l, listeners (run_ops k' p data (callback listener) s0).2 !! k
                       = Some l → counter l = v ∨ counter l = 0).
  { intros l Hl. destruct (grows_lookup_inv _ _ _ _ Hg Hl) as [Hold|Hnew]; [| by right].
    apply (once_pre_counter s); [by split | done]. }
  assert (Hcount1 :
    times_called k (calls (run_ops k' p data (callback listener) s0).2)
    = if decide (k' = k) then S c0 else times_called k (calls s)).
  { rewrite Hcalls, times_called_snoc. case_decide as Hkk; [| lia]. subst k'.
    destruct Hcount as [[-> _]|[_ (l & Hl & Hzero)]]; [lia | exfalso].
    assert (l = listener) as -> by congruence.
    unfold periods_positive in Hpos.
    pose proof (proj1 (Forall_lookup _ _) Hpos _ _ Hk') as Htick. cbn in Htick.
    unfold due in Hdue. apply Z.leb_le in Hdue. lia. }
  destruct (run_ops k' p data (callback listener) s0) as [[[]|msg] s1];
    cbn [fst snd] in *.
  - split; [done |]. cbn.
    destruct (decide (k' = k)) as [->|Hne].
    + right. split; [done |].
      exists (mkListener (callback listener) (tick listener) 0). split; [| done].
      by rewrite list_lookup_alter_eq, (Hlook _ _ Hk').
    + destruct Hcount as [[Hc Hv]|[Hc (l & Hl & Hzero)]].
      * left. split; [lia |]. intros l. rewrite list_lookup_alter_ne by done.
        apply Hback.
      * right. split; [lia |]. exists l. split; [| done].
        rewrite list_lookup_alter_ne by done. by apply Hlook.
  - split; [by eapply periods_positive_grows |].
    split; [| exact Hback]. rewrite Hcount1. case_decide; [lia |].
    destruct Hcount as [[-> _]|[-> _]]; lia.
Qed.

Lemma at_most_once_ret : at_most_once k c0 v (ret tt).
Proof. by intros s Hs. Qed.

Lemma at_most_once_bind_gets {A : Type} (f : State → A) (m : A → M State unit) :
  (∀ a, at_most_once k c0 v (m a)) → at_most_once k c0 v (gets f ≫= m).
Proof. intros Hm s Hs. by apply Hm. Qed.

Lemma at_most_once_bind (m1 m2 : M State unit) :
  at_most_once k c0 v m1 → at_most_once k c0 v m2 →
  at_most_once k c0 v (m1 ;; m2).
Proof.
  intros H1 H2 s Hs. specialize (H1 s Hs). unfold_M. unfold once_post in *.
  destruct (m1 s) as [[[]|msg] s1]; cbn [fst snd] in *; [by apply H2 | done].
Qed.

Lemma at_most_once_fanout_loop n k' p data :
  at_most_once k c0 v (fanout_loop n k' p data).
Proof.
  revert k'. induction n as [|n IH]; intros k'; [apply at_most_once_ret |].
  cbn [fanout_loop]. intros s Hs. unfold_M. cbn.
  destruct (listeners s !! k') as [listener|] eqn:Hk'; [| by apply IH].
  destruct (due listener) eqn:Hdue; [| by apply IH].
  pose proof (invoke_once k' p data listener s Hs Hk' Hdue) as Hinv.
  cbn zeta in Hinv.
  destruct (invoke k' p data (callback listener) s) as [[[]|msg] s1];
    cbn [fst snd] in *.
  - by apply IH.
  - done.
Qed.

Lemma at_most_once_entries_loop p player previous entries :
  at_most_once k c0 v (entries_loop p player previous entries).
Proof.
  induction entries as [|entry rest IH]; [apply at_most_once_ret |].
  cbn [entries_loop]. destruct (pickedUp previous entry); [| done].
  apply at_most_once_bind; [| done].
  apply at_most_once_bind_gets. intros ls. apply at_most_once_fanout_loop.
Qed.

Lemma at_most_once_players_loop n p :
  at_most_once k c0 v (players_loop n p).
Proof.
  revert p. induction n as [|n IH]; intros p; [apply at_most_once_ret |].
  cbn [players_loop]. apply at_most_once_bind_gets. intros ps.
  destruct (ps !! p) as [player|]; [| apply at_most_once_ret].
  destruct (inventory player) as [inv|]; [| apply IH].
  apply at_most_once_bind_gets. intros cache.
  apply at_most_once_bind; [apply at_most_once_entries_loop |].
  apply at_most_once_bind; [| apply IH].
  by intros s Hs.
Qed.

End AtMostOnce.

Lemma poll_cycle_at_most_once k v s :
  steady (advance_counters s) →
  (∀ l, listeners s !! k = Some l → counter l + systemIntervalTick s = v) →
  once_post k (times_called k (calls s)) v (poll_cycle s).
Proof.
  intros Hsteady Hv. unfold poll_cycle. unfold_M. cbn.
  apply at_most_once_players_loop. split; [done |].
  - left. split; [done |]. intros l. cbn. rewrite list_lookup_fmap.
    destruct (listeners s !! k) as [l0|] eqn:Hl0; [| done].
    cbn. intros [= <-]. left. cbn. by apply Hv.
Qed.

(** ** One fan-out *)

Lemma fired_S k n ls data :
  fired k (S n) ls data =
  match ls !! k with
  | Some l => if due l then [(k, data)] else []
  | None => []
  end ++ fired (S k) n ls data.
Proof.
  unfold fired. cbn [seq omap list_omap].
  destruct (ls !! k) as [l|]; cbn; [| done]. by destruct (due l).
Qed.

Lemma fired_ext k n ls ls' data :
  (∀ j, (k ≤ j < k + n)%nat → ls !! j = ls' !! j) →
  fired k n ls data = fired k n ls' data.
Proof.
  revert k. induction n as [|n IH]; intros k Hext; [done |].
  rewrite !fired_S, (Hext k) by lia. f_equal.
  apply IH. intros j Hj. apply Hext. lia.
Qed.

Lemma fire_not_due l : 1 ≤ tick l → due (fire l) = false.
Proof.
  intros Htick. unfold fire. destruct (due l) eqn:Hdue; [| done].
  unfold due. cbn. apply Z.leb_gt. lia.
Qed.

Lemma fanout_loop_quiet n k p data s :
  quiet s → fanout_loop n k p data s = (Normal tt, s).
Proof.
  intros Hq. revert k. induction n as [|n IH]; intros k; [done |].
  cbn [fanout_loop]. unfold_M. cbn.
  destruct (listeners s !! k) as [l|] eqn:Hk; [| apply IH].
  by rewrite (proj1 (Forall_lookup _ _) Hq _ _ Hk).
Qed.

(** What holds of the callbacks that are due still holds of them after
    the call and reset of a due listener, whatever it registered. *)
Lemma due_callbacks_after_call (Q : Callback → Prop) k l ls extra :
  ls !! k = Some l → due l = true →
  Forall (fun l => due l = true → Q (callback l)) ls →
  Forall (fun l => counter l = 0 ∧ 1 ≤ tick l) extra →
  Forall (fun l => due l = true → Q (callback l))
    (alter (fun l => mkListener (callback l) (tick l) 0) k (ls ++ extra)).
Proof.
  intros Hk Hdue Hls Hextra. apply Forall_lookup. intros j x Hj Hx.
  destruct (decide (j = k)) as [->|Hne].
  - rewrite list_lookup_alter_eq, (lookup_app_l_Some _ _ _ _ Hk) in Hj.
    injection Hj as <-. cbn. by apply (proj1 (Forall_lookup _ _) Hls _ _ Hk).
  - rewrite list_lookup_alter_ne in Hj by done.
    apply lookup_app_Some in Hj as [Hj|[_ Hj]].
    + by apply (proj1 (Forall_lookup _ _) Hls _ _ Hj).
    + exfalso. destruct (proj1 (Forall_lookup _ _) Hextra _ _ Hj) as [Hzero Htick].
      by rewrite not_due_fresh in Hx.
Qed.

(** The calls of a fan-out whose callbacks return, whatever they write
    to their own entries: the listeners that were due when it began. *)
Lemma fanout_loop_calls n k p data s :
  (k + n ≤ length (listeners s))%nat →
  (∀ j l, (k ≤ j < k + n)%nat → listeners s !! j = Some l → due l = true →
     Forall op_returns (callback l)) →
  ∃ s', fanout_loop n k p data s = (Normal tt, s')
        ∧ calls s' = calls s ++ fired k n (listeners s) data.
Proof.
  revert k s. induction n as [|n IH]; intros k s Hlen Hret.
  { exists s. split; [done |]. by rewrite app_nil_r. }
  destruct (lookup_lt_is_Some_2 (listeners s) k) as [l Hk]; [lia |].
  cbn [fanout_loop]. unfold_M. cbn. rewrite Hk. fold (due l).
  rewrite fired_S, Hk.
  destruct (due l) eqn:Hdue.
  - unfold invoke. unfold_M. cbn.
    set (s0 := set_calls _ s).
    pose proof (run_ops_grows_around k p data (callback l) s0) as Hg.
    pose proof (run_ops_returns k p data (callback l) s0
                  (Hret k l ltac:(lia) Hk Hdue)) as Hnormal.
    destruct (run_ops k p data (callback l) s0) as [r s1]. cbn [fst snd] in *.
    subst r. set (s2 := reset_counter k s1).
    pose proof (grows_around_trans k s0 s1 s2 Hg
                  (write_entry_grows_around k _ s1)) as (Hc & _ & Hn & Hl).
    change (listeners s0) with (listeners s) in Hn, Hl.
    destruct (IH (S k) s2) as (s' & Hrun & Hc').
    { lia. }
    { intros j x Hj Hx.
      destruct (lookup_lt_is_Some_2 (listeners s) j) as [y Hy]; [lia |].
      rewrite (Hl j y ltac:(lia) Hy) in Hx. injection Hx as <-.
      apply (Hret j y); [lia | done]. }
    exists s'. split; [exact Hrun |]. rewrite Hc', Hc. cbn.
    rewrite <- app_assoc. f_equal. f_equal. apply fired_ext.
    intros j Hj.
    destruct (lookup_lt_is_Some_2 (listeners s) j) as [y Hy]; [lia |].
    rewrite Hy. apply (Hl j y); [lia | done].
  - destruct (IH (S k) s) as (s' & Hrun & Hc'); [lia | |].
    { intros j x Hj. apply Hret. lia. }
    exists s'. split; [exact Hrun |]. by rewrite Hc'.
Qed.

Lemma fanout_calls p data s :
  due_callbacks_return (listeners s) →
  ∃ s', fanout p data s = (Normal tt, s')
        ∧ calls s' = calls s ++ fired 0 (length (listeners s)) (listeners s) data.
Proof.
  intros Hret. unfold fanout. unfold_M. cbn.
  apply fanout_loop_calls; [done |]. intros j l _ Hj.
  by apply (proj1 (Forall_lookup _ _) Hret j).
Qed.

Lemma fanout_loop_fires n k p data s :
  (k + n ≤ length (listeners s))%nat →
  due_callbacks_return (listeners s) →
  due_callbacks_keep (listeners s) →
  ∃ s', fanout_loop n k p data s = (Normal tt, s') ∧ fanned k n data s s'.
Proof.
  revert k s. induction n as [|n IH]; intros k s Hlen Hret Hkeep.
  { exists s. split; [done |]. split; [by rewrite app_nil_r |].
    split.
    - intros j l Hj. rewrite decide_False by lia. done.
    - intros j l Hj Hl. apply lookup_lt_Some in Hl. lia. }
  destruct (lookup_lt_is_Some_2 (listeners s) k) as [l Hk]; [lia |].
  cbn [fanout_loop]. unfold_M. cbn. rewrite Hk. fold (due l).
  destruct (due l) eqn:Hdue.
  - (* the listener at [k] is called and reset *)
    unfold invoke. unfold_M. cbn.
    set (s0 := set_calls _ s).
    pose proof (run_ops_grows k p data (callback l) s0
                  (proj1 (Forall_lookup _ _) Hkeep _ _ Hk Hdue)) as Hg.
    pose proof (run_ops_returns k p data (callback l) s0
                  (proj1 (Forall_lookup _ _) Hret _ _ Hk Hdue)) as Hnormal.
    destruct (run_ops k p data (callback l) s0) as [r s1]. cbn [fst snd] in *.
    subst r. destruct Hg as (Hcalls & Hcache & extra & Hls & Hextra).
    cbn in Hcalls, Hcache, Hls.
    set (s2 := reset_counter k s1).
    assert (Hlook2 : ∀ j x, listeners s !! j = Some x →
              listeners s2 !! j
              = Some (if decide (j = k) then fire l else x)).
    { intros j x Hj. unfold s2. cbn. rewrite Hls.
      destruct (decide (j = k)) as [->|Hne].
      - rewrite list_lookup_alter_eq, (lookup_app_l_Some _ _ _ _ Hk). cbn.
        unfold fire. by rewrite Hdue.
      - rewrite list_lookup_alter_ne by done. by apply lookup_app_l_Some. }
    assert (Hcalls2 : calls s2 = calls s ++ [(k, data)]) by done.
    assert (Hlen2 : length (listeners s2) = (length (listeners s) + length extra)%nat).
    { unfold s2. cbn. by rewrite length_alter, Hls, length_app. }
    destruct (IH (S k) s2) as (s' & Hrun & Hc' & Hb' & Hn').
    { lia. }
    { unfold s2, due_callbacks_return. cbn. rewrite Hls.
      by apply (due_callbacks_after_call _ k l). }
    { unfold s2, due_callbacks_keep. cbn. rewrite Hls.
      by apply (due_callbacks_after_call _ k l). }
    exists s'. split; [exact Hrun |]. split; [| split].
    + rewrite Hc', Hcalls2, fired_S, Hk, Hdue.
      rewrite <- app_assoc. f_equal. f_equal. apply fired_ext.
      intros j Hj.
      destruct (lookup_lt_is_Some_2 (listeners s) j) as [y Hy]; [lia |].
      rewrite Hy, (Hlook2 _ _ Hy).
      by rewrite decide_False by lia.
    + intros j x Hj. rewrite (Hb' _ _ (Hlook2 _ _ Hj)).
      destruct (decide (j = k)) as [->|Hne].
      * rewrite decide_False, decide_True by lia. congruence.
      * f_equal. repeat case_decide; try done; lia.
    + intros j x Hj Hx.
      destruct (decide (j < length (listeners s2))%nat) as [Hlt|Hge].
      * destruct (lookup_lt_is_Some_2 (listeners s2) j Hlt) as [y Hy].
        rewrite (Hb' _ _ Hy), decide_False in Hx by lia. injection Hx as <-.
        unfold s2 in Hy. cbn in Hy.
        rewrite list_lookup_alter_ne, Hls, lookup_app_r in Hy by lia.
        by apply (proj1 (Forall_lookup _ _) Hextra _ _ Hy).
      * apply (Hn' j x); [lia | done].
  - (* the listener at [k] is not due *)
    destruct (IH (S k) s) as (s' & Hrun & Hc' & Hb' & Hn'); [lia | done | done |].
    exists s'. split; [exact Hrun |]. split; [| split].
    + by rewrite Hc', fired_S, Hk, Hdue.
    + intros j x Hj. rewrite (Hb' _ _ Hj).
      destruct (decide (j = k)) as [->|Hne].
      * rewrite decide_False, decide_True by lia.
        assert (x = l) as -> by congruence. unfold fire. by rewrite Hdue.
      * f_equal. repeat case_decide; try done; lia.
    + done.
Qed.

Lemma fanned_quiet data s s' :
  periods_positive s →
  fanned 0 (length (listeners s)) data s s' → quiet s'.
Proof.
  intros Hpos (_ & Hb & Hn). apply Forall_lookup. intros j x Hj.
  destruct (decide (j < length (listeners s))%nat) as [Hlt|Hge].
  - destruct (lookup_lt_is_Some_2 (listeners s) j Hlt) as [y Hy].
    rewrite (Hb _ _ Hy), decide_True in Hj by lia. injection Hj as <-.
    apply fire_not_due. by apply (proj1 (Forall_lookup _ _) Hpos _ _ Hy).
  - destruct (Hn j x) as [Hzero Htick]; [lia | done |].
    unfold due. apply Z.leb_gt. lia.
Qed.

Lemma fanout_fires p data s :
  due_callbacks_return (listeners s) →
  due_callbacks_keep (listeners s) →
  ∃ s', fanout p data s = (Normal tt, s')
        ∧ fanned 0 (length (listeners s)) data s s'.
Proof.
  intros Hret Hkeep. unfold fanout. unfold_M. cbn.
  by apply fanout_loop_fires.
Qed.

(** ** One poll cycle *)

Lemma fanout_quiet p data s : quiet s → fanout p data s = (Normal tt, s).
Proof. intros Hq. unfold fanout. unfold_M. cbn. by apply fanout_loop_quiet. Qed.

Lemma entries_loop_quiet p player previous entries s :
  quiet s → entries_loop p player previous entries s = (Normal tt, s).
Proof.
  intros Hq. induction entries as [|entry rest IH]; [done |].
  cbn [entries_loop]. destruct (pickedUp previous entry); [| done].
  unfold_M. by rewrite fanout_quiet.
Qed.

Lemma players_loop_quiet n p s :
  quiet s →
  ∃ s', players_loop n p s = (Normal tt, s')
        ∧ listeners s' = listeners s ∧ calls s' = calls s.
Proof.
  revert p s. induction n as [|n IH]; intros p s Hq; [by exists s |].
  cbn [players_loop]. unfold_M. cbn.
  destruct (players s !! p) as [player|]; [| by exists s].
  destruct (inventory player) as [inv|]; [| by apply IH].
  rewrite entries_loop_quiet by done.
  set (s1 := set_playerCache _ s).
  destruct (IH (S p) s1) as (s' & Hrun & Hl & Hc); [done |].
  by exists s'.
Qed.

Lemma entries_loop_first p player previous entries s :
  periods_positive s →
  due_callbacks_return (listeners s) →
  due_callbacks_keep (listeners s) →
  match diff player previous entries with
  | [] => entries_loop p player previous entries s = (Normal tt, s)
  | g :: _ =>
      ∃ s', entries_loop p player previous entries s = (Normal tt, s')
            ∧ fanned 0 (length (listeners s)) g s s'
  end.
Proof.
  intros Hpos Hret Hkeep. induction entries as [|entry rest IH]; [done |].
  rewrite diff_cons. cbn [entries_loop].
  destruct (pickedUp previous entry) as [n|]; [| done].
  destruct (fanout_fires p (mkGain entry.1 n player) s Hret Hkeep)
    as (s1 & Hrun & Hf).
  exists s1. split; [| done]. unfold_M. rewrite Hrun.
  apply entries_loop_quiet. by eapply fanned_quiet.
Qed.

Lemma players_loop_first n p s :
  periods_positive s →
  due_callbacks_return (listeners s) →
  due_callbacks_keep (listeners s) →
  n = length (drop p (players s)) →
  ∃ s', players_loop n p s = (Normal tt, s')
    ∧ match gains_from (drop p (players s)) (playerCache s) with
      | [] => listeners s' = listeners s ∧ calls s' = calls s
      | g :: _ => fanned 0 (length (listeners s)) g s s'
      end.
Proof.
  revert p s. induction n as [|n IH]; intros p s Hpos Hret Hkeep Hn.
  { symmetry in Hn. apply nil_length_inv in Hn. rewrite Hn. by exists s. }
  destruct (drop p (players s)) as [|player rest] eqn:Hdrop; [done |].
  assert (Hp : players s !! p = Some player).
  { rewrite <- (take_drop p (players s)), Hdrop.
    assert (p < length (players s))%nat.
    { destruct (decide (p < length (players s))%nat); [done |].
      rewrite drop_ge in Hdrop by lia. done. }
    rewrite lookup_app_r by (rewrite length_take; lia).
    rewrite length_take, Nat.min_l by lia. by rewrite Nat.sub_diag. }
  assert (Hrest : rest = drop (S p) (players s)).
  { rewrite (drop_S _ _ _ Hp) in Hdrop. congruence. }
  cbn [players_loop gains_from]. unfold_M. cbn. rewrite Hp.
  destruct (inventory player) as [inv|].
  - pose proof (entries_loop_first p (name player)
                  (previous_of (playerCache s) (name player))
                  (snapshotInventory inv) s Hpos Hret Hkeep) as Hentries.
    destruct (diff (name player) _ (snapshotInventory inv)) as [|g gs].
    + rewrite Hentries. cbn [app].
      set (s1 := set_playerCache _ s).
      destruct (IH (S p) s1) as (s' & Hrun & Hres); try done.
      { cbn. rewrite <- Hrest. cbn in Hn. lia. }
      exists s'. split; [exact Hrun |]. cbn in Hres. by rewrite <- Hrest in Hres.
    + destruct Hentries as (s1 & Hrun1 & Hf). rewrite Hrun1. cbn [app].
      set (s2 := set_playerCache _ s1).
      destruct (players_loop_quiet n (S p) s2) as (s' & Hrun & Hl & Hc).
      { eapply fanned_quiet; [exact Hpos | exact Hf]. }
      exists s'. split; [exact Hrun |].
      destruct Hf as (Hfc & Hfb & Hfn). unfold fanned. rewrite Hl, Hc. done.
  - destruct (IH (S p) s) as (s' & Hrun & Hres); try done.
    { rewrite <- Hrest. cbn in Hn. lia. }
    exists s'. split; [exact Hrun |]. by rewrite <- Hrest in Hres.
Qed.

Lemma filter_fired k a n ls data :
  filter (fun c => c.1 = k) (fired a n ls data) =
  if decide (a ≤ k < a + n)%nat
  then match ls !! k with
       | Some l => if due l then [(k, data)] else []
       | None => []
       end
  else [].
Proof.
  revert a. induction n as [|n IH]; intros a.
  - rewrite decide_False by lia. done.
  - rewrite fired_S, filter_app, IH.
    destruct (decide (a = k)) as [->|Hne].
    + rewrite decide_False, decide_True, app_nil_r by lia.
      destruct (ls !! k) as [l|]; [| done].
      destruct (due l); [by rewrite filter_cons_True | done].
    + assert (filter (fun c : nat * GainRecord => c.1 = k)
                match ls !! a with
                | Some l => if due l then [(a, data)] else []
                | None => []
                end = []) as ->.
      { destruct (ls !! a) as [l|]; [| done].
        destruct (due l); [by rewrite filter_cons_False | done]. }
      cbn [app]. repeat case_decide; try done; lia.
Qed.

(** The calls of one poll cycle, when the callbacks that are due return:
    one fan-out of the first gain record of the cycle, if there is one. *)
Lemma poll_cycle_first_record s :
  periods_positive s →
  Forall (fun l => Forall op_returns (callback l)) (listeners s) →
  Forall (fun l => keeps_entry (callback l)) (listeners s) →
  ∃ s', poll_cycle s = (Normal tt, s')
    ∧ match cycle_gains s with
      | [] =>
          listeners s' = listeners (advance_counters s) ∧ calls s' = calls s
      | g :: _ =>
          fanned 0 (length (listeners s)) g (advance_counters s) s'
      end.
Proof.
  intros Hpos Hret Hkeep. unfold poll_cycle. unfold_M. cbn.
  set (s0 := advance_counters s).
  destruct (players_loop_first (length (players s)) 0 s0) as (s' & Hrun & Hres).
  - unfold periods_positive in *. cbn.
    apply (Forall_fmap tick (Z.le 1)). rewrite <- list_fmap_compose.
    by apply Forall_fmap.
  - unfold due_callbacks_return. cbn. apply Forall_fmap.
    eapply Forall_impl; [exact Hret | by intros l Hl _].
  - unfold due_callbacks_keep. cbn. apply Forall_fmap.
    eapply Forall_impl; [exact Hkeep | by intros l Hl _].
  - by rewrite drop_0.
  - exists s'. split; [exact Hrun |]. rewrite drop_0 in Hres.
    change (gains_from (players s0) (playerCache s0)) with (cycle_gains s) in Hres.
    destruct (cycle_gains s); [done |].
    replace (length (listeners s)) with (length (listeners s0)); [done |].
    unfold s0. cbn. by rewrite length_fmap.
Qed.

(** C1, as stated, fails: a listener that is due in a cycle with two gain
    records (the first poll of a player holding 2 A and 1 B) is called
    once, not once for each of the two records. *)
Lemma due_listener_not_called_for_each_record :
  ¬ (∀ events k l,
       let s := run events in
       listeners s !! k = Some l →
       tick l ≤ counter l + systemIntervalTick s →
       times_called k (calls (poll_cycle s).2)
       = (times_called k (calls s) + length (cycle_gains s))%nat).
Proof.
  intros H.
  specialize (H [CallListen (Some []) TickOmitted;
                 WorldChanges
                   [mkPlayer "steve"
                      (Some (mkContainer [Some (mkItemStack "A" 2);
                                          Some (mkItemStack "B" 1)]
                                         (fun _ => None)))]]
                0%nat (mkListener [] 10 0) eq_refl).
  vm_compute in H. specialize (H ltac:(discriminate)). discriminate H.
Qed.

(** C1, amended. In one poll cycle that starts with every period at
    least 1 and in which the callbacks return and assign to no listener
    entry (as [this.tick = 0] does for the entry of the callback
    itself), a listener whose counter, advanced by the poll period, has
    reached its period is called exactly once if the cycle produces a
    gain record, with the first record of the cycle, and its counter is
    reset to 0; the further records of the cycle do not reach it. A
    listener that is called for no record (no record in the cycle, or
    counter short of the period) keeps its advanced counter. *)
Theorem due_listener_called_for_first_record_only (s : State)
  (Hpos : periods_positive s)
  (Hret : Forall (fun l => Forall op_returns (callback l)) (listeners s))
  (Hkeep : Forall (fun l => keeps_entry (callback l)) (listeners s)) :
  ∃ s' new_calls,
    poll_cycle s = (Normal tt, s')
    ∧ calls s' = calls s ++ new_calls
    ∧ ∀ k l, listeners s !! k = Some l →
        let advanced := counter l + systemIntervalTick s in
        let reached := tick l <=? advanced in
        filter (fun c => c.1 = k) new_calls
        = match cycle_gains s with
          | g :: _ => if reached then [(k, g)] else []
          | [] => []
          end
        ∧ listeners s' !! k
          = Some (mkListener (callback l) (tick l)
                    match cycle_gains s with
                    | _ :: _ => if reached then 0 else advanced
                    | [] => advanced
                    end).
Proof.
  destruct (poll_cycle_first_record s Hpos Hret Hkeep) as (s' & Hrun & Hres).
  assert (Hadv : ∀ k l, listeners s !! k = Some l →
            listeners (advance_counters s) !! k
            = Some (mkListener (callback l) (tick l)
                      (counter l + systemIntervalTick s))).
  { intros k l Hk. cbn. by rewrite list_lookup_fmap, Hk. }
  destruct (cycle_gains s) as [|g gs].
  - destruct Hres as [Hl Hc]. exists s', []. split; [done |].
    split; [by rewrite app_nil_r |]. intros k l Hk. cbn zeta.
    split; [done |]. rewrite Hl. by apply Hadv.
  - destruct Hres as (Hc & Hb & _).
    exists s', (fired 0 (length (listeners s)) (listeners (advance_counters s)) g).
    split; [done |]. split; [done |]. intros k l Hk. cbn zeta.
    pose proof (lookup_lt_Some _ _ _ Hk) as Hlt.
    rewrite filter_fired, decide_True, (Hadv _ _ Hk) by lia.
    rewrite (Hb _ _ (Hadv _ _ Hk)), decide_True by lia.
    unfold fire, due. cbn.
    by destruct (tick l <=? counter l + systemIntervalTick s).
Qed.

(** C10, as stated, fails: a callback has its listener entry as [this]
    and can assign to it. The callback [function () { this.tick = 0 }],
    registered at the default period, is called three times in the
    first poll cycle of a player holding items of three types: after
    each call its counter, reset to 0, has again reached its period. *)
Lemma listener_that_clears_its_period_is_called_for_every_record :
  ¬ (∀ events k,
       let s := run events in
       (times_called k (calls (poll_cycle s).2)
        ≤ S (times_called k (calls s)))%nat).
Proof.
  intros H.
  specialize (H [CallListen (Some [OpSetTick 0]) TickOmitted;
                 WorldChanges
                   [mkPlayer "steve"
                      (Some (mkContainer [Some (mkItemStack "A" 2);
                                          Some (mkItemStack "B" 1);
                                          Some (mkItemStack "C" 1)]
                                         (fun _ => None)))]]
                0%nat).
  vm_compute in H. lia.
Qed.

(** C10, amended. [listen] registers no period below 1. In a poll cycle
    that starts with every period at least 1 and in which the callbacks
    of the listeners that are called assign to no listener entry (as
    [this.tick = 0] does for the entry of the callback itself), the
    listener at any index is called at most once, however many gain
    records the players produce and whatever else the callbacks do
    (remove, throw, register listeners). Its counter is advanced once,
    by the poll period, and is 0 after the call: at the end of the cycle
    it is the advanced counter or 0, and 0 when the cycle completes and
    the listener was called. Every period is still at least 1 then. *)
Theorem listener_called_at_most_once_per_cycle (s : State) (k : nat)
  (Hpos : periods_positive s)
  (Hkeep : Forall (fun l => tick l ≤ counter l + systemIntervalTick s →
                            keeps_entry (callback l)) (listeners s)) :
  let r := poll_cycle s in
  (∀ cb t, periods_positive (listen cb t s).2)
  ∧ periods_positive r.2
  ∧ (times_called k (calls s) ≤ times_called k (calls r.2)
     ≤ S (times_called k (calls s)))%nat
  ∧ (∀ l l', listeners s !! k = Some l → listeners r.2 !! k = Some l' →
       counter l' = counter l + systemIntervalTick s ∨ counter l' = 0)
  ∧ (r.1 = Normal tt →
     times_called k (calls r.2) = S (times_called k (calls s)) →
     ∃ l, listeners r.2 !! k = Some l ∧ counter l = 0).
Proof.
  intros r.
  assert (Hsteady : steady (advance_counters s)).
  { split.
    - unfold periods_positive in *. cbn.
      apply (Forall_fmap tick (Z.le 1)). rewrite <- list_fmap_compose.
      by apply Forall_fmap.
    - unfold due_callbacks_keep. cbn. apply Forall_fmap.
      eapply Forall_impl; [exact Hkeep |]. intros l Hl Hdue. cbn in *.
      apply Hl. unfold due in Hdue. cbn in Hdue. by apply Z.leb_le. }
  split.
  { intros cb t. eapply periods_positive_grows; [apply listen_grows | done]. }
  assert (Hbounds : ∀ v, once_post k (times_called k (calls s)) v r →
            periods_positive r.2
            ∧ (times_called k (calls s) ≤ times_called k (calls r.2)
               ≤ S (times_called k (calls s)))%nat).
  { intros v Hpost. unfold once_post in Hpost.
    destruct (r.1).
    - split; [apply Hpost | by eapply once_pre_bounds].
    - split; apply Hpost. }
  assert (Hboth : periods_positive r.2
            ∧ (times_called k (calls s) ≤ times_called k (calls r.2)
               ≤ S (times_called k (calls s)))%nat).
  { destruct (listeners s !! k) as [l|] eqn:Hl.
    + apply (Hbounds (counter l + systemIntervalTick s)).
      apply poll_cycle_at_most_once; [done |]. intros l0 Hl0. congruence.
    + apply (Hbounds 0). apply poll_cycle_at_most_once; [done |].
      intros l0 Hl0. congruence. }
  destruct Hboth as [Hpos' Hcount]. split; [done |]. split; [done |]. split.
  - intros l l' Hl Hl'.
    pose proof (poll_cycle_at_most_once k (counter l + systemIntervalTick s) s
                  Hsteady) as Hpost.
    specialize (Hpost ltac:(intros l0 Hl0; congruence)).
    fold r in Hpost. unfold once_post in Hpost.
    destruct (r.1); [by eapply once_pre_counter | by apply Hpost].
  - intros Hnormal Hcalled.
    assert (Hpost : once_post k (times_called k (calls s))
                      (from_option (fun l => counter l + systemIntervalTick s) 0
                         (listeners s !! k)) (poll_cycle s)).
    { apply poll_cycle_at_most_once; [done |]. intros l Hl. by rewrite Hl. }
    fold r in Hpost. unfold once_post in Hpost. rewrite Hnormal in Hpost.
    destruct Hpost as [_ [[Hc _]|[_ Hl]]]; [lia | done].
Qed.

(** ** Failures inside the actions *)

Lemma actions_remove_logs p type n s inv msg :
  inventory_at (players s) p = Some inv →
  (removeItemsFromInventory type n inv).1 = Throw msg →
  console (actions_remove p type n s).2
  = console s ++ ["Failed to remove items: " +:+ msg].
Proof.
  intros Hinv Hthrow.
  unfold actions_remove, try_catch, on_inventory, console_error. unfold_M.
  rewrite Hinv. cbn zeta.
  destruct (removeItemsFromInventory type n inv) as [r inv']. cbn in Hthrow.
  by subst r.
Qed.

Lemma actions_restore_returns data s :
  (BlockBreak.actions_restore data s).1 = Normal tt.
Proof.
  unfold BlockBreak.actions_restore, BlockBreak.runCommand,
    BlockBreak.console_error, try_catch.
  unfold_M. by destruct (BlockBreak.command_fault s _).
Qed.

Lemma actions_restore_logs data s msg :
  BlockBreak.command_fault s (BlockBreak.setblock_command data) = Some msg →
  BlockBreak.console (BlockBreak.actions_restore data s).2
  = BlockBreak.console s ++ ["Failed to restore block: " +:+ msg].
Proof.
  intros Hfault.
  unfold BlockBreak.actions_restore, BlockBreak.runCommand,
    BlockBreak.console_error, try_catch.
  unfold_M. by rewrite Hfault.
Qed.

(** C7. [actions.remove()] and [actions.restore()] always return to
    their caller: when the container write, or the restore command,
    throws, the message is written to the console instead. So in the
    fan-out of a gain record, whatever the container does to the writes
    of [remove()], every listener that is due receives the record, as
    long as no callback throws on its own. *)
Theorem action_failures_are_caught_and_logged :
  (∀ p type n s, (actions_remove p type n s).1 = Normal tt)
  ∧ (∀ p type n s inv msg,
       inventory_at (players s) p = Some inv →
       (removeItemsFromInventory type n inv).1 = Throw msg →
       console (actions_remove p type n s).2
       = console s ++ ["Failed to remove items: " +:+ msg])
  ∧ (∀ data s, (BlockBreak.actions_restore data s).1 = Normal tt)
  ∧ (∀ data s msg,
       BlockBreak.command_fault s (BlockBreak.setblock_command data) = Some msg →
       BlockBreak.console (BlockBreak.actions_restore data s).2
       = BlockBreak.console s ++ ["Failed to restore block: " +:+ msg])
  ∧ (∀ p data s,
       due_callbacks_return (listeners s) →
       ∃ s' new_calls,
         fanout p data s = (Normal tt, s')
         ∧ calls s' = calls s ++ new_calls
         ∧ ∀ k l, listeners s !! k = Some l → due l = true →
             filter (fun c => c.1 = k) new_calls = [(k, data)]).
Proof.
  split; [apply actions_remove_returns |].
  split; [apply actions_remove_logs |].
  split; [apply actions_restore_returns |].
  split; [apply actions_restore_logs |].
  intros p data s Hret.
  destruct (fanout_calls p data s Hret) as (s' & Hrun & Hc).
  exists s', (fired 0 (length (listeners s)) (listeners s) data).
  split; [done |]. split; [done |]. intros k l Hk Hdue.
  pose proof (lookup_lt_Some _ _ _ Hk).
  by rewrite filter_fired, decide_True, Hk, Hdue by lia.
Qed.

(** ** HTTP shim *)

Section HttpReqFacts.
Import HttpReq.
Context {Json : Type}.
Variable toUpperCase : string → string.
Variable JSON_stringify : Json → Completion (option string).
Variable JSON_parse : string → Completion Json.
Variable transport : HttpRequest → Completion HttpResponse.

Lemma httpReq_missing_url (config : Config Json) sent :
  url_missing (url config) = true →
  httpReq toUpperCase JSON_stringify JSON_parse transport config sent
  = (Throw "URL is required", sent).
Proof. intros Hurl. unfold HttpReq.httpReq. by rewrite Hurl. Qed.

Lemma url_missing_cases (u : Field string) :
  url_missing u = true ↔ u = Undefined ∨ u = Null ∨ u = Value "".
Proof.
  destruct u as [| |text]; cbn.
  - split; [by left | done].
  - split; [by right; left | done].
  - rewrite bool_decide_eq_true. split; [intros ->; by right; right |].
    by intros [?|[?|[= ->]]].
Qed.

Lemma build_request_throws u (config : Config Json) msg :
  build_request toUpperCase JSON_stringify u config = Throw msg →
  ∃ o, match body config with Undefined => data config | b => b end
       = Value (BodyObject o)
       ∧ JSON_stringify o = Throw msg.
Proof.
  unfold HttpReq.build_request.
  destruct (match body config with Undefined => data config | b => b end)
    as [| |[o|text]]; try done.
  destruct (JSON_stringify o) as [text|m] eqn:Ho; [done |].
  intros [= ->]. by exists o.
Qed.

Lemma httpReq_unserialisable (config : Config Json) sent msg :
  url_missing (url config) = false →
  build_request toUpperCase JSON_stringify (url_text (url config)) config = Throw msg →
  httpReq toUpperCase JSON_stringify JSON_parse transport config sent
  = (Throw msg, sent).
Proof. intros Hurl Hbuild. unfold HttpReq.httpReq. by rewrite Hurl, Hbuild. Qed.

Lemma httpReq_transport_ok (config : Config Json) sent request response :
  url_missing (url config) = false →
  build_request toUpperCase JSON_stringify (url_text (url config)) config
  = Normal request →
  transport request = Normal response →
  httpReq toUpperCase JSON_stringify JSON_parse transport config sent
  = (if truthy (resp_body response) then
       match JSON_parse (default "" (resp_body response)) with
       | Normal parsed =>
           Normal (mkResult (resp_status response) (Some parsed)
                            (resp_headers response))
       | Throw msg => Throw ("HTTP request failed: " +:+ msg)
       end
     else Normal (mkResult (resp_status response) None (resp_headers response)),
     sent ++ [request]).
Proof.
  intros Hurl Hbuild Hok. unfold HttpReq.httpReq, http_request, try_catch.
  rewrite Hurl, Hbuild. unfold_M. rewrite Hok.
  destruct (truthy (resp_body response)); [| done].
  by destruct (JSON_parse _).
Qed.

Lemma httpReq_transport_fails (config : Config Json) sent request msg :
  url_missing (url config) = false →
  build_request toUpperCase JSON_stringify (url_text (url config)) config
  = Normal request →
  transport request = Throw msg →
  httpReq toUpperCase JSON_stringify JSON_parse transport config sent
  = (Throw ("HTTP request failed: " +:+ msg), sent ++ [request]).
Proof.
  intros Hurl Hbuild Hfail. unfold HttpReq.httpReq, http_request, try_catch.
  rewrite Hurl, Hbuild. unfold_M. by rewrite Hfail.
Qed.

Lemma httpReq_sends_one_request (config : Config Json) sent request :
  url_missing (url config) = false →
  build_request toUpperCase JSON_stringify (url_text (url config)) config
  = Normal request →
  (httpReq toUpperCase JSON_stringify JSON_parse transport config sent).2
  = sent ++ [request].
Proof.
  intros Hurl Hbuild. unfold HttpReq.httpReq, http_request, try_catch.
  rewrite Hurl, Hbuild. unfold_M.
  destruct (transport _) as [response|msg]; [| done].
  destruct (truthy _); [| done]. by destruct (JSON_parse _).
Qed.

Lemma httpReq_other_errors_are_wrapped (config : Config Json) sent request :
  url_missing (url config) = false →
  build_request toUpperCase JSON_stringify (url_text (url config)) config
  = Normal request →
  (httpReq toUpperCase JSON_stringify JSON_parse transport config sent).1
  ≠ Throw "URL is required".
Proof.
  intros Hurl Hbuild. unfold HttpReq.httpReq, http_request, try_catch.
  rewrite Hurl, Hbuild. unfold_M.
  destruct (transport _) as [response|msg]; cbn; [| discriminate].
  destruct (truthy (resp_body response)); [| discriminate].
  destruct (JSON_parse _); cbn; discriminate.
Qed.

End HttpReqFacts.

(** C8, where the code misses it. The transport call succeeds, and the
    response has a body that is not JSON, as ["<html>"] is not:
    [JSON.parse] sits inside the [try] around the transport call, so
    [httpReq], which has made the call, does not resolve to
    [{status, data, headers}] but rejects with the parse error wrapped
    as ["HTTP request failed: ..."]. *)
Theorem unparsable_body_of_a_successful_response_rejects
  {Json : Type} (toUpperCase : string → string)
  (JSON_stringify : Json → Completion (option string))
  (JSON_parse : string → Completion Json)
  (transport : HttpReq.HttpRequest → Completion HttpReq.HttpResponse)
  (config : HttpReq.Config Json) (sent : HttpReq.Sent)
  (request : HttpReq.HttpRequest) (response : HttpReq.HttpResponse)
  (text msg : string)
  (Hurl : HttpReq.url_missing (HttpReq.url config) = false)
  (Hbuild : HttpReq.build_request toUpperCase JSON_stringify
              (HttpReq.url_text (HttpReq.url config)) config
            = Normal request)
  (Hok : transport request = Normal response)
  (Hbody : HttpReq.resp_body response = Some text)
  (Htext : text ≠ "")
  (Hparse : JSON_parse text = Throw msg) :
  HttpReq.httpReq toUpperCase JSON_stringify JSON_parse transport config sent
  = (Throw ("HTTP request failed: " +:+ msg), sent ++ [request]).
Proof.
  rewrite (httpReq_transport_ok _ _ _ _ _ _ _ _ Hurl Hbuild Hok).
  rewrite Hbody. cbn. rewrite bool_decide_eq_false_2 by done. cbn.
  by rewrite Hparse.
Qed.

(** What [httpReq] resolves to in the other cases of a successful
    transport call: [data] is null when the response body is absent or
    empty, and the parsed body when the body parses as JSON. *)
Lemma successful_transport_maps_response
  {Json : Type} (toUpperCase : string → string)
  (JSON_stringify : Json → Completion (option string))
  (JSON_parse : string → Completion Json)
  (transport : HttpReq.HttpRequest → Completion HttpReq.HttpResponse)
  (config : HttpReq.Config Json) (sent : HttpReq.Sent)
  (request : HttpReq.HttpRequest) (response : HttpReq.HttpResponse) :
  HttpReq.url_missing (HttpReq.url config) = false →
  HttpReq.build_request toUpperCase JSON_stringify
    (HttpReq.url_text (HttpReq.url config)) config
  = Normal request →
  transport request = Normal response →
  let r := HttpReq.httpReq toUpperCase JSON_stringify JSON_parse transport
             config sent in
  r.2 = sent ++ [request]
  ∧ match HttpReq.resp_body response with
    | None =>
        r.1 = Normal (HttpReq.mkResult (HttpReq.resp_status response) None
                        (HttpReq.resp_headers response))
    | Some text =>
        if decide (text = "") then
          r.1 = Normal (HttpReq.mkResult (HttpReq.resp_status response) None
                          (HttpReq.resp_headers response))
        else
          ∀ parsed, JSON_parse text = Normal parsed →
            r.1 = Normal (HttpReq.mkResult (HttpReq.resp_status response)
                            (Some parsed) (HttpReq.resp_headers response))
    end.
Proof.
  intros Hurl Hbuild Hok r. unfold r.
  rewrite (httpReq_transport_ok _ _ _ _ _ _ _ _ Hurl Hbuild Hok). cbn [fst snd].
  split; [done |].
  destruct (HttpReq.resp_body response) as [text|]; cbn; [| done].
  destruct (decide (text = "")) as [->|Hne]; [done |].
  rewrite bool_decide_eq_false_2 by done. cbn.
  by intros parsed ->.
Qed.

(** C9, as stated, fails: with [url: ""] the property is not absent,
    and [httpReq] still raises the missing-URL error. *)
Lemma empty_url_raises_missing_url :
  ¬ (∀ (config : HttpReq.Config unit),
       (HttpReq.httpReq HttpReq.toUpperCase_ascii HttpReq.stringify_null
          HttpReq.parse_null (fun _ => Throw "unreachable") config []).1
       = Throw "URL is required"
       ↔ (HttpReq.url config = HttpReq.Undefined
          ∨ HttpReq.url config = HttpReq.Null)).
Proof.
  intros H.
  destruct (H (HttpReq.mkConfig (HttpReq.Value "") None
                 HttpReq.Undefined HttpReq.Undefined None)) as [Himp _].
  destruct (Himp eq_refl) as [Hu|Hu]; discriminate Hu.
Qed.

(** C9, amended. [httpReq] raises its missing-URL error exactly when
    [config.url] is absent, null or the empty string, and then without
    any transport call. When the URL is present, either [JSON.stringify]
    throws for an object body, and that error, not the missing-URL
    error, is thrown as it is and no transport call is made; or the
    transport is called, once and never again, and a failure of that
    call is rethrown as the one error ["HTTP request failed: "] followed
    by the original message. *)
Theorem missing_url_and_transport_failure
  {Json : Type} (toUpperCase : string → string)
  (JSON_stringify : Json → Completion (option string))
  (JSON_parse : string → Completion Json)
  (transport : HttpReq.HttpRequest → Completion HttpReq.HttpResponse)
  (config : HttpReq.Config Json) (sent : HttpReq.Sent) :
  let r := HttpReq.httpReq toUpperCase JSON_stringify JSON_parse transport
             config sent in
  let payload :=
    match HttpReq.body config with
    | HttpReq.Undefined => HttpReq.data config
    | b => b
    end in
  if decide (HttpReq.url config = HttpReq.Undefined
             ∨ HttpReq.url config = HttpReq.Null
             ∨ HttpReq.url config = HttpReq.Value "")
  then r = (Throw "URL is required", sent)
  else
    match HttpReq.build_request toUpperCase JSON_stringify
            (HttpReq.url_text (HttpReq.url config)) config with
    | Throw msg =>
        r = (Throw msg, sent)
        ∧ ∃ o, payload = HttpReq.Value (HttpReq.BodyObject o)
               ∧ JSON_stringify o = Throw msg
    | Normal request =>
        r.2 = sent ++ [request]
        ∧ r.1 ≠ Throw "URL is required"
        ∧ ∀ msg, transport request = Throw msg →
            r.1 = Throw ("HTTP request failed: " +:+ msg)
    end.
Proof.
  intros r payload. unfold r.
  destruct (decide _) as [Habsent|Hpresent].
  - apply httpReq_missing_url. by apply url_missing_cases.
  - assert (Hurl : HttpReq.url_missing (HttpReq.url config) = false).
    { destruct (HttpReq.url_missing (HttpReq.url config)) eqn:Hurl; [| done].
      by apply url_missing_cases in Hurl. }
    destruct (HttpReq.build_request _ _ _ _) as [request|msg] eqn:Hbuild.
    + split; [by apply httpReq_sends_one_request |].
      split; [by eapply httpReq_other_errors_are_wrapped |].
      intros msg Hfail.
      by rewrite (httpReq_transport_fails _ _ _ _ _ _ _ _ Hurl Hbuild Hfail).
    + split; [by apply httpReq_unserialisable |].
      by eapply build_request_throws.
Qed.

(** ** The statements at sample inputs *)

Lemma snapshot_sums_amounts_by_type_witness :
  JsMap.get (snapshotInventory mixed_slots) "A" = Some 4
  ∧ JsMap.get (snapshotInventory mixed_slots) "C" = None
  ∧ JsMap.get (snapshotInventory mixed_slots) "A"
    = JsMap.get (snapshotInventory mixed_slots_reordered) "A"
  ∧ snapshotInventory empty_slots = JsMap.empty.
Proof.
  destruct (snapshot_sums_amounts_by_type mixed_slots) as (Hget & _ & Hperm & _).
  destruct (snapshot_sums_amounts_by_type empty_slots) as (_ & _ & _ & Hempty).
  split; [etrans; [apply Hget | by vm_compute] |].
  split; [etrans; [apply Hget | by vm_compute] |].
  split.
  - apply Hperm. symmetry.
    exact (Permutation_cons_append
             [Some (mkItemStack "A" 3); Some (mkItemStack "B" 2)]
             (Some (mkItemStack "A" 1))).
  - apply Hempty. intros i. by destruct i as [|[|[|i]]].
Defined.

(** The entries of a snapshot stand in the order in which the item types
    first occur in the slots. *)
Example snapshot_entries_follow_slot_order :
  snapshotInventory mixed_slots = [("A", 4); ("B", 2)]
  ∧ snapshotInventory mixed_slots_reordered = [("A", 4); ("B", 2)]
  ∧ snapshotInventory
      (mkContainer [Some (mkItemStack "B" 2); Some (mkItemStack "A" 4)]
                   (fun _ => None))
    = [("B", 2); ("A", 4)].
Proof. by vm_compute. Qed.

Lemma remove_takes_min_of_requested_and_held_witness :
  (removeItemsFromInventory "A" 5 two_stacks).1 = Normal tt
  ∧ slots (removeItemsFromInventory "A" 5 two_stacks).2
    = [None; Some (mkItemStack "A" 1)]
  ∧ held "A" two_stacks - held "A" (removeItemsFromInventory "A" 100 two_stacks).2
    = 6.
Proof.
  assert (Hhost : ∀ i, write_fault two_stacks i = None) by reflexivity.
  assert (Hamounts : ∀ i item, getItem two_stacks i = Some item → 0 ≤ amount item).
  { intros i item. destruct i as [|[|[|i]]]; cbn; intros Hi; simplify_eq; cbn; lia. }
  destruct (remove_takes_min_of_requested_and_held "A" 5 two_stacks
              Hhost Hamounts ltac:(lia)) as (Hnormal & Hslots & _ & _).
  destruct (remove_takes_min_of_requested_and_held "A" 100 two_stacks
              Hhost Hamounts ltac:(lia)) as (_ & _ & Hmin & _).
  split; [exact Hnormal |]. split; [etrans; [exact Hslots | by vm_compute] |].
  etrans; [exact Hmin | by vm_compute].
Defined.

Lemma at_most_one_recurring_poll_witness :
  (length (live [RunInterval 0 10; ClearRun 0]) ≤ 1)%nat
  ∧ live [RunInterval 0 10; ClearRun 0] = [].
Proof.
  destruct (at_most_one_recurring_poll
              [CallListen (Some []) (TickInteger 20);
               CallListen (Some []) (TickInteger 5)]) as (Hnever & Hidle & _).
  split.
  - apply Hnever. by exists [RunInterval 1 5].
  - apply (Hidle _ 1%nat 5). by exists [].
Defined.

Lemma listener_called_at_most_once_per_cycle_witness :
  let s := run two_listeners_locked_player in
  cycle_gains s = [mkGain "A" 2 "steve"; mkGain "B" 1 "steve"]
  ∧ times_called 0 (calls (poll_cycle s).2) = 1%nat
  ∧ (∀ l', listeners (poll_cycle s).2 !! 0%nat = Some l' →
       counter l' = 0 + 10 ∨ counter l' = 0)
  ∧ ∃ l, listeners (poll_cycle s).2 !! 0%nat = Some l ∧ counter l = 0.
Proof.
  intros s.
  assert (Hpos : periods_positive s).
  { unfold periods_positive. vm_compute. repeat constructor; discriminate. }
  assert (Hkeep : Forall (fun l => tick l ≤ counter l + systemIntervalTick s →
                                   keeps_entry (callback l)) (listeners s)).
  { vm_compute. repeat constructor. }
  destruct (listener_called_at_most_once_per_cycle s 0 Hpos Hkeep)
    as (_ & _ & _ & Hcounter & Hreset).
  split; [by vm_compute |]. split; [by vm_compute |]. split.
  - intros l'. exact (Hcounter (mkListener [OpRemove] 10 0) l' eq_refl).
  - apply Hreset; by vm_compute.
Defined.

Lemma due_listener_called_for_first_record_only_witness :
  let s := run two_listeners_locked_player in
  ∃ s' new_calls,
    poll_cycle s = (Normal tt, s')
    ∧ calls s' = calls s ++ new_calls
    ∧ filter (fun c => c.1 = 0%nat) new_calls = [(0%nat, mkGain "A" 2 "steve")]
    ∧ filter (fun c => c.1 = 1%nat) new_calls = [(1%nat, mkGain "A" 2 "steve")]
    ∧ listeners s' !! 0%nat = Some (mkListener [OpRemove] 10 0).
Proof.
  intros s.
  assert (Hpos : periods_positive s).
  { unfold periods_positive. vm_compute. repeat constructor; discriminate. }
  assert (Hret : Forall (fun l => Forall op_returns (callback l)) (listeners s)).
  { vm_compute. repeat constructor. }
  assert (Hkeep : Forall (fun l => keeps_entry (callback l)) (listeners s)).
  { vm_compute. repeat constructor. }
  destruct (due_listener_called_for_first_record_only s Hpos Hret Hkeep)
    as (s' & new_calls & Hrun & Hcalls & Heach).
  exists s', new_calls. split; [exact Hrun |]. split; [exact Hcalls |].
  destruct (Heach 0%nat (mkListener [OpRemove] 10 0) eq_refl) as [H0 Hl0].
  destruct (Heach 1%nat (mkListener [] 10 0) eq_refl) as [H1 _].
  split; [exact H0 |]. split; [exact H1 |]. exact Hl0.
Defined.

Lemma action_failures_are_caught_and_logged_witness :
  let s := advance_counters (run two_listeners_locked_player) in
  let data := mkGain "A" 2 "steve" in
  (removeItemsFromInventory "A" 2 locked_slots).1 = Throw "container is locked"
  ∧ (actions_remove 0 "A" 2 s).1 = Normal tt
  ∧ console (actions_remove 0 "A" 2 s).2
    = ["Failed to remove items: container is locked"]
  ∧ (∃ s' new_calls,
       fanout 0 data s = (Normal tt, s')
       ∧ calls s' = calls s ++ new_calls
       ∧ filter (fun c => c.1 = 1%nat) new_calls = [(1%nat, data)])
  ∧ console (fanout 0 data s).2 = ["Failed to remove items: container is locked"].
Proof.
  intros s data.
  destruct action_failures_are_caught_and_logged
    as (Hreturns & Hlogs & _ & _ & Hfanout).
  split; [by vm_compute |]. split; [apply Hreturns |].
  split; [exact (Hlogs 0%nat "A" 2 s locked_slots "container is locked"
                   eq_refl eq_refl) |].
  split; [| by vm_compute].
  destruct (Hfanout 0%nat data s) as (s' & new_calls & Hrun & Hcalls & Heach).
  { vm_compute. repeat constructor. }
  exists s', new_calls. split; [exact Hrun |]. split; [exact Hcalls |].
  exact (Heach 1%nat (mkListener [] 10 10) eq_refl eq_refl).
Defined.

Lemma unparsable_body_of_a_successful_response_rejects_witness :
  let config : HttpReq.Config unit :=
    HttpReq.mkConfig (HttpReq.Value "https://example.com/api") None
      HttpReq.Undefined HttpReq.Undefined None in
  HttpReq.httpReq HttpReq.toUpperCase_ascii HttpReq.stringify_null
    HttpReq.parse_null
    (fun _ => Normal (HttpReq.mkResponse 200 (Some "<html>") []))
    config []
  = (Throw "HTTP request failed: Unexpected token",
     [HttpReq.mkRequest "https://example.com/api" HttpReq.Get None []]).
Proof.
  intros config.
  exact (unparsable_body_of_a_successful_response_rejects
           HttpReq.toUpperCase_ascii HttpReq.stringify_null HttpReq.parse_null
           (fun _ => Normal (HttpReq.mkResponse 200 (Some "<html>") []))
           config []
           (HttpReq.mkRequest "https://example.com/api" HttpReq.Get None [])
           (HttpReq.mkResponse 200 (Some "<html>") [])
           "<html>" "Unexpected token"
           eq_refl eq_refl eq_refl eq_refl ltac:(discriminate) eq_refl).
Defined.

Lemma missing_url_and_transport_failure_witness :
  let failing (_ : HttpReq.HttpRequest) : Completion HttpReq.HttpResponse :=
    Throw "connection refused" in
  let run stringify url body :=
    HttpReq.httpReq HttpReq.toUpperCase_ascii stringify HttpReq.parse_null failing
      (HttpReq.mkConfig url None HttpReq.Undefined body None) [] in
  run HttpReq.stringify_null (HttpReq.Value "") HttpReq.Undefined
  = (Throw "URL is required", [])
  ∧ run HttpReq.stringify_circular (HttpReq.Value "https://example.com")
      (HttpReq.Value (HttpReq.BodyObject tt))
    = (Throw "Converting circular structure to JSON", [])
  ∧ (run HttpReq.stringify_null (HttpReq.Value "https://example.com")
       HttpReq.Undefined).1
    = Throw "HTTP request failed: connection refused"
  ∧ length (run HttpReq.stringify_null (HttpReq.Value "https://example.com")
              HttpReq.Undefined).2 = 1%nat.
Proof.
  intros failing run.
  pose proof (missing_url_and_transport_failure HttpReq.toUpperCase_ascii
                HttpReq.stringify_null HttpReq.parse_null failing
                (HttpReq.mkConfig (HttpReq.Value "") None HttpReq.Undefined
                   HttpReq.Undefined None) []) as Hmissing.
  pose proof (missing_url_and_transport_failure HttpReq.toUpperCase_ascii
                HttpReq.stringify_circular HttpReq.parse_null failing
                (HttpReq.mkConfig (HttpReq.Value "https://example.com") None
                   HttpReq.Undefined (HttpReq.Value (HttpReq.BodyObject tt)) None)
                []) as Hcircular.
  pose proof (missing_url_and_transport_failure HttpReq.toUpperCase_ascii
                HttpReq.stringify_null HttpReq.parse_null failing
                (HttpReq.mkConfig (HttpReq.Value "https://example.com") None
                   HttpReq.Undefined HttpReq.Undefined None) []) as Hfails.
  cbn zeta in Hmissing, Hcircular, Hfails.
  rewrite decide_True in Hmissing by (by right; right).
  rewrite decide_False in Hcircular by (by intros [?|[?|?]]).
  rewrite decide_False in Hfails by (by intros [?|[?|?]]).
  destruct Hcircular as [Hcircular _].
  destruct Hfails as (Honce & _ & Hwrap).
  split; [exact Hmissing |]. split; [exact Hcircular |]. split.
  - exact (Hwrap "connection refused" eq_refl).
  - unfold run. by rewrite Honce.
Defined.

(** * Further properties of the tracker *)

(** ** Registration *)

(** X1. [listen] checks the callback first and the period second: a
    callback that is not a function is rejected, whatever the tick, with
    ["Callback must be a function"]; otherwise a tick that is not an
    integer ([Number.isInteger] fails: 1.5, NaN, a string) or is an
    integer below 1 is rejected with ["Tick must be a positive integer"];
    an omitted tick counts as 10. A rejected call throws and leaves the
    module and the host as they were. An accepted call (a function, and
    an integer tick of at least 1) returns, appends one listener with
    counter 0 after the listeners already there, and leaves a recurring
    poll scheduled; the cache, the players, the console and the recorded
    calls are untouched. *)
Theorem listen_rejects_or_registers
  (cb : option Callback) (t : TickArg) (s : State) :
  let r := listen cb t s in
  match cb, tick_or_default t with
  | None, _ => r = (Throw "Callback must be a function", s)
  | Some f, TickInteger z =>
      if decide (1 ≤ z) then
        r.1 = Normal tt
        ∧ listeners r.2 = listeners s ++ [mkListener f z 0]
        ∧ is_Some (systemIntervalId r.2)
        ∧ playerCache r.2 = playerCache s
        ∧ players r.2 = players s
        ∧ console r.2 = console s
        ∧ calls r.2 = calls s
      else r = (Throw "Tick must be a positive integer", s)
  | Some _, _ => r = (Throw "Tick must be a positive integer", s)
  end.
Proof.
  intros r. unfold r, listen.
  destruct cb as [f|]; [| done].
  destruct (tick_or_default t) as [|z|]; try done.
  destruct (decide (1 ≤ z)) as [Hz|Hz].
  - destruct (Z.ltb_spec z 1) as [|_]; [lia |].
    unfold adjustSystemInterval, startSystemInterval, system_clearRun,
      system_runInterval.
    unfold_M. cbn.
    destruct (decide (minTick_of _ ≠ _)); cbn;
      destruct (systemIntervalId s) eqn:Hid; cbn; rewrite ?Hid; cbn.
    all: by repeat split.
  - destruct (Z.ltb_spec z 1) as [_|]; [done | lia].
Qed.

Lemma running_inv_listen cb t : preserves running_inv (listen cb t).
Proof.
  intros s [Hidle Hlog]. unfold listen.
  destruct cb as [f|]; [| done].
  destruct (tick_or_default t) as [|z|]; try done.
  destruct (Z.ltb_spec z 1) as [|_]; [done |].
  unfold adjustSystemInterval, startSystemInterval, system_clearRun,
    system_runInterval.
  unfold_M. cbn.
  destruct (decide (minTick_of _ ≠ _)) as [Hne|Heq]; cbn;
    destruct (systemIntervalId s) as [h|] eqn:Hid; cbn; rewrite ?Hid; cbn;
    unfold running_inv; cbn; rewrite ?Hid; cbn.
  - split; [| by eexists]. split; [| done].
    intros Hnil. by apply app_nil in Hnil as [_ ?].
  - split; [| by eexists]. split; [| done].
    intros Hnil. by apply app_nil in Hnil as [_ ?].
  - apply dec_stable in Heq. split.
    + split; [| done]. intros Hnil. by apply app_nil in Hnil as [_ ?].
    + rewrite ?Hid in Hlog. exact Hlog.
  - split; [| by eexists]. split; [| done].
    intros Hnil. by apply app_nil in Hnil as [_ ?].
Qed.

Lemma running_inv_listeners f s :
  (∀ ls, f ls = [] ↔ ls = []) →
  running_inv s → running_inv (set_listeners f s).
Proof.
  intros Hf [Hidle Hlog]. split; [| done]. cbn. by rewrite Hf.
Qed.

Lemma running_inv_run events : running_inv (run events).
Proof.
  apply preserved_by_run; try done.
  - intros s. apply running_inv_listeners. intros ls.
    split; [apply fmap_nil_inv | by intros ->].
  - intros k f s. apply running_inv_listeners. intros ls.
    split; [| by intros ->].
    intros Hnil. apply (f_equal length) in Hnil.
    rewrite length_alter in Hnil. by apply nil_length_inv.
  - apply running_inv_listen.
Qed.

Lemma listeners_never_removed more s :
  (length (listeners s) ≤ length (listeners (fold_left step more s)))%nat.
Proof.
  generalize (Nat.le_refl (length (listeners s))).
  generalize (length (listeners s)) at 1 3 as n.
  intros n. revert s. induction more as [|e more IH]; intros s Hs; [done |].
  cbn [fold_left]. apply IH.
  apply (preserves_step (fun s' => (n ≤ length (listeners s'))%nat)); try done.
  - intros s0 Hs0. cbn. by rewrite length_fmap.
  - intros k f s0 Hs0. cbn. by rewrite length_alter.
  - intros cb t s0 Hs0. destruct (listen_grows cb t s0) as (_ & _ & extra & -> & _).
    rewrite length_app. lia.
Qed.

(** X2. Over any sequence of registrations, timer firings and world
    changes the scheduler is idle (no handle held, no scheduler call ever
    made) exactly as long as no listener is registered; from the first
    accepted registration on it runs and never returns to idle, and the
    last call the scheduler received created the task whose handle the
    module holds, at the current poll period. *)
Theorem scheduler_runs_iff_registered (events : list Event) :
  let s := run events in
  (listeners s = [] ↔ systemIntervalId s = None)
  ∧ (systemIntervalId s = None → host_calls s = [])
  ∧ (∀ h, systemIntervalId s = Some h →
       ∃ pre, host_calls s = pre ++ [RunInterval h (systemIntervalTick s)])
  ∧ (∀ more, listeners s ≠ [] → systemIntervalId (fold_left step more s) ≠ None).
Proof.
  intros s. destruct (running_inv_run events) as [Hidle Hlog]. fold s in Hidle, Hlog.
  split; [done |]. split; [| split].
  - intros Hid. by rewrite Hid in Hlog.
  - intros h Hid. by rewrite Hid in Hlog.
  - intros more Hne.
    assert (Hrun : fold_left step more s = run (events ++ more)).
    { unfold s, run. by rewrite fold_left_app. }
    rewrite Hrun. intros Hid.
    apply (proj1 (running_inv_run (events ++ more))) in Hid.
    pose proof (listeners_never_removed more s) as Hlen.
    rewrite Hrun, Hid in Hlen. destruct (listeners s); [done | cbn in Hlen; lia].
Qed.

Lemma scheduler_runs_iff_registered_witness :
  let s := run two_listeners_locked_player in
  systemIntervalId s = Some 0%nat
  ∧ host_calls s = [] ++ [RunInterval 0 10]
  ∧ systemIntervalId (fold_left step [TimerFires; WorldChanges []] s) ≠ None.
Proof.
  intros s.
  destruct (scheduler_runs_iff_registered two_listeners_locked_player)
    as (_ & _ & Hlast & Hnever).
  split; [by vm_compute |]. split.
  - destruct (Hlast 0%nat) as [pre Hpre]; [by vm_compute |]. by vm_compute.
  - apply Hnever. by vm_compute.
Defined.

(** ** Removal, whatever the host does to the writes *)

Lemma reduced_slot_refl slot : reduced_slot slot slot.
Proof. by left. Qed.

Lemma reduced_slot_trans s1 s2 s3 :
  reduced_slot s1 s2 → reduced_slot s2 s3 → reduced_slot s1 s3.
Proof.
  intros [->|(item & -> & H12)] H23; [done |].
  destruct H12 as [->|(a & -> & Ha)].
  - destruct H23 as [->|(item' & ? & _)]; [| done].
    right. exists item. split; [done | by left].
  - destruct H23 as [->|(item' & [= <-] & H23)].
    + right. exists item. split; [done |]. right. by exists a.
    + right. exists item. split; [done |].
      destruct H23 as [->|(a' & -> & Ha')]; [by left | right].
      exists a'. cbn in *. split; [done | lia].
Qed.

Lemma shrunk_refl inv : shrunk inv inv.
Proof. split; [done |]. apply Forall2_same_length_lookup. split; [done |].
  intros i x y Hx Hy. assert (x = y) as -> by congruence. apply reduced_slot_refl.
Qed.

Lemma shrunk_trans inv1 inv2 inv3 : shrunk inv1 inv2 → shrunk inv2 inv3 → shrunk inv1 inv3.
Proof.
  intros [Hf1 H1] [Hf2 H2]. split; [congruence |].
  revert H2. generalize (slots inv3). induction H1 as [|x y l k Hxy _ IH];
    intros l3 H3; inversion H3; subst; constructor.
  - by eapply reduced_slot_trans.
  - by apply IH.
Qed.

Lemma shrunk_setItem i v inv slot :
  slots inv !! i = Some slot → reduced_slot slot v →
  shrunk inv (setItem i v inv).2.
Proof.
  intros Hi Hred. unfold setItem.
  destruct (write_fault inv i); cbn; [apply shrunk_refl |].
  split; [done |]. cbn.
  rewrite <- (list_insert_id _ _ _ Hi) at 1.
  apply Forall2_insert; [| done].
  apply Forall2_same_length_lookup. split; [done |].
  intros j x y Hx Hy. assert (x = y) as -> by congruence. apply reduced_slot_refl.
Qed.

Lemma held_in_insert type sl i old v :
  sl !! i = Some old →
  held_in type (<[i:=v]> sl)
  = held_in type sl - slot_amount type old + slot_amount type v.
Proof.
  revert i. induction sl as [|slot sl IH]; intros [|i] Hi; try done.
  - injection Hi as ->. cbn. destruct old, v; cbn; lia.
  - cbn in Hi. specialize (IH _ Hi).
    change (<[S i:=v]> (slot :: sl)) with (slot :: <[i:=v]> sl).
    cbn [held_in]. destruct slot; lia.
Qed.

Lemma held_in_other type sl sl' :
  Forall2 reduced_slot sl sl' →
  (∀ j item, sl !! j = Some (Some item) → typeId item = type →
     sl' !! j = Some (Some item)) →
  held_in type sl' = held_in type sl.
Proof.
  induction 1 as [|slot slot' sl sl' Hred _ IH]; intros Hkeep; [done |].
  assert (IH' : held_in type sl' = held_in type sl).
  { apply IH. intros j item Hj. by apply (Hkeep (S j)). }
  destruct Hred as [->|(item & -> & Hred)]; [destruct slot; cbn [held_in]; lia |].
  destruct (decide (typeId item = type)) as [Heq|Hne].
  - specialize (Hkeep 0%nat item eq_refl Heq). cbn in Hkeep.
    injection Hkeep as ->. cbn [held_in]. lia.
  - destruct Hred as [->|(a & -> & Ha)]; cbn [held_in typeId amount];
      rewrite ?decide_False by done; lia.
Qed.

Lemma nonneg_amounts_shrunk inv inv' :
  shrunk inv inv' → nonneg_amounts inv → nonneg_amounts inv'.
Proof.
  intros [_ Hsl] Hnn i item' Hi. unfold getItem in *.
  destruct (slots inv' !! i) as [slot'|] eqn:Hi'; [| done]. cbn in Hi. subst slot'.
  destruct (Forall2_lookup_r _ _ _ _ _ Hsl Hi') as (slot & Hslot & Hred).
  destruct Hred as [Heq|(item & -> & [?|(a & [= ->] & Ha)])]; [| done |].
  - apply (Hnn i). unfold getItem. by rewrite Hslot, <- Heq.
  - cbn. lia.
Qed.



(** The loop, from any slot on and whether or not a write throws. *)
Lemma remove_loop_frame type n i remaining inv :
  let r := remove_loop type n i remaining inv in
  shrunk inv r.2
  ∧ (∀ j item, slots inv !! j = Some (Some item) → typeId item ≠ type →
       slots r.2 !! j = Some (Some item))
  ∧ (nonneg_amounts inv →
     0 ≤ held type inv - held type r.2 ≤ Z.max 0 remaining).
Proof.
  revert i remaining inv. induction n as [|n IH]; intros i remaining inv.
  { cbn. split; [apply shrunk_refl |]. split; [done |]. intros _. lia. }
  cbn [remove_loop]. destruct (Z.ltb_spec 0 remaining) as [Hpos|Hle].
  2:{ cbn. split; [apply shrunk_refl |]. split; [done |]. intros _. lia. }
  unfold_M. cbn.
  destruct (getItem inv i) as [item|] eqn:Hget; [| apply IH].
  destruct (decide (typeId item = type)) as [Htype|Hne]; [| apply IH].
  assert (Hi : slots inv !! i = Some (Some item)).
  { unfold getItem in Hget. destruct (slots inv !! i) as [[x|]|]; cbn in Hget; congruence. }
  assert (Hstep : ∀ v remaining',
    reduced_slot (Some item) v →
    (nonneg_amounts inv →
       0 ≤ amount item - slot_amount type v
       ∧ amount item - slot_amount type v + Z.max 0 remaining' ≤ remaining) →
    let r := (setItem i v ;; remove_loop type n (S i) remaining') inv in
    shrunk inv r.2
    ∧ (∀ j it, slots inv !! j = Some (Some it) → typeId it ≠ type →
         slots r.2 !! j = Some (Some it))
    ∧ (nonneg_amounts inv →
       0 ≤ held type inv - held type r.2 ≤ Z.max 0 remaining)).
  { intros v remaining' Hred Hbound. unfold_M.
    pose proof (shrunk_setItem i v inv _ Hi Hred) as Hsh.
    unfold setItem in *. destruct (write_fault inv i) as [msg|] eqn:Hfault.
    - cbn. split; [apply shrunk_refl |]. split; [done |]. intros _. lia.
    - cbn [fst snd] in *.
      set (inv1 := mkContainer (<[i:=v]> (slots inv)) (write_fault inv)) in *.
      destruct (IH (S i) remaining' inv1) as (Hsh1 & Hother1 & Hheld1).
      split; [by eapply shrunk_trans |]. split.
      + intros j it Hj Hit. apply Hother1; [| done]. unfold inv1. cbn.
        destruct (decide (j = i)) as [->|Hji]; [congruence |].
        by rewrite list_lookup_insert_ne.
      + intros Hnn. specialize (Hheld1 (nonneg_amounts_shrunk _ _ Hsh Hnn)).
        destruct (Hbound Hnn) as [Hb1 Hb2].
        assert (Hinv1 : held type inv1
                        = held type inv - amount item + slot_amount type v).
        { unfold held, inv1. cbn [slots].
          rewrite (held_in_insert _ _ _ _ _ Hi). cbn.
          by rewrite decide_True. }
        lia. }
  destruct (Z.leb_spec (amount item) remaining) as [Hfit|Hmore].
  - apply Hstep.
    + right. exists item. split; [done | by left].
    + intros Hnn. pose proof (Hnn i item Hget). cbn. lia.
  - apply Hstep.
    + right. exists item. split; [done |]. right. eexists. split; [done | lia].
    + intros Hnn. cbn. rewrite decide_True by done. lia.
Qed.

(** X3. Whether it returns or stops at a write the host rejects,
    [removeItemsFromInventory] leaves the number of slots as it was,
    leaves every slot untouched, cleared or with a smaller stack of the
    same type, touches no stack of another type, and, with non-negative
    amounts, takes away at most what was asked for. *)
Theorem removal_never_adds_nor_exceeds
  (type : string) (amountToRemove : Z) (inventory : Container) :
  let r := removeItemsFromInventory type amountToRemove inventory in
  size r.2 = size inventory
  ∧ (∀ i, reduced_slot (getItem inventory i) (getItem r.2 i))
  ∧ (∀ i item, getItem inventory i = Some item → typeId item ≠ type →
       getItem r.2 i = Some item)
  ∧ (∀ other, other ≠ type → held other r.2 = held other inventory)
  ∧ (nonneg_amounts inventory →
     0 ≤ held type inventory - held type r.2 ≤ Z.max 0 amountToRemove).
Proof.
  intros r. unfold r, removeItemsFromInventory. unfold_M. cbn.
  destruct (remove_loop_frame type (size inventory) 0 amountToRemove inventory)
    as ([Hfault Hsl] & Hother & Hheld).
  set (inv' := (remove_loop type (size inventory) 0 amountToRemove inventory).2) in *.
  split; [| split; [| split; [| split]]].
  - unfold size. symmetry. by eapply Forall2_length.
  - intros i. unfold getItem.
    destruct (slots inventory !! i) as [slot|] eqn:Hi.
    + destruct (Forall2_lookup_l _ _ _ _ _ Hsl Hi) as (slot' & -> & Hred). done.
    + apply lookup_ge_None in Hi. rewrite (Forall2_length _ _ _ Hsl) in Hi.
      apply lookup_ge_None in Hi. rewrite Hi. by left.
  - intros i item Hget Hne. unfold getItem in *.
    destruct (slots inventory !! i) as [[x|]|] eqn:Hi; cbn in Hget; try done.
    injection Hget as ->. by rewrite (Hother i item Hi Hne).
  - intros other Hne. unfold held. apply held_in_other; [done |].
    intros j item Hj Heq. apply Hother; [done | congruence].
  - done.
Qed.

Lemma removal_never_adds_nor_exceeds_witness :
  let r := removeItemsFromInventory "A" 1 locked_slots in
  r.1 = Throw "container is locked"
  ∧ held "B" r.2 = held "B" locked_slots
  ∧ 0 ≤ held "A" locked_slots - held "A" r.2 ≤ Z.max 0 1.
Proof.
  intros r.
  assert (Hnn : nonneg_amounts locked_slots).
  { intros i item. destruct i as [|[|[|i]]]; cbn; intros Hi; simplify_eq; cbn; lia. }
  destruct (removal_never_adds_nor_exceeds "A" 1 locked_slots)
    as (_ & _ & _ & Hother & Hheld).
  split; [reflexivity |]. split.
  - apply Hother. discriminate.
  - exact (Hheld Hnn).
Defined.

Lemma get_snapshotInventory inventory type :
  JsMap.get (snapshotInventory inventory) type
  = if decide (type ∈ types_in (slots inventory))
    then Some (held type inventory) else None.
Proof.
  rewrite snapshotInventory_fold, get_fold_add_slot.
  case_decide; [| done]. unfold held. by f_equal.
Qed.

Lemma elem_of_diff player previous current g :
  JsMap.wf current →
  g ∈ diff player previous current →
  ∃ n, JsMap.get current (gain_typeId g) = Some n
       ∧ or_zero (JsMap.get previous (gain_typeId g)) < n
       ∧ g = mkGain (gain_typeId g)
               (n - or_zero (JsMap.get previous (gain_typeId g))) player.
Proof.
  intros Hwf Hg.
  assert (Hf : g ∈ filter (fun r => gain_typeId r = gain_typeId g)
                 (diff player previous current)).
  { by apply list_elem_of_filter. }
  rewrite filter_diff in Hf by done.
  destruct (JsMap.get current (gain_typeId g)) as [n|]; [| by apply elem_of_nil in Hf].
  destruct (Z.ltb_spec (or_zero (JsMap.get previous (gain_typeId g))) n);
    [| by apply elem_of_nil in Hf].
  apply list_elem_of_singleton in Hf. by exists n.
Qed.

Lemma nonneg_amounts_Forall inventory :
  nonneg_amounts inventory →
  Forall (fun slot => ∀ item, slot = Some item → 0 ≤ amount item) (slots inventory).
Proof.
  intros Hnn. apply Forall_lookup. intros i slot Hi item ->.
  apply (Hnn i). unfold getItem. by rewrite Hi.
Qed.

(** X4. [remove()] undoes the pickup it was handed: for a record of the
    diff of a player's inventory against the previous snapshot, removing
    the record's amount of the record's type (the host accepting the
    writes, amounts non-negative) brings the player's total of that type
    back to its previous count and leaves the totals of the other types
    as they are. *)
Theorem remove_undoes_the_pickup
  (player : string) (previous : Snapshot) (inventory : Container)
  (g : GainRecord)
  (Hhost : ∀ i, write_fault inventory i = None)
  (Hamounts : nonneg_amounts inventory)
  (Hprevious : 0 ≤ or_zero (JsMap.get previous (gain_typeId g)))
  (Hg : g ∈ diff player previous (snapshotInventory inventory)) :
  let r := removeItemsFromInventory (gain_typeId g) (gain_amount g) inventory in
  r.1 = Normal tt
  ∧ held (gain_typeId g) r.2 = or_zero (JsMap.get previous (gain_typeId g))
  ∧ (∀ other, other ≠ gain_typeId g → held other r.2 = held other inventory).
Proof.
  intros r. unfold r.
  destruct (elem_of_diff _ _ _ _ (snapshotInventory_wf inventory) Hg)
    as (n & Hn & Hlt & Heq).
  rewrite get_snapshotInventory in Hn. case_decide; [| done].
  injection Hn as <-.
  assert (Hamount : gain_amount g
                    = held (gain_typeId g) inventory
                      - or_zero (JsMap.get previous (gain_typeId g))).
  { by rewrite Heq at 1. }
  rewrite removeItemsFromInventory_described by done. cbn [fst snd].
  split; [done |]. unfold held in *. cbn [slots]. split.
  - rewrite held_in_remove_described;
      [lia | by apply nonneg_amounts_Forall | lia].
  - intros other Hne. by apply held_in_remove_described_other.
Qed.

Lemma remove_undoes_the_pickup_witness :
  let g := mkGain "A" 4 "steve" in
  g ∈ diff "steve" [("A", 2)] (snapshotInventory two_stacks)
  ∧ held "A" (removeItemsFromInventory "A" 4 two_stacks).2 = 2.
Proof.
  intros g.
  assert (Hg : g ∈ diff "steve" [("A", 2)] (snapshotInventory two_stacks)).
  { vm_compute. left. }
  assert (Hnn : nonneg_amounts two_stacks).
  { intros i item. destruct i as [|[|[|i]]]; cbn; intros Hi; simplify_eq; cbn; lia. }
  destruct (remove_undoes_the_pickup "steve" [("A", 2)] two_stacks g
              ltac:(reflexivity) Hnn ltac:(vm_compute; discriminate) Hg)
    as (_ & Hback & _).
  split; [exact Hg |]. etrans; [exact Hback | reflexivity].
Defined.

(** ** What a poll cycle leaves in the cache *)

(** Unfolds the monad operations in a hypothesis. *)
Ltac unfold_M_in H :=
  unfold mbind, mret, M_bind, M_ret, bind, ret, throw, modify, gets,
    try_catch in H.

Lemma player_kept_refl pl : player_kept pl pl.
Proof. split; [done |]. destruct (inventory pl); [apply shrunk_refl | done]. Qed.

Lemma player_kept_trans pl1 pl2 pl3 :
  player_kept pl1 pl2 → player_kept pl2 pl3 → player_kept pl1 pl3.
Proof.
  intros [Hn1 H1] [Hn2 H2]. split; [congruence |].
  destruct (inventory pl1), (inventory pl2), (inventory pl3); try done.
  by eapply shrunk_trans.
Qed.

Lemma Forall2_player_kept_refl ps : Forall2 player_kept ps ps.
Proof. induction ps; constructor; [apply player_kept_refl | done]. Qed.

Lemma Forall2_player_kept_trans ps1 ps2 ps3 :
  Forall2 player_kept ps1 ps2 → Forall2 player_kept ps2 ps3 →
  Forall2 player_kept ps1 ps3.
Proof.
  intros H1. revert ps3. induction H1 as [|x y l k Hxy _ IH];
    intros ps3 H3; inversion H3; subst; constructor.
  - by eapply player_kept_trans.
  - by apply IH.
Qed.

Lemma touches_only_refl p s : touches_only p s s.
Proof. split; [done |]. split; [apply Forall2_player_kept_refl | done]. Qed.

Lemma touches_only_trans p s1 s2 s3 :
  touches_only p s1 s2 → touches_only p s2 s3 → touches_only p s1 s3.
Proof.
  intros (Hc1 & Hk1 & Ho1) (Hc2 & Hk2 & Ho2).
  split; [congruence |]. split; [by eapply Forall2_player_kept_trans |].
  intros j Hj. by rewrite Ho2, Ho1.
Qed.

Lemma touches_only_same_world p s s' :
  players s' = players s → playerCache s' = playerCache s → touches_only p s s'.
Proof.
  intros Hp Hc. split; [done |]. rewrite Hp.
  split; [apply Forall2_player_kept_refl | done].
Qed.

Lemma listen_keeps_world cb t s :
  players (listen cb t s).2 = players s
  ∧ playerCache (listen cb t s).2 = playerCache s.
Proof.
  unfold listen. destruct cb as [cb|]; [| done].
  destruct (tick_or_default t) as [|z|]; try done.
  destruct (Z.ltb_spec z 1) as [|Hz]; [done |].
  unfold adjustSystemInterval, startSystemInterval, system_clearRun,
    system_runInterval.
  unfold_M. cbn.
  destruct (decide (minTick_of _ ≠ _)); cbn;
    destruct (systemIntervalId s) eqn:Hid; cbn; rewrite ?Hid; done.
Qed.

Lemma on_inventory_touches_only p m s :
  (∀ inv, shrunk inv (m inv).2) →
  touches_only p s (on_inventory p m s).2.
Proof.
  intros Hm. unfold on_inventory, inventory_at.
  destruct (players s !! p) as [pl|] eqn:Hp; [| apply touches_only_refl].
  destruct (inventory pl) as [inv|] eqn:Hinv; [| apply touches_only_refl].
  cbn. split; [done |]. split.
  - cbn. apply Forall2_same_length_lookup. split; [by rewrite length_alter |].
    intros j x y Hx Hy. rewrite list_lookup_alter in Hy.
    destruct (decide (p = j)) as [<-|Hne].
    + rewrite Hp in Hy, Hx. cbn in Hy. simplify_eq. split; [done |]. cbn.
      rewrite Hinv. apply Hm.
    + assert (x = y) as -> by congruence. apply player_kept_refl.
  - intros j Hj. cbn. by rewrite list_lookup_alter_ne.
Qed.

Lemma removeItemsFromInventory_shrunk type n inv :
  shrunk inv (removeItemsFromInventory type n inv).2.
Proof.
  unfold removeItemsFromInventory. unfold_M. cbn. apply remove_loop_frame.
Qed.

Lemma actions_remove_touches_only p type n s :
  touches_only p s (actions_remove p type n s).2.
Proof.
  pose proof (on_inventory_touches_only p (removeItemsFromInventory type n) s
                (removeItemsFromInventory_shrunk type n)) as Hon.
  unfold actions_remove, try_catch, console_error. unfold_M.
  by destruct (on_inventory p (removeItemsFromInventory type n) s) as [[[]|msg] s1].
Qed.

Lemma run_ops_touches_only k p data ops s :
  touches_only p s (run_ops k p data ops s).2.
Proof.
  revert s. induction ops as [|op ops IH]; intros s; [apply touches_only_refl |].
  cbn [run_ops]. unfold_M.
  assert (Hop : touches_only p s (run_op k p data op s).2).
  { destruct op as [|msg|cb t| | |];
      [apply actions_remove_touches_only | apply touches_only_refl | | ..];
      [| by apply touches_only_same_world ..].
    destruct (listen_keeps_world cb t s) as [Hp Hc].
    by apply touches_only_same_world. }
  destruct (run_op k p data op s) as [[[]|msg] s1]; [| done].
  eapply touches_only_trans; [exact Hop | apply IH].
Qed.

Lemma fanout_loop_touches_only n k p data s :
  touches_only p s (fanout_loop n k p data s).2.
Proof.
  revert k s. induction n as [|n IH]; intros k s; [apply touches_only_refl |].
  cbn [fanout_loop]. unfold_M. cbn.
  destruct (listeners s !! k) as [l|]; [| apply IH].
  destruct (due l); [| apply IH].
  unfold invoke. unfold_M. cbn.
  set (s0 := set_calls _ s).
  pose proof (run_ops_touches_only k p data (callback l) s0) as Hops.
  destruct (run_ops k p data (callback l) s0) as [[[]|msg] s1]; cbn [fst snd] in *.
  - eapply touches_only_trans; [by apply (touches_only_same_world p s s0) |].
    eapply touches_only_trans; [exact Hops |].
    eapply touches_only_trans; [| apply IH].
    by apply touches_only_same_world.
  - eapply touches_only_trans; [by apply (touches_only_same_world p s s0) | done].
Qed.

Lemma entries_loop_touches_only p player previous entries s :
  touches_only p s (entries_loop p player previous entries s).2.
Proof.
  revert s. induction entries as [|entry rest IH]; intros s; [apply touches_only_refl |].
  cbn [entries_loop]. destruct (pickedUp previous entry) as [n|]; [| apply IH].
  unfold fanout. unfold_M. cbn.
  pose proof (fanout_loop_touches_only (length (listeners s)) 0 p
                (mkGain entry.1 n player) s) as Hf.
  destruct (fanout_loop _ _ _ _ s) as [[[]|msg] s1]; cbn [fst snd] in *; [| done].
  eapply touches_only_trans; [exact Hf | apply IH].
Qed.

Lemma names_kept ps ps' :
  Forall2 player_kept ps ps' → name <$> ps' = name <$> ps.
Proof.
  induction 1 as [|pl pl' ps ps' [Hn _] _ IH]; [done |].
  rewrite !fmap_cons. by f_equal.
Qed.

Lemma players_loop_caches n p s s' :
  NoDup (name <$> players s) →
  n = length (drop p (players s)) →
  players_loop n p s = (Normal tt, s') →
  Forall2 player_kept (players s) (players s')
  ∧ (∀ j, (j < p)%nat → players s' !! j = players s !! j)
  ∧ (∀ j pl inv, (p ≤ j)%nat → players s !! j = Some pl →
       inventory pl = Some inv →
       playerCache s' !! name pl = Some (snapshotInventory inv))
  ∧ (∀ nm,
       (∀ j pl, (p ≤ j)%nat → players s !! j = Some pl → name pl = nm →
          inventory pl = None) →
       playerCache s' !! nm = playerCache s !! nm).
Proof.
  revert p s. induction n as [|n IH]; intros p s Hnames Hn Hrun.
  { cbn in Hrun. injection Hrun as <-.
    symmetry in Hn. apply nil_length_inv in Hn.
    split; [apply Forall2_player_kept_refl |]. split; [done |]. split; [| done].
    intros j pl inv Hj Hpl.
    assert (Hlen : (length (drop p (players s)) = 0)%nat) by by rewrite Hn.
    rewrite length_drop in Hlen. apply lookup_lt_Some in Hpl. lia. }
  assert (Hlt : (p < length (players s))%nat).
  { rewrite length_drop in Hn. lia. }
  destruct (lookup_lt_is_Some_2 (players s) p Hlt) as [pl Hp].
  assert (Hn' : ∀ s0, length (players s0) = length (players s) →
                       n = length (drop (S p) (players s0))).
  { intros s0 Hlen. rewrite length_drop in *. lia. }
  cbn [players_loop] in Hrun. unfold_M_in Hrun. cbn in Hrun. rewrite Hp in Hrun.
  destruct (inventory pl) as [inv|] eqn:Hinv.
  - pose proof (entries_loop_touches_only p (name pl)
                  (previous_of (playerCache s) (name pl))
                  (snapshotInventory inv) s) as (Hc1 & Hk1 & Ho1).
    destruct (entries_loop p (name pl) _ (snapshotInventory inv) s)
      as [[[]|msg] s1]; cbn [fst snd] in *; [| done].
    set (s2 := set_playerCache _ s1) in Hrun.
    assert (Hnames2 : name <$> players s2 = name <$> players s) by by apply names_kept.
    destruct (IH (S p) s2) as (Hk & Hbefore & Hcache & Hstale); try done.
    { by rewrite Hnames2. }
    { apply Hn'. cbn. symmetry. by eapply Forall2_length. }
    assert (Hdistinct : ∀ j pl', players s !! j = Some pl' → j ≠ p →
                                   name pl' ≠ name pl).
    { intros j pl' Hj Hjp Heq. apply Hjp.
      eapply (NoDup_lookup _ j p (name pl)); [exact Hnames | |].
      - by rewrite list_lookup_fmap, Hj, <- Heq.
      - by rewrite list_lookup_fmap, Hp. }
    split; [by eapply Forall2_player_kept_trans |]. split; [| split].
    + intros j Hj. rewrite Hbefore by lia. apply Ho1. lia.
    + intros j pl' inv' Hj Hpl' Hinv'.
      destruct (decide (j = p)) as [->|Hjp].
      * assert (pl' = pl) as -> by congruence.
        assert (inv' = inv) as -> by congruence.
        rewrite Hstale; [by apply lookup_insert_eq |].
        intros j' pl2 Hj' Hpl2 Heq. exfalso.
        cbn in Hpl2. rewrite Ho1 in Hpl2 by lia.
        apply (Hdistinct j' pl2 Hpl2); [lia | done].
      * apply (Hcache j); [lia | | done]. cbn. rewrite Ho1; done.
    + intros nm Hnm.
      assert (nm ≠ name pl).
      { intros ->. by rewrite (Hnm p pl) in Hinv. }
      rewrite Hstale.
      * cbn. rewrite lookup_insert_ne by done. by rewrite Hc1.
      * intros j pl' Hj Hpl' Heq. cbn in Hpl'. rewrite Ho1 in Hpl' by lia.
        apply (Hnm j); [lia | done | done].
  - destruct (IH (S p) s) as (Hk & Hbefore & Hcache & Hstale); try done.
    { by apply Hn'. }
    split; [done |]. split; [| split].
    + intros j Hj. apply Hbefore. lia.
    + intros j pl' inv' Hj Hpl' Hinv'.
      destruct (decide (j = p)) as [->|Hjp]; [congruence |].
      apply (Hcache j); [lia | done | done].
    + intros nm Hnm. apply Hstale. intros j pl' Hj. apply Hnm. lia.
Qed.

Lemma poll_caches_cycle_start s s' :
  NoDup (name <$> players s) →
  poll_cycle s = (Normal tt, s') →
  (∀ pl inv, pl ∈ players s → inventory pl = Some inv →
     playerCache s' !! name pl = Some (snapshotInventory inv))
  ∧ (∀ nm, (∀ pl, pl ∈ players s → name pl = nm → inventory pl = None) →
       playerCache s' !! nm = playerCache s !! nm)
  ∧ Forall2 player_kept (players s) (players s').
Proof.
  intros Hnames Hrun.
  unfold poll_cycle in Hrun. unfold_M_in Hrun. cbn in Hrun.
  destruct (players_loop_caches _ 0 (advance_counters s) s' Hnames
              ltac:(by rewrite drop_0) Hrun) as (Hk & _ & Hcache & Hstale).
  split; [| split; [| done]].
  - intros pl inv [j Hj]%list_elem_of_lookup Hinv.
    apply (Hcache j); [lia | done | done].
  - intros nm Hnm. rewrite Hstale; [done |].
    intros j pl _ Hj. apply Hnm. apply list_elem_of_lookup. by exists j.
Qed.


Lemma get_elem_of {V : Type} (m : JsMap.t V) k v :
  JsMap.wf m → (k, v) ∈ m → JsMap.get m k = Some v.
Proof.
  unfold JsMap.wf, JsMap.keys. induction m as [|[k0 v0] m IH]; intros Hwf Hin.
  - by apply elem_of_nil in Hin.
  - rewrite fmap_cons in Hwf. apply NoDup_cons in Hwf as [Hnin Hwf].
    cbn [JsMap.get]. apply elem_of_cons in Hin as [[= -> ->]|Hin].
    + by rewrite decide_True.
    + rewrite decide_False; [by apply IH |].
      intros ->. apply Hnin. apply list_elem_of_fmap. by exists (k, v).
Qed.

Lemma diff_nil player previous current :
  (∀ entry, entry ∈ current → entry.2 ≤ or_zero (JsMap.get previous entry.1)) →
  diff player previous current = [].
Proof.
  induction current as [|entry current IH]; intros Hle; [done |].
  rewrite diff_cons. unfold pickedUp.
  rewrite (proj2 (Z.leb_le _ _) (Hle entry ltac:(by left))).
  apply IH. intros e He. apply Hle. by right.
Qed.


Lemma gains_from_nil ps cache :
  NoDup (name <$> ps) →
  (∀ pl inv, pl ∈ ps → inventory pl = Some inv →
     diff (name pl) (previous_of cache (name pl)) (snapshotInventory inv) = []) →
  gains_from ps cache = [].
Proof.
  revert cache. induction ps as [|pl ps IH]; intros cache Hnames Hdiff; [done |].
  rewrite fmap_cons in Hnames. apply NoDup_cons in Hnames as [Hnin Hnames].
  cbn [gains_from]. destruct (inventory pl) as [inv|] eqn:Hinv.
  - rewrite (Hdiff pl inv) by (by left || done). cbn [app].
    apply IH; [done |]. intros pl2 inv2 Hin2 Hinv2.
    unfold previous_of. rewrite lookup_insert_ne.
    + apply Hdiff; [by right | done].
    + intros Heq. apply Hnin. rewrite Heq. apply list_elem_of_fmap. by exists pl2.
  - apply IH; [done |]. intros pl2 inv2 Hin2. apply Hdiff. by right.
Qed.





(** ** A callback that throws *)

Lemma listen_outcome cb t s :
  (listen cb t s).1
  = match op_outcome (OpListen cb t) with
    | None => Normal tt
    | Some msg => Throw msg
    end.
Proof.
  unfold listen. cbn. destruct cb as [cb|]; [| done].
  destruct (tick_or_default t) as [|z|]; try done.
  destruct (z <? 1); [done |].
  unfold adjustSystemInterval, startSystemInterval, system_clearRun,
    system_runInterval.
  unfold_M. cbn.
  destruct (decide (minTick_of _ ≠ _)); cbn;
    destruct (systemIntervalId s) eqn:Hid; cbn; rewrite ?Hid; done.
Qed.

Lemma run_ops_outcome k p data ops s :
  (run_ops k p data ops s).1
  = match callback_outcome ops with
    | None => Normal tt
    | Some msg => Throw msg
    end.
Proof.
  revert s. induction ops as [|op ops IH]; intros s; [done |].
  cbn [run_ops callback_outcome]. unfold_M.
  assert (Hop : (run_op k p data op s).1
                = match op_outcome op with
                  | None => Normal tt
                  | Some msg => Throw msg
                  end).
  { destruct op; try done; [apply actions_remove_returns | apply listen_outcome]. }
  destruct (run_op k p data op s) as [r s1]. cbn in Hop. subst r.
  destruct (op_outcome op); [done | apply IH].
Qed.

Lemma fanout_loop_throws n k0 p data s k l msg :
  (k0 ≤ k < k0 + n)%nat →
  listeners s !! k = Some l →
  due l = true →
  callback_outcome (callback l) = Some msg →
  keeps_entry (callback l) →
  (∀ j l', (k0 ≤ j < k)%nat → listeners s !! j = Some l' → due l' = true →
     callback_outcome (callback l') = None ∧ keeps_entry (callback l')) →
  ∃ s', fanout_loop n k0 p data s = (Throw msg, s')
    ∧ calls s' = calls s ++ fired k0 (S k - k0) (listeners s) data
    ∧ playerCache s' = playerCache s
    ∧ (∀ j l', listeners s !! j = Some l' →
         listeners s' !! j
         = Some (if decide (k0 ≤ j < k)%nat then fire l' else l')).
Proof.
  revert k0 s. induction n as [|n IH];
    intros k0 s Hk Hl Hdue Hthrow Hkeep Hbefore; [lia |].
  cbn [fanout_loop]. unfold_M. cbn.
  destruct (decide (k0 = k)) as [->|Hne].
  - (* the listener that throws *)
    rewrite Hl, Hdue. unfold invoke. unfold_M. cbn.
    set (s0 := set_calls _ s).
    pose proof (run_ops_grows k p data (callback l) s0 Hkeep)
      as (Hcalls & Hcache & extra & Hls & _).
    pose proof (run_ops_outcome k p data (callback l) s0) as Hout.
    rewrite Hthrow in Hout.
    destruct (run_ops k p data (callback l) s0) as [r s1]. cbn [fst snd] in *.
    subst r. exists s1. split; [done |]. split; [| split; [done |]].
    + rewrite Hcalls. cbn. replace (S k - k)%nat with 1%nat by lia.
      by rewrite fired_S, Hl, Hdue.
    + intros j l' Hj. rewrite decide_False by lia.
      rewrite Hls. by apply lookup_app_l_Some.
  - assert (Hlen : (k < length (listeners s))%nat) by by eapply lookup_lt_Some.
    destruct (lookup_lt_is_Some_2 (listeners s) k0) as [l0 Hk0]; [lia |].
    rewrite Hk0.
    assert (Hsuc : (S k - k0 = S (S k - S k0))%nat) by lia.
    destruct (due l0) eqn:Hdue0.
    + (* a due listener before it: called and reset *)
      unfold invoke. unfold_M. cbn.
      set (s0 := set_calls _ s).
      destruct (Hbefore k0 l0 ltac:(lia) Hk0 Hdue0) as [Hreturns0 Hkeep0].
      pose proof (run_ops_grows k0 p data (callback l0) s0 Hkeep0)
        as (Hcalls & Hcache & extra & Hls & _).
      pose proof (run_ops_outcome k0 p data (callback l0) s0) as Hout.
      rewrite Hreturns0 in Hout.
      destruct (run_ops k0 p data (callback l0) s0) as [r s1]. cbn [fst snd] in *.
      subst r. cbn in Hcalls, Hcache, Hls.
      set (s2 := reset_counter k0 s1).
      assert (Hlook2 : ∀ j x, listeners s !! j = Some x →
                listeners s2 !! j = Some (if decide (j = k0) then fire l0 else x)).
      { intros j x Hj. unfold s2. cbn. rewrite Hls.
        destruct (decide (j = k0)) as [->|Hjk].
        - rewrite list_lookup_alter_eq, (lookup_app_l_Some _ _ _ _ Hk0). cbn.
          unfold fire. by rewrite Hdue0.
        - rewrite list_lookup_alter_ne by done. by apply lookup_app_l_Some. }
      assert (Hcalls2 : calls s2 = calls s ++ [(k0, data)]) by done.
      assert (Hcache2 : playerCache s2 = playerCache s) by done.
      destruct (IH (S k0) s2) as (s' & Hrun & Hc' & Hp' & Hb'); try done.
      { lia. }
      { rewrite (Hlook2 _ _ Hl). by rewrite decide_False by lia. }
      { intros j l' Hj Hl' Hd'.
        destruct (lookup_lt_is_Some_2 (listeners s) j) as [y Hy]; [lia |].
        rewrite (Hlook2 _ _ Hy), decide_False in Hl' by lia.
        injection Hl' as <-. apply (Hbefore j); [lia | done | done]. }
      exists s'. split; [exact Hrun |]. split; [| split; [congruence |]].
      * rewrite Hc', Hcalls2, Hsuc, fired_S, Hk0, Hdue0.
        rewrite <- app_assoc. f_equal. f_equal. apply fired_ext.
        intros j Hj.
        destruct (lookup_lt_is_Some_2 (listeners s) j) as [y Hy]; [lia |].
        rewrite Hy, (Hlook2 _ _ Hy). by rewrite decide_False by lia.
      * intros j x Hj. rewrite (Hb' _ _ (Hlook2 _ _ Hj)).
        destruct (decide (j = k0)) as [->|Hjk].
        -- rewrite decide_False, decide_True by lia. congruence.
        -- f_equal. repeat case_decide; try done; lia.
    + (* a listener before it that is not due *)
      destruct (IH (S k0) s) as (s' & Hrun & Hc' & Hp' & Hb'); try done.
      { lia. }
      { intros j l' Hj. apply Hbefore. lia. }
      exists s'. split; [exact Hrun |]. split; [| split; [done |]].
      * by rewrite Hc', Hsuc, fired_S, Hk0, Hdue0.
      * intros j x Hj. rewrite (Hb' _ _ Hj).
        destruct (decide (j = k0)) as [->|Hjk].
        -- rewrite decide_False, decide_True by lia.
           assert (x = l0) as -> by congruence. unfold fire. by rewrite Hdue0.
        -- f_equal. repeat case_decide; try done; lia.
Qed.

(** X7. A callback that throws ends the fan-out of the record with its
    error: when the listener at [k] is due and its callback throws, the
    callbacks of the due listeners before it return, and none of these
    callbacks assigns to a listener entry (as [this.counter = 0] does
    for the entry of the callback itself), the fan-out throws that
    message; the due listeners up to [k] have been called, in order, and
    those before [k] reset; the listener at [k] keeps its counter (it is
    still due), and the listeners after it are neither called nor
    reset. *)
Theorem fanout_stops_at_the_first_throw
  (p : nat) (data : GainRecord) (s : State) (k : nat) (l : Listener)
  (msg : string)
  (Hl : listeners s !! k = Some l)
  (Hdue : due l = true)
  (Hthrow : callback_outcome (callback l) = Some msg)
  (Hkeep : keeps_entry (callback l))
  (Hbefore : ∀ j l', (j < k)%nat → listeners s !! j = Some l' → due l' = true →
               callback_outcome (callback l') = None
               ∧ keeps_entry (callback l')) :
  ∃ s', fanout p data s = (Throw msg, s')
    ∧ calls s' = calls s ++ fired 0 (S k) (listeners s) data
    ∧ (∀ j l', listeners s !! j = Some l' →
         listeners s' !! j = Some (if decide (j < k)%nat then fire l' else l')).
Proof.
  pose proof (lookup_lt_Some _ _ _ Hl) as Hlen.
  destruct (fanout_loop_throws (length (listeners s)) 0 p data s k l msg)
    as (s' & Hrun & Hc & _ & Hb); try done.
  { lia. }
  { intros j l' Hj. apply Hbefore. lia. }
  exists s'. split; [| split].
  - unfold fanout. unfold_M. cbn. exact Hrun.
  - by rewrite Hc, Nat.sub_0_r.
  - intros j l' Hj. rewrite (Hb _ _ Hj). f_equal.
    repeat case_decide; try done; lia.
Qed.

Lemma diff_player player previous current g :
  g ∈ diff player previous current → gain_player g = player.
Proof.
  induction current as [|entry current IH]; rewrite ?diff_cons.
  - by intros ?%elem_of_nil.
  - destruct (pickedUp previous entry); [| done].
    intros [->|?]%elem_of_cons; [done | auto].
Qed.

Lemma gains_from_player ps cache g :
  g ∈ gains_from ps cache → gain_player g ∈ name <$> ps.
Proof.
  revert cache. induction ps as [|pl ps IH]; intros cache; cbn [gains_from].
  - by intros ?%elem_of_nil.
  - rewrite fmap_cons. destruct (inventory pl).
    + intros [Hg|Hg]%elem_of_app; apply elem_of_cons.
      * left. by apply diff_player in Hg.
      * right. by eapply IH.
    + intros Hg. apply elem_of_cons. right. by eapply IH.
Qed.

Lemma players_loop_throws n p s k l msg g rest :
  NoDup (name <$> players s) →
  n = length (drop p (players s)) →
  gains_from (drop p (players s)) (playerCache s) = g :: rest →
  listeners s !! k = Some l →
  due l = true →
  callback_outcome (callback l) = Some msg →
  keeps_entry (callback l) →
  (∀ j l', (j < k)%nat → listeners s !! j = Some l' → due l' = true →
     callback_outcome (callback l') = None ∧ keeps_entry (callback l')) →
  ∃ s', players_loop n p s = (Throw msg, s')
    ∧ calls s' = calls s ++ fired 0 (S k) (listeners s) g
    ∧ playerCache s' !! gain_player g = playerCache s !! gain_player g
    ∧ (∀ j l', listeners s !! j = Some l' →
         listeners s' !! j = Some (if decide (j < k)%nat then fire l' else l')).
Proof.
  revert p s. induction n as [|n IH];
    intros p s Hnames Hn Hgains Hl Hdue Hthrow Hkeep Hbefore.
  { symmetry in Hn. apply nil_length_inv in Hn. by rewrite Hn in Hgains. }
  destruct (drop p (players s)) as [|pl later] eqn:Hdrop; [done |].
  assert (Hp : players s !! p = Some pl).
  { rewrite <- (take_drop p (players s)), Hdrop.
    assert (p < length (players s))%nat.
    { destruct (decide (p < length (players s))%nat); [done |].
      rewrite drop_ge in Hdrop by lia. done. }
    rewrite lookup_app_r by (rewrite length_take; lia).
    rewrite length_take, Nat.min_l by lia. by rewrite Nat.sub_diag. }
  assert (Hlater : later = drop (S p) (players s)).
  { rewrite (drop_S _ _ _ Hp) in Hdrop. congruence. }
  cbn [players_loop]. cbn [gains_from] in Hgains. unfold_M. cbn. rewrite Hp.
  destruct (inventory pl) as [inv|].
  - rewrite entries_loop_delivers_diff.
    destruct (diff (name pl) (previous_of (playerCache s) (name pl))
                (snapshotInventory inv)) as [|g0 gs] eqn:Hdiff.
    + cbn [app] in Hgains. cbn.
      set (s2 := set_playerCache _ s).
      destruct (IH (S p) s2) as (s' & Hrun & Hc & Hcache & Hb); try done.
      { cbn. rewrite <- Hlater. cbn in Hn. lia. }
      { cbn. by rewrite <- Hlater. }
      exists s'. split; [exact Hrun |]. split; [done |]. split; [| done].
      rewrite Hcache. cbn. apply lookup_insert_ne.
      intros Heq.
      assert (Hin : gain_player g ∈ name <$> later).
      { apply (gains_from_player _ (<[name pl:=snapshotInventory inv]> (playerCache s))).
        rewrite Hgains. by left. }
      rewrite <- (take_drop p (players s)), Hdrop in Hnames.
      rewrite fmap_app, fmap_cons in Hnames.
      apply NoDup_app in Hnames as (_ & _ & Hnd).
      apply NoDup_cons in Hnd as [Hnin _]. apply Hnin. by rewrite Heq.
    + cbn [app] in Hgains. injection Hgains as -> _.
      cbn [deliver]. unfold fanout. unfold_M. cbn.
      destruct (fanout_loop_throws (length (listeners s)) 0 p g s k l msg)
        as (s' & Hrun & Hc & Hcache & Hb); try done.
      { apply lookup_lt_Some in Hl. lia. }
      { intros j l' Hj. apply Hbefore. lia. }
      rewrite Hrun. exists s'. split; [done |].
      split; [by rewrite Hc, Nat.sub_0_r |]. split; [by rewrite Hcache |].
      intros j l' Hj. rewrite (Hb _ _ Hj). f_equal.
      repeat case_decide; try done; lia.
  - destruct (IH (S p) s) as (s' & Hrun & Hres); try done.
    { rewrite <- Hlater. cbn in Hn. lia. }
    { by rewrite <- Hlater. }
    by exists s'.
Qed.

(** X8. A callback that throws aborts the poll cycle: when the cycle has
    a gain record, the first listener to be called with it whose
    callback throws is the one at [k], and none of the callbacks called
    up to then assigns to a listener entry (as [this.counter = 0] does
    for the entry of the callback itself), the cycle throws that message
    after calling the listeners up to [k] with the first record; that
    listener's counter stays at its advanced value, so it is due again;
    and (names being distinct) the cache entry of the record's player is
    not written, so the next poll compares against the old snapshot. *)
Theorem throwing_callback_aborts_the_poll
  (s : State) (k : nat) (l : Listener) (msg : string)
  (g : GainRecord) (rest : list GainRecord)
  (Hnames : NoDup (name <$> players s))
  (Hgains : cycle_gains s = g :: rest)
  (Hl : listeners s !! k = Some l)
  (Hdue : tick l ≤ counter l + systemIntervalTick s)
  (Hthrow : callback_outcome (callback l) = Some msg)
  (Hkeep : keeps_entry (callback l))
  (Hbefore : ∀ j l', (j < k)%nat → listeners s !! j = Some l' →
               tick l' ≤ counter l' + systemIntervalTick s →
               callback_outcome (callback l') = None
               ∧ keeps_entry (callback l')) :
  ∃ s', poll_cycle s = (Throw msg, s')
    ∧ calls s' = calls s ++ fired 0 (S k) (listeners (advance_counters s)) g
    ∧ listeners s' !! k
      = Some (mkListener (callback l) (tick l) (counter l + systemIntervalTick s))
    ∧ playerCache s' !! gain_player g = playerCache s !! gain_player g.
Proof.
  unfold poll_cycle. unfold_M. cbn.
  set (s0 := advance_counters s).
  set (l0 := mkListener (callback l) (tick l) (counter l + systemIntervalTick s)).
  assert (Hadv : ∀ j x, listeners s !! j = Some x →
            listeners s0 !! j
            = Some (mkListener (callback x) (tick x)
                      (counter x + systemIntervalTick s))).
  { intros j x Hj. cbn. by rewrite list_lookup_fmap, Hj. }
  destruct (players_loop_throws (length (players s)) 0 s0 k l0 msg g rest)
    as (s' & Hrun & Hc & Hcache & Hb); try done.
  - by apply Hadv.
  - unfold due. cbn. by apply Z.leb_le.
  - intros j l' Hj Hl' Hd'.
    destruct (lookup_lt_is_Some_2 (listeners s) j) as [x Hx].
    { apply lookup_lt_Some in Hl. lia. }
    rewrite (Hadv _ _ Hx) in Hl'. injection Hl' as <-. cbn.
    apply (Hbefore j x Hj Hx). unfold due in Hd'. cbn in Hd'. by apply Z.leb_le.
  - exists s'. split; [exact Hrun |]. split; [done |]. split; [| done].
    rewrite (Hb _ _ (Hadv _ _ Hl)). by rewrite decide_False by lia.
Qed.

Lemma thrower_then_listener_facts :
  let s := run thrower_then_listener in
  NoDup (name <$> players s)
  ∧ cycle_gains s = [mkGain "A" 4 "steve"; mkGain "B" 2 "steve"]
  ∧ listeners s !! 1%nat = Some (mkListener [OpRemove; OpThrow "boom"] 10 0)
  ∧ ∀ j l', (j < 1)%nat → listeners s !! j = Some l' →
      callback_outcome (callback l') = None ∧ keeps_entry (callback l').
Proof.
  intros s. split; [vm_compute; compute_done |]. split; [by vm_compute |].
  split; [by vm_compute |].
  intros j l' Hj. destruct j as [|j]; [| lia].
  vm_compute. intros [= <-]. by split.
Qed.

Lemma fanout_stops_at_the_first_throw_witness :
  let s := advance_counters (run thrower_then_listener) in
  let data := mkGain "A" 4 "steve" in
  (fanout 0 data s).1 = Throw "boom"
  ∧ (calls (fanout 0 data s).2).*1 = [0%nat; 1%nat]
  ∧ (listeners (fanout 0 data s).2 !! 2%nat = Some (mkListener [] 10 10)).
Proof.
  intros s data.
  assert (Hbefore : ∀ j l', (j < 1)%nat → listeners s !! j = Some l' →
            due l' = true →
            callback_outcome (callback l') = None ∧ keeps_entry (callback l')).
  { intros j l' Hj. destruct j as [|j]; [| lia].
    vm_compute. intros [= <-]. by split. }
  assert (Hkeep : keeps_entry [OpRemove; OpThrow "boom"]) by by repeat constructor.
  destruct (fanout_stops_at_the_first_throw 0 data s 1
              (mkListener [OpRemove; OpThrow "boom"] 10 10) "boom"
              eq_refl eq_refl eq_refl Hkeep Hbefore)
    as (s' & Hrun & Hc & Hb).
  rewrite Hrun. cbn [fst snd]. split; [done |]. split.
  - rewrite Hc. by vm_compute.
  - by rewrite (Hb 2%nat (mkListener [] 10 10) eq_refl).
Defined.

Lemma throwing_callback_aborts_the_poll_witness :
  let s := run thrower_then_listener in
  (poll_cycle s).1 = Throw "boom"
  ∧ playerCache (poll_cycle s).2 !! "steve" = None
  ∧ cycle_gains (poll_cycle s).2 = [mkGain "B" 2 "steve"].
Proof.
  intros s.
  destruct thrower_then_listener_facts as (Hnames & Hgains & Hl & Hbefore).
  assert (Hkeep : keeps_entry [OpRemove; OpThrow "boom"]) by by repeat constructor.
  destruct (throwing_callback_aborts_the_poll s 1 _ "boom" _ _
              Hnames Hgains Hl ltac:(by vm_compute) eq_refl Hkeep
              ltac:(intros j l' Hj Hl' _; by apply (Hbefore j)))
    as (s' & Hrun & _ & _ & Hcache).
  rewrite Hrun. cbn [fst snd]. split; [done |]. split.
  - etrans; [exact Hcache | by vm_compute].
  - assert (Hs' : s' = (poll_cycle s).2) by by rewrite Hrun.
    rewrite Hs'. by vm_compute.
Defined.


(** * Further properties of the block-break dispatcher *)

Section BlockBreakDispatch.

Import BlockBreak.

(** What callbacks that return do to the calls and to the registry,
    whatever they assign to [data]. *)
Lemma run_ops_return ops s :
  callback_outcome ops = None →
  ∃ s', run_ops ops s = (Normal tt, s')
    ∧ calls s' = calls s
    ∧ listeners s' = listeners s ++ registered ops.
Proof.
  revert s. induction ops as [|op ops IH]; intros s Hret.
  { exists s. by rewrite app_nil_r. }
  cbn in Hret. destruct (op_outcome op) eqn:Hop; [done |].
  cbn [run_ops]. unfold_M.
  destruct op as [| msg | [cb|] | id | loc]; try done; cbn [run_op].
  - unfold actions_restore, runCommand, console_error, try_catch. unfold_M.
    cbn [fst snd].
    destruct (command_fault s (setblock_command (data_object s))) as [msg|];
      cbn [fst snd].
    + destruct (IH (set_console (λ out, out ++ ["Failed to restore block: " +:+ msg]) s) Hret)
        as (s' & Hrun & Hc & Hl).
      exists s'. split; [exact Hrun | done].
    + destruct (IH (set_commands
                      (λ done, done ++ [(dimension (data_object s),
                                         setblock_command (data_object s))]) s) Hret)
        as (s' & Hrun & Hc & Hl).
      exists s'. split; [exact Hrun | done].
  - unfold listen. unfold_M.
    destruct (IH (set_listeners (λ ls, ls ++ [cb]) s) Hret) as (s' & Hrun & Hc & Hl).
    exists s'. split; [exact Hrun |]. split; [done |].
    cbn in Hl. by rewrite Hl, <- app_assoc.
  - unfold_M. cbn.
    destruct (IH (set_data_object
                    (λ data, mkBreakRecord (player data) id (location data)
                               (dimension data) (toolTypeId data)) s) Hret)
      as (s' & Hrun & Hc & Hl).
    exists s'. split; [exact Hrun | done].
  - unfold_M. cbn.
    destruct (IH (set_data_object
                    (λ data, mkBreakRecord (player data) (blockId data) loc
                               (dimension data) (toolTypeId data)) s) Hret)
      as (s' & Hrun & Hc & Hl).
    exists s'. split; [exact Hrun | done].
Qed.

(** What they do to the host when they leave [data] as it is. *)
Lemma restore_ops_return ops s :
  callback_outcome ops = None →
  keeps_data ops →
  let data := data_object s in
  ∃ s', run_ops ops s = (Normal tt, s')
    ∧ commands s'
      = commands s
        ++ issued data (command_fault s (setblock_command data)) (restores ops)
    ∧ console s'
      = console s ++ logged (command_fault s (setblock_command data)) (restores ops)
    ∧ command_fault s' = command_fault s
    ∧ data_object s' = data.
Proof.
  intros Hret Hkeep. revert s Hret.
  induction Hkeep as [|op ops Hop _ IH]; intros s Hret data.
  { exists s. cbn. unfold issued, logged.
    destruct (command_fault s _); by rewrite !app_nil_r. }
  cbn in Hret. destruct (op_outcome op) eqn:Hout; [done |].
  cbn [run_ops]. unfold_M.
  destruct op as [| msg | [cb|] | id | loc]; try done; cbn [run_op].
  - unfold actions_restore, runCommand, console_error, try_catch. unfold_M.
    cbn [fst snd]. fold data.
    destruct (command_fault s (setblock_command data)) as [msg|] eqn:Hfault;
      cbn [fst snd].
    + destruct (IH (set_console (λ out, out ++ ["Failed to restore block: " +:+ msg]) s) Hret)
        as (s' & Hrun & Hc & Ho & Hf & Hd).
      exists s'. split; [exact Hrun |]. cbn in *. fold data in Hc, Ho.
      rewrite Hfault in *. cbn in *.
      by rewrite Hc, Ho, Hf, Hd, <- !app_assoc.
    + destruct (IH (set_commands
                      (λ done, done ++ [(dimension data, setblock_command data)]) s) Hret)
        as (s' & Hrun & Hc & Ho & Hf & Hd).
      exists s'. split; [exact Hrun |]. cbn in *. fold data in Hc, Ho.
      rewrite Hfault in *. cbn in *.
      by rewrite Hc, Ho, Hf, Hd, <- !app_assoc.
  - unfold listen. unfold_M.
    destruct (IH (set_listeners (λ ls, ls ++ [cb]) s) Hret)
      as (s' & Hrun & Hc & Ho & Hf & Hd).
    exists s'. split; [exact Hrun |]. done.
Qed.

Lemma restore_ops_throw ops s msg :
  callback_outcome ops = Some msg →
  ∃ s', run_ops ops s = (Throw msg, s')
    ∧ calls s' = calls s
    ∧ listeners s `prefix_of` listeners s'.
Proof.
  revert s. induction ops as [|op ops IH]; intros s Hthrow; [done |].
  cbn in Hthrow. cbn [run_ops]. unfold_M.
  destruct op as [| m | [cb|] | id | loc]; cbn in Hthrow; cbn [run_op].
  - unfold actions_restore, runCommand, console_error, try_catch. unfold_M.
    cbn [fst snd].
    destruct (command_fault s (setblock_command (data_object s))) as [m|];
      cbn [fst snd].
    + destruct (IH (set_console (λ out, out ++ ["Failed to restore block: " +:+ m]) s) Hthrow)
        as (s' & Hrun & Hcalls & Hl).
      by exists s'.
    + destruct (IH (set_commands
                      (λ done, done ++ [(dimension (data_object s),
                                         setblock_command (data_object s))]) s) Hthrow)
        as (s' & Hrun & Hcalls & Hl).
      by exists s'.
  - injection Hthrow as ->. by exists s.
  - unfold listen. unfold_M.
    destruct (IH (set_listeners (λ ls, ls ++ [cb]) s) Hthrow)
      as (s' & Hrun & Hcalls & Hl).
    exists s'. split; [exact Hrun |]. split; [done |].
    etrans; [| exact Hl]. by apply prefix_app_r.
  - injection Hthrow as <-. by exists s.
  - unfold_M. cbn.
    destruct (IH (set_data_object
                    (λ data, mkBreakRecord (player data) id (location data)
                               (dimension data) (toolTypeId data)) s) Hthrow)
      as (s' & Hrun & Hcalls & Hl).
    by exists s'.
  - unfold_M. cbn.
    destruct (IH (set_data_object
                    (λ data, mkBreakRecord (player data) (blockId data) loc
                               (dimension data) (toolTypeId data)) s) Hthrow)
      as (s' & Hrun & Hcalls & Hl).
    by exists s'.
Qed.

Lemma forEach_loop_returns n k data s :
  (k + n ≤ length (listeners s))%nat →
  (∀ cb, cb ∈ take n (drop k (listeners s)) →
     callback_outcome cb = None ∧ keeps_data cb) →
  ∃ s', forEach_loop n k data s = (Normal tt, s')
    ∧ calls s' = calls s ++ ((λ j, (j, data)) <$> seq k n)
    ∧ listeners s'
      = listeners s ++ concat (registered <$> take n (drop k (listeners s)))
    ∧ commands s'
      = commands s
        ++ issued (data_object s)
             (command_fault s (setblock_command (data_object s)))
             (sum_list (restores <$> take n (drop k (listeners s))))
    ∧ console s'
      = console s
        ++ logged (command_fault s (setblock_command (data_object s)))
             (sum_list (restores <$> take n (drop k (listeners s))))
    ∧ command_fault s' = command_fault s
    ∧ data_object s' = data_object s.
Proof.
  revert k s. induction n as [|n IH]; intros k s Hlen Hret.
  { exists s. cbn. unfold issued, logged.
    destruct (command_fault s _); by rewrite !app_nil_r. }
  destruct (lookup_lt_is_Some_2 (listeners s) k) as [cb Hcb]; [lia |].
  rewrite (drop_S _ _ _ Hcb) in Hret |- *. cbn [take] in Hret |- *.
  cbn [forEach_loop]. unfold_M. rewrite Hcb. unfold invoke. unfold_M.
  destruct (Hret cb ltac:(by left)) as [Hreturns Hkeeps].
  set (s0 := set_calls (λ tr, tr ++ [(k, data)]) s).
  destruct (run_ops_return cb s0 Hreturns) as (s1 & Hrun1 & Hcalls1 & Hl1).
  destruct (restore_ops_return cb s0 Hreturns Hkeeps)
    as (s1' & Hrun1' & Hc1 & Ho1 & Hf1 & Hd1).
  assert (s1' = s1) as -> by congruence.
  rewrite Hrun1. cbn in Hl1, Hc1, Ho1, Hcalls1, Hf1, Hd1.
  assert (Hslice : take n (drop (S k) (listeners s1))
                   = take n (drop (S k) (listeners s))).
  { rewrite Hl1, drop_app_le by lia. rewrite take_app_le; [done |].
    rewrite length_drop. lia. }
  destruct (IH (S k) s1) as (s' & Hrun & Hcalls & Hl & Hc & Ho & Hf & Hd).
  { rewrite Hl1, length_app. lia. }
  { rewrite Hslice. intros cb' Hin. apply Hret. by right. }
  exists s'. split; [exact Hrun |].
  rewrite Hslice, Hf1, Hd1 in *. rewrite Hcalls, Hl, Hc, Ho, Hf, Hd.
  rewrite Hcalls1, Hl1, Hc1, Ho1.
  rewrite fmap_cons. cbn [concat sum_list seq fmap list_fmap].
  unfold issued, logged.
  destruct (command_fault s (setblock_command (data_object s)));
    rewrite ?replicate_add, ?app_nil_r, <- ?app_assoc; done.
Qed.

Lemma forEach_loop_throws n k data s t cb msg :
  (k ≤ t < k + n)%nat →
  listeners s !! t = Some cb →
  callback_outcome cb = Some msg →
  (∀ j cb', (k ≤ j < t)%nat → listeners s !! j = Some cb' →
     callback_outcome cb' = None) →
  ∃ s', forEach_loop n k data s = (Throw msg, s')
    ∧ calls s' = calls s ++ ((λ j, (j, data)) <$> seq k (S t - k))
    ∧ listeners s `prefix_of` listeners s'.
Proof.
  revert k s. induction n as [|n IH]; intros k s Hk Ht Hthrow Hbefore; [lia |].
  cbn [forEach_loop]. unfold_M.
  destruct (decide (k = t)) as [->|Hne].
  - rewrite Ht. unfold invoke. unfold_M.
    destruct (restore_ops_throw cb (set_calls (λ tr, tr ++ [(t, data)]) s) msg Hthrow)
      as (s' & Hrun & Hcalls & Hl).
    rewrite Hrun. exists s'. split; [done |].
    replace (S t - t)%nat with 1%nat by lia. by rewrite Hcalls.
  - destruct (lookup_lt_is_Some_2 (listeners s) k) as [cb0 Hcb0].
    { apply lookup_lt_Some in Ht. lia. }
    rewrite Hcb0. unfold invoke. unfold_M.
    destruct (run_ops_return cb0 (set_calls (λ tr, tr ++ [(k, data)]) s))
      as (s1 & Hrun1 & Hcalls1 & Hl1).
    { apply (Hbefore k); [lia | done]. }
    rewrite Hrun1. cbn in Hl1, Hcalls1.
    destruct (IH (S k) s1) as (s' & Hrun & Hcalls & Hl); try done.
    + lia.
    + rewrite Hl1. by apply lookup_app_l_Some.
    + intros j cb' Hj Hcb'. apply (Hbefore j); [lia |].
      rewrite Hl1 in Hcb'. rewrite lookup_app_l in Hcb'; [done |].
      apply lookup_lt_Some in Ht. lia.
    + exists s'. split; [exact Hrun |]. split.
      * rewrite Hcalls, Hcalls1, <- app_assoc.
        replace (S t - k)%nat with (S (S t - S k)) by lia. done.
      * etrans; [| exact Hl]. rewrite Hl1. by apply prefix_app_r.
Qed.

(** X9. When every registered callback returns and none assigns to
    the [data] object it is handed ([data.blockId], [data.location]),
    one block-break event calls the listeners registered at that moment,
    each once, in registration order and with the same record built
    from the event; callbacks registered while the event is dispatched
    are appended to the registry and not called for this event; every
    [restore()] issues the same [setblock] command, for the block and
    the place of the event and in the event's dimension, when the host
    accepts it, and logs one line when it does not. *)
Theorem block_break_reaches_every_listener_once
  (event : BreakEvent) (s : State)
  (Hreturn : ∀ cb, cb ∈ listeners s → callback_outcome cb = None)
  (Hkeep : ∀ cb, cb ∈ listeners s → keeps_data cb) :
  let data := record_of event in
  let fault := command_fault s (setblock_command data) in
  let n := sum_list (restores <$> listeners s) in
  ∃ s', handleBlockBreak event s = (Normal tt, s')
    ∧ calls s' = calls s ++ ((λ j, (j, data)) <$> seq 0 (length (listeners s)))
    ∧ listeners s' = listeners s ++ concat (registered <$> listeners s)
    ∧ commands s' = commands s ++ issued data fault n
    ∧ console s' = console s ++ logged fault n.
Proof.
  intros data fault n. unfold handleBlockBreak. unfold_M. cbn [fst snd].
  set (s0 := set_data_object _ s).
  destruct (forEach_loop_returns (length (listeners s)) 0 data s0)
    as (s' & Hrun & Hcalls & Hl & Hc & Ho & _).
  { cbn. lia. }
  { cbn. rewrite drop_0, firstn_all. intros cb Hcb. split; auto. }
  cbn in Hl, Hc, Ho, Hcalls. rewrite drop_0, firstn_all in Hl, Hc, Ho.
  by exists s'.
Qed.

(** X10. A listener that throws ends the dispatch of the event: the
    event handler throws its message, the listeners before it and the
    thrower itself have been called once each, in order, and no listener
    after it is called; the registry only grows. *)
Theorem block_break_stops_at_throwing_listener
  (event : BreakEvent) (s : State) (t : nat) (cb : Callback) (msg : string)
  (Hcb : listeners s !! t = Some cb)
  (Hthrow : callback_outcome cb = Some msg)
  (Hbefore : ∀ j cb', (j < t)%nat → listeners s !! j = Some cb' →
               callback_outcome cb' = None) :
  ∃ s', handleBlockBreak event s = (Throw msg, s')
    ∧ calls s' = calls s ++ ((λ j, (j, record_of event)) <$> seq 0 (S t))
    ∧ listeners s `prefix_of` listeners s'.
Proof.
  unfold handleBlockBreak. unfold_M. cbn [fst snd].
  set (s0 := set_data_object _ s).
  destruct (forEach_loop_throws (length (listeners s)) 0 (record_of event) s0 t cb msg)
    as (s' & Hrun & Hcalls & Hl); try done.
  - apply lookup_lt_Some in Hcb. lia.
  - intros j cb' Hj. apply Hbefore. lia.
  - exists s'. split; [exact Hrun |]. split; [| done].
    by rewrite Hcalls, Nat.sub_0_r.
Qed.

Lemma block_break_reaches_every_listener_once_witness :
  let r := handleBlockBreak stone_broken restorers_only in
  r.1 = Normal tt
  ∧ (calls r.2).*1 = [0; 1; 2]%nat
  ∧ listeners r.2 = listeners restorers_only ++ [[OpRestore]]
  ∧ commands r.2 = replicate 3 ("overworld", "setblock 1 -2 3 minecraft:stone").
Proof.
  assert (Hreturn : ∀ cb, cb ∈ listeners restorers_only →
            callback_outcome cb = None).
  { intros cb [i Hi]%list_elem_of_lookup.
    destruct i as [|[|[|i]]]; cbn in Hi; by simplify_eq. }
  assert (Hkeep : ∀ cb, cb ∈ listeners restorers_only → keeps_data cb).
  { intros cb [i Hi]%list_elem_of_lookup.
    destruct i as [|[|[|i]]]; cbn in Hi; simplify_eq; by repeat constructor. }
  destruct (block_break_reaches_every_listener_once stone_broken restorers_only
              Hreturn Hkeep)
    as (s' & Hrun & Hcalls & Hl & Hc & _).
  cbn zeta. rewrite Hrun. cbn [fst snd].
  split; [done |]. split; [by rewrite Hcalls |]. split; [by rewrite Hl |].
  rewrite Hc. by vm_compute.
Defined.

Lemma block_break_stops_at_throwing_listener_witness :
  let r := handleBlockBreak stone_broken restorer_thrower_idle in
  r.1 = Throw "stop" ∧ (calls r.2).*1 = [0; 1]%nat.
Proof.
  assert (Hbefore : ∀ j cb', (j < 1)%nat →
            listeners restorer_thrower_idle !! j = Some cb' →
            callback_outcome cb' = None).
  { intros j cb' Hj. destruct j as [|j]; [| lia]. cbn. by intros [= <-]. }
  destruct (block_break_stops_at_throwing_listener stone_broken
              restorer_thrower_idle 1 _ "stop" eq_refl eq_refl Hbefore)
    as (s' & Hrun & Hcalls & _).
  cbn zeta. rewrite Hrun. cbn [fst snd].
  split; [done |]. by rewrite Hcalls.
Defined.

End BlockBreakDispatch.


(** * Further properties of the HTTP shim *)

Section HttpReqRequests.
Import HttpReq.
Context {Json : Type}.
Variable toUpperCase : string → string.
Variable JSON_stringify : Json → Completion (option string).
Variable JSON_parse : string → Completion Json.
Variable transport : HttpRequest → Completion HttpResponse.

(** The request that is built when the body can be serialised. *)
Lemma build_request_serialised u (config : Config Json) text :
  serialised JSON_stringify (payload_of config) = Normal text →
  build_request toUpperCase JSON_stringify u config
  = Normal (mkRequest u (method_of toUpperCase (default "GET" (method config)))
              text
              match payload_of config with
              | Value (BodyObject _) =>
                  with_content_type (default JsMap.empty (headers config))
              | _ => default JsMap.empty (headers config)
              end).
Proof.
  unfold build_request, payload_of.
  destruct (match body config with Undefined => data config | b => b end)
    as [| |[o|t]]; cbn.
  - by intros [= <-].
  - by intros [= <-].
  - by intros ->.
  - by intros [= <-].
Qed.

Lemma httpReq_sends_built_request (config : Config Json) sent text :
  url_missing (url config) = false →
  serialised JSON_stringify (payload_of config) = Normal text →
  ∃ request,
    (httpReq toUpperCase JSON_stringify JSON_parse transport config sent).2
    = sent ++ [request]
    ∧ req_url request = url_text (url config)
    ∧ req_method request = method_of toUpperCase (default "GET" (method config))
    ∧ req_body request = text
    ∧ req_headers request
      = match payload_of config with
        | Value (BodyObject _) =>
            with_content_type (default JsMap.empty (headers config))
        | _ => default JsMap.empty (headers config)
        end.
Proof.
  intros Hurl Hbody. eexists. split.
  - apply httpReq_sends_one_request; [done |]. by apply build_request_serialised.
  - done.
Qed.

Lemma method_of_own name :
  (∀ name, name ∈ METHOD_NAMES → toUpperCase name = name) →
  name ∈ METHOD_NAMES →
  method_of toUpperCase name
  = (if decide (name = "GET") then Get
     else if decide (name = "POST") then Post
     else if decide (name = "PUT") then Put
     else if decide (name = "DELETE") then Delete
     else Head).
Proof.
  intros Hupper Hin. unfold method_of. rewrite (Hupper name Hin).
  unfold METHOD_NAMES in Hin.
  repeat (apply elem_of_cons in Hin as [->|Hin]); try done.
  by apply elem_of_nil in Hin.
Qed.

End HttpReqRequests.

(** X11. When the body can be serialised ([JSON.stringify] returns for
    an object body), [httpReq] hands one request to the transport, which
    goes to the configured URL and carries every header the caller gave
    with a non-empty value, unchanged; only the key ["Content-Type"] can
    differ from what was given. An object body is sent as
    [JSON.stringify] returns it and always with a non-empty
    ["Content-Type"] or ["content-type"] header, which is
    ["application/json"] when the caller gave neither; a text body, or
    no body, leaves the headers exactly as given. [body] wins over
    [data], which is used when [body] is undefined. *)
Theorem object_body_is_sent_with_a_content_type
  {Json : Type} (toUpperCase : string → string)
  (JSON_stringify : Json → Completion (option string))
  (JSON_parse : string → Completion Json)
  (transport : HttpReq.HttpRequest → Completion HttpReq.HttpResponse)
  (config : HttpReq.Config Json) (sent : HttpReq.Sent)
  (sent_body : option string)
  (Hurl : HttpReq.url_missing (HttpReq.url config) = false)
  (Hbody : HttpReq.serialised JSON_stringify
             match HttpReq.body config with
             | HttpReq.Undefined => HttpReq.data config
             | b => b
             end
           = Normal sent_body) :
  let given := default JsMap.empty (HttpReq.headers config) in
  let payload :=
    match HttpReq.body config with
    | HttpReq.Undefined => HttpReq.data config
    | b => b
    end in
  let typed headers :=
    HttpReq.truthy (JsMap.get headers "Content-Type")
    || HttpReq.truthy (JsMap.get headers "content-type") in
  ∃ request,
    (HttpReq.httpReq toUpperCase JSON_stringify JSON_parse transport config sent).2
    = sent ++ [request]
    ∧ HttpReq.req_url request = HttpReq.url_text (HttpReq.url config)
    ∧ HttpReq.req_body request = sent_body
    ∧ (∀ k v, JsMap.get given k = Some v → v ≠ "" →
         JsMap.get (HttpReq.req_headers request) k = Some v)
    ∧ (∀ k, k ≠ "Content-Type" →
         JsMap.get (HttpReq.req_headers request) k = JsMap.get given k)
    ∧ match payload with
      | HttpReq.Value (HttpReq.BodyObject o) =>
          JSON_stringify o = Normal sent_body
          ∧ typed (HttpReq.req_headers request) = true
          ∧ (typed given = true → HttpReq.req_headers request = given)
          ∧ (typed given = false →
               JsMap.get (HttpReq.req_headers request) "Content-Type"
               = Some "application/json")
      | HttpReq.Value (HttpReq.BodyText text) =>
          sent_body = Some text
          ∧ HttpReq.req_headers request = given
      | HttpReq.Undefined | HttpReq.Null =>
          sent_body = None
          ∧ HttpReq.req_headers request = given
      end.
Proof.
  intros given payload typed.
  destruct (httpReq_sends_built_request toUpperCase JSON_stringify JSON_parse
              transport config sent sent_body Hurl Hbody)
    as (request & Hsent & Hu & _ & Hb & Hh).
  exists request. split; [done |]. split; [done |]. split; [done |].
  rewrite Hh. unfold HttpReq.payload_of. fold payload given.
  fold payload in Hbody.
  destruct payload as [| |[o|text]]; cbn in Hbody |- *;
    try (by injection Hbody as <-).
  unfold HttpReq.with_content_type. fold (typed given).
  destruct (typed given) eqn:Htyped; cbn.
  { repeat split; done. }
  assert (Hct : JsMap.get given "Content-Type" = None
                ∨ JsMap.get given "Content-Type" = Some "").
  { unfold typed in Htyped. apply orb_false_elim in Htyped as [Ht _].
    destruct (JsMap.get given "Content-Type") as [v|]; [| by left].
    cbn in Ht. apply negb_false_iff, bool_decide_eq_true in Ht. subst v. by right. }
  split; [| split; [| repeat split]].
  - intros k v Hk Hv. destruct (decide (k = "Content-Type")) as [->|Hne].
    + destruct Hct as [Hct|Hct]; rewrite Hct in Hk; by simplify_eq.
    + by rewrite get_set_ne.
  - intros k Hne. by rewrite get_set_ne.
  - done.
  - unfold typed. by rewrite get_set_eq.
  - done.
  - intros _. by rewrite get_set_eq.
Qed.

(** X12. The convenience wrappers, called with a URL and with bodies
    that can be serialised, send one request each to the given URL.
    Unless the options object has a [method] key, the method is the
    wrapper's own ([toUpperCase] leaves the five method names as they
    are); when it has one, every wrapper sends the method the options
    name (GET when the key holds undefined), whichever wrapper was
    called. [post] and [put] send their body argument unless the options
    have a [body] key; [get], [delete] and [head] send no body unless
    the options bring one. *)
Theorem wrappers_send_their_method_unless_overridden
  {Json : Type} (toUpperCase : string → string)
  (JSON_stringify : Json → Completion (option string))
  (JSON_parse : string → Completion Json)
  (transport : HttpReq.HttpRequest → Completion HttpReq.HttpResponse)
  (u : string) (b : HttpReq.Field (HttpReq.Body Json))
  (options : HttpReq.Options Json) (sent : HttpReq.Sent)
  (Hu : u ≠ "")
  (Hurl : HttpReq.opt_url options = None)
  (Hupper : ∀ name, name ∈ HttpReq.METHOD_NAMES → toUpperCase name = name)
  (Hserial : ∀ payload,
     payload ∈ [b; default HttpReq.Undefined (HttpReq.opt_body options);
                default HttpReq.Undefined (HttpReq.opt_data options)] →
     ∃ text, HttpReq.serialised JSON_stringify payload = Normal text) :
  let run wrapper := (wrapper (HttpReq.Value u) options sent).2 in
  let get := HttpReq.httpReq_get toUpperCase JSON_stringify JSON_parse transport in
  let post u :=
    HttpReq.httpReq_post toUpperCase JSON_stringify JSON_parse transport u b in
  let put u :=
    HttpReq.httpReq_put toUpperCase JSON_stringify JSON_parse transport u b in
  let delete :=
    HttpReq.httpReq_delete toUpperCase JSON_stringify JSON_parse transport in
  let head := HttpReq.httpReq_head toUpperCase JSON_stringify JSON_parse transport in
  let body_of request := Normal (HttpReq.req_body request) in
  ∃ rg rp ru rd rh,
    run get = sent ++ [rg] ∧ run post = sent ++ [rp] ∧ run put = sent ++ [ru]
    ∧ run delete = sent ++ [rd] ∧ run head = sent ++ [rh]
    ∧ HttpReq.req_url <$> [rg; rp; ru; rd; rh] = [u; u; u; u; u]
    ∧ match HttpReq.opt_method options with
      | None =>
          HttpReq.req_method <$> [rg; rp; ru; rd; rh]
          = [HttpReq.Get; HttpReq.Post; HttpReq.Put; HttpReq.Delete; HttpReq.Head]
      | Some name =>
          HttpReq.req_method <$> [rg; rp; ru; rd; rh]
          = replicate 5 (HttpReq.method_of toUpperCase (default "GET" name))
      end
    ∧ (HttpReq.opt_body options = None → b ≠ HttpReq.Undefined →
         body_of rp = HttpReq.serialised JSON_stringify b
         ∧ body_of ru = HttpReq.serialised JSON_stringify b)
    ∧ (∀ b', HttpReq.opt_body options = Some b' → b' ≠ HttpReq.Undefined →
         body_of <$> [rg; rp; ru; rd; rh]
         = replicate 5 (HttpReq.serialised JSON_stringify b'))
    ∧ (HttpReq.opt_body options = None → HttpReq.opt_data options = None →
         HttpReq.req_body <$> [rg; rd; rh] = [None; None; None]).
Proof.
  intros run get post put delete head body_of.
  assert (Hone : ∀ m bd, bd = b ∨ bd = HttpReq.Undefined →
    let config :=
      HttpReq.spread
        (HttpReq.mkConfig (HttpReq.Value u) m HttpReq.Undefined bd None) options in
    ∃ request,
      (HttpReq.httpReq toUpperCase JSON_stringify JSON_parse transport
         config sent).2 = sent ++ [request]
      ∧ HttpReq.req_url request = u
      ∧ HttpReq.req_method request
        = HttpReq.method_of toUpperCase
            (default "GET" (default m (HttpReq.opt_method options)))
      ∧ body_of request
        = HttpReq.serialised JSON_stringify (HttpReq.payload_of config)).
  { intros m bd Hbd config.
    destruct (Hserial (HttpReq.payload_of config)) as [text Htext].
    { unfold HttpReq.payload_of, config. cbn.
      destruct (HttpReq.opt_body options) as [[| |x]|],
          (HttpReq.opt_data options) as [[| |y]|];
        cbn; destruct Hbd as [-> | ->]; try destruct b; set_solver. }
    destruct (httpReq_sends_built_request toUpperCase JSON_stringify JSON_parse
                transport config sent text)
      as (request & Hsent & Hru & Hrm & Hrb & _); [| done |].
    { unfold config. cbn. rewrite Hurl. cbn. by apply bool_decide_eq_false. }
    exists request. split; [done |].
    split; [by rewrite Hru; unfold config; cbn; rewrite Hurl |].
    split; [done |]. unfold body_of. by rewrite Hrb, Htext. }
  destruct (Hone (Some "GET") HttpReq.Undefined ltac:(by right))
    as (rg & Hg & Hgu & Hgm & Hgb).
  destruct (Hone (Some "POST") b ltac:(by left)) as (rp & Hp & Hpu & Hpm & Hpb).
  destruct (Hone (Some "PUT") b ltac:(by left)) as (ru & Hpt & Huu & Hum & Hub).
  destruct (Hone (Some "DELETE") HttpReq.Undefined ltac:(by right))
    as (rd & Hd & Hdu & Hdm & Hdb).
  destruct (Hone (Some "HEAD") HttpReq.Undefined ltac:(by right))
    as (rh & Hh & Hhu & Hhm & Hhb).
  exists rg, rp, ru, rd, rh.
  do 5 (split; [done |]).
  cbn [fmap list_fmap].
  rewrite Hgu, Hpu, Huu, Hdu, Hhu, Hgm, Hpm, Hum, Hdm, Hhm, Hgb, Hpb, Hub, Hdb, Hhb.
  split; [done |]. split.
  { destruct (HttpReq.opt_method options) as [name|]; [done |]. cbn [default].
    rewrite !(method_of_own toUpperCase _ Hupper); [done | ..];
      unfold HttpReq.METHOD_NAMES; by repeat constructor. }
  unfold HttpReq.payload_of. cbn.
  split; [| split].
  - intros -> Hb. cbn. by destruct b.
  - intros b' -> Hb'. cbn. by destruct b'.
  - intros Hnobody Hnodata.
    assert (Hnone : ∀ r, body_of r
              = HttpReq.serialised JSON_stringify
                  (HttpReq.payload_of
                     (HttpReq.spread
                        (HttpReq.mkConfig (HttpReq.Value u) (Some "GET")
                           HttpReq.Undefined HttpReq.Undefined None) options)) →
              HttpReq.req_body r = None).
    { intros r. unfold HttpReq.payload_of. cbn. rewrite Hnobody, Hnodata. cbn.
      unfold body_of. by intros [= ->]. }
    unfold HttpReq.payload_of in Hgb, Hdb, Hhb. cbn in Hgb, Hdb, Hhb.
    rewrite Hnobody, Hnodata in Hgb, Hdb, Hhb. cbn in Hgb, Hdb, Hhb.
    unfold body_of in Hgb, Hdb, Hhb.
    injection Hgb as ->. injection Hdb as ->. injection Hhb as ->. done.
Qed.

Lemma object_body_is_sent_with_a_content_type_witness :
  let config :=
    HttpReq.mkConfig (HttpReq.Value "https://example.com/api") (Some "post")
      (HttpReq.Value (HttpReq.BodyObject tt)) HttpReq.Undefined
      (Some [("Accept", "text/plain"); ("Content-Type", "")]) in
  (HttpReq.httpReq HttpReq.toUpperCase_ascii HttpReq.stringify_null
     HttpReq.parse_null HttpReq.transport_ok config []).2
  = [HttpReq.mkRequest "https://example.com/api" HttpReq.Post (Some "null")
       [("Accept", "text/plain"); ("Content-Type", "application/json")]].
Proof.
  intros config.
  destruct (object_body_is_sent_with_a_content_type HttpReq.toUpperCase_ascii
              HttpReq.stringify_null HttpReq.parse_null HttpReq.transport_ok
              config [] (Some "null") eq_refl eq_refl)
    as (request & Hsent & _).
  rewrite Hsent. by vm_compute in Hsent |- *.
Defined.

Lemma wrappers_send_their_method_unless_overridden_witness :
  let options := HttpReq.mkOptions None (Some (Some "delete")) None None None in
  HttpReq.req_method
  <$> (HttpReq.httpReq_post HttpReq.toUpperCase_ascii HttpReq.stringify_null
         HttpReq.parse_null HttpReq.transport_ok
         (HttpReq.Value "https://example.com/api")
         (HttpReq.Value (HttpReq.BodyText "hello")) options []).2
  = [HttpReq.Delete].
Proof.
  intros options.
  assert (Hupper : ∀ name, name ∈ HttpReq.METHOD_NAMES →
            HttpReq.toUpperCase_ascii name = name).
  { intros name Hin. unfold HttpReq.METHOD_NAMES in Hin.
    repeat (apply elem_of_cons in Hin as [->|Hin]); try reflexivity.
    by apply elem_of_nil in Hin. }
  assert (Hserial : ∀ payload : HttpReq.Field (HttpReq.Body unit),
            payload ∈ [HttpReq.Value (HttpReq.BodyText "hello");
                       default HttpReq.Undefined (HttpReq.opt_body options);
                       default HttpReq.Undefined (HttpReq.opt_data options)] →
            ∃ text, HttpReq.serialised HttpReq.stringify_null payload
                    = Normal text).
  { intros [| |[o|text]] _; by eexists. }
  destruct (wrappers_send_their_method_unless_overridden
              HttpReq.toUpperCase_ascii HttpReq.stringify_null
              HttpReq.parse_null HttpReq.transport_ok "https://example.com/api"
              (HttpReq.Value (HttpReq.BodyText "hello")) options []
              ltac:(done) eq_refl Hupper Hserial)
    as (rg & rp & ru & rd & rh & _ & Hp & _ & _ & _ & _ & Hm & _).
  cbn zeta in Hp. rewrite Hp. cbn in Hm |- *.
  injection Hm as _ Hpost _ _ _. by rewrite Hpost.
Defined.


(** ** What a poll reports, in terms of the inventory *)

Lemma diff_types_NoDup player previous current :
  JsMap.wf current → NoDup (gain_typeId <$> diff player previous current).
Proof.
  unfold JsMap.wf, JsMap.keys.
  induction current as [|entry current IH]; [constructor |].
  rewrite fmap_cons. intros [Hnin Hwf]%NoDup_cons. rewrite diff_cons.
  destruct (pickedUp previous entry) as [n|]; [| by apply IH].
  rewrite fmap_cons. apply NoDup_cons. split; [| by apply IH].
  intros (r & Hr & Hin)%list_elem_of_fmap. apply Hnin.
  cbn in Hr. rewrite Hr. by apply (diff_typeId_in_keys player previous).
Qed.

Lemma diff_complete player previous current type n :
  JsMap.wf current →
  JsMap.get current type = Some n →
  or_zero (JsMap.get previous type) < n →
  mkGain type (n - or_zero (JsMap.get previous type)) player
  ∈ diff player previous current.
Proof.
  intros Hwf Hget Hlt.
  pose proof (filter_diff player previous current type Hwf) as Hf.
  rewrite Hget in Hf. rewrite (proj2 (Z.ltb_lt _ _) Hlt) in Hf.
  assert (Hin : mkGain type (n - or_zero (JsMap.get previous type)) player
                ∈ filter (fun r => gain_typeId r = type)
                    (diff player previous current)) by (rewrite Hf; by left).
  by apply list_elem_of_filter in Hin as [_ Hin].
Qed.

(** X13. What a poll reports for a player, read off the inventory
    itself. The loop of the poll over the snapshot it took of the
    inventory fans out a list of records, one after the other, that
    holds one record for each item type the player holds more of than
    the cached snapshot says (0 for a type or a player the cache does not
    know), with the surplus as amount, and no other record; at most one
    record per type. So the first poll that sees a player fans out a
    record for every type held in a positive amount, with the whole
    amount. (A fan-out calls the listeners that are due when it runs;
    which listeners a record reaches is not part of this statement.) *)
Theorem poll_reports_surplus_over_cache
  (cache : gmap string Snapshot) (player : string) (inventory : Container) :
  let cached type := or_zero (JsMap.get (previous_of cache player) type) in
  ∃ reported,
    (∀ p s, entries_loop p player (previous_of cache player)
              (snapshotInventory inventory) s
            = deliver p reported s)
    ∧ (∀ g, g ∈ reported ↔
          gain_typeId g ∈ types_in (slots inventory)
          ∧ cached (gain_typeId g) < held (gain_typeId g) inventory
          ∧ g = mkGain (gain_typeId g)
                  (held (gain_typeId g) inventory - cached (gain_typeId g)) player)
    ∧ NoDup (gain_typeId <$> reported)
    ∧ (cache !! player = None →
       ∀ type, type ∈ types_in (slots inventory) → 0 < held type inventory →
         mkGain type (held type inventory) player ∈ reported).
Proof.
  intros cached.
  set (reported :=
         diff player (previous_of cache player) (snapshotInventory inventory)).
  exists reported. split; [intros p s; apply entries_loop_delivers_diff |].
  pose proof (snapshotInventory_wf inventory) as Hwf.
  assert (Hiff : ∀ g, g ∈ reported ↔
        gain_typeId g ∈ types_in (slots inventory)
        ∧ cached (gain_typeId g) < held (gain_typeId g) inventory
        ∧ g = mkGain (gain_typeId g)
                (held (gain_typeId g) inventory - cached (gain_typeId g)) player).
  { intros g. split.
    - intros Hg. apply elem_of_diff in Hg as (n & Hget & Hlt & Heq); [| done].
      rewrite get_snapshotInventory in Hget.
      case_decide; [| done]. injection Hget as <-. done.
    - intros (Hin & Hlt & ->). cbn [gain_typeId] in *.
      apply diff_complete; [done | | done].
      rewrite get_snapshotInventory. by rewrite decide_True. }
  split; [exact Hiff |]. split; [by apply diff_types_NoDup |].
  intros Hnew type Hin Hpos. apply Hiff. cbn [gain_typeId].
  assert (Hc : cached type = 0).
  { unfold cached, previous_of. by rewrite Hnew. }
  rewrite Hc. split; [done |]. split; [done |]. f_equal. lia.
Qed.

(** ** A listener waits out its period *)

Lemma undisturbed_refl k s : undisturbed k s s.
Proof. done. Qed.

Lemma undisturbed_trans k s1 s2 s3 :
  undisturbed k s1 s2 → undisturbed k s2 s3 → undisturbed k s1 s3.
Proof. intros [? ?] [? ?]. split; congruence. Qed.

Lemma grows_undisturbed k s s' :
  grows s s' → is_Some (listeners s !! k) → undisturbed k s s'.
Proof.
  intros Hg [l Hl]. split.
  - by rewrite (grows_lookup _ _ _ _ Hg Hl).
  - destruct Hg as (Hc & _). by rewrite Hc.
Qed.

Lemma grows_around_undisturbed j k s s' :
  grows_around j s s' → j ≠ k → is_Some (listeners s !! k) → undisturbed k s s'.
Proof.
  intros (Hc & _ & _ & Hl) Hne [l Hk]. split.
  - rewrite Hk. apply Hl; [by intros -> | done].
  - by rewrite Hc.
Qed.

Lemma fanout_loop_undisturbed n j p data s k l :
  listeners s !! k = Some l → due l = false →
  undisturbed k s (fanout_loop n j p data s).2.
Proof.
  revert j s. induction n as [|n IH]; intros j s Hl Hdue; [done |].
  cbn [fanout_loop]. unfold_M.
  destruct (listeners s !! j) as [lj|] eqn:Hj; [| by apply IH].
  destruct (due lj) eqn:Hdj; [| by apply IH].
  assert (Hne : j ≠ k) by (intros ->; congruence).
  unfold invoke. unfold_M.
  set (s0 := set_calls (λ tr, tr ++ [(j, data)]) s).
  assert (H0 : undisturbed k s s0).
  { split; [done |]. cbn. rewrite times_called_snoc. rewrite decide_False by done. lia. }
  pose proof (run_ops_grows_around j p data (callback lj) s0) as Hg.
  assert (H1 : undisturbed k s0 (run_ops j p data (callback lj) s0).2).
  { apply (grows_around_undisturbed j); [done | done | by exists l]. }
  destruct (run_ops j p data (callback lj) s0) as [[[]|msg] s1]; cbn [fst snd] in *.
  - assert (Hl1 : listeners s1 !! k = Some l).
    { destruct H1 as [-> _]. done. }
    eapply undisturbed_trans; [exact H0 |].
    eapply undisturbed_trans; [exact H1 |].
    eapply undisturbed_trans; [| apply (IH (S j) (reset_counter j s1))].
    + split; [| done]. cbn. by rewrite list_lookup_alter_ne.
    + cbn. by rewrite list_lookup_alter_ne.
    + done.
  - by eapply undisturbed_trans.
Qed.

Lemma entries_loop_undisturbed p player previous entries s k l :
  listeners s !! k = Some l → due l = false →
  undisturbed k s (entries_loop p player previous entries s).2.
Proof.
  revert s. induction entries as [|entry rest IH]; intros s Hl Hdue; [done |].
  cbn [entries_loop]. destruct (pickedUp previous entry) as [n|]; [| by apply IH].
  unfold fanout. unfold_M.
  pose proof (fanout_loop_undisturbed (length (listeners s)) 0 p
                (mkGain entry.1 n player) s k l Hl Hdue) as H1.
  destruct (fanout_loop _ _ _ _ s) as [[[]|msg] s1]; cbn [fst snd] in *; [| done].
  eapply undisturbed_trans; [exact H1 |]. apply IH; [| done].
  destruct H1 as [-> _]. done.
Qed.

Lemma players_loop_undisturbed n p s k l :
  listeners s !! k = Some l → due l = false →
  undisturbed k s (players_loop n p s).2.
Proof.
  revert p s. induction n as [|n IH]; intros p s Hl Hdue; [done |].
  cbn [players_loop]. unfold_M.
  destruct (players s !! p) as [pl|]; [| done].
  destruct (inventory pl) as [inv|]; [| by apply IH].
  pose proof (entries_loop_undisturbed p (name pl)
                (previous_of (playerCache s) (name pl)) (snapshotInventory inv)
                s k l Hl Hdue) as H1.
  destruct (entries_loop _ _ _ _ s) as [[[]|msg] s1]; cbn [fst snd] in *; [| done].
  eapply undisturbed_trans; [exact H1 |].
  set (s2 := set_playerCache _ s1).
  apply (undisturbed_trans k s1 s2); [done |]. apply IH; [| done].
  cbn. destruct H1 as [-> _]. done.
Qed.

Lemma poll_cycle_skips_waiting k l s :
  listeners s !! k = Some l →
  counter l + systemIntervalTick s < tick l →
  listeners (poll_cycle s).2 !! k
  = Some (mkListener (callback l) (tick l) (counter l + systemIntervalTick s))
  ∧ times_called k (calls (poll_cycle s).2) = times_called k (calls s).
Proof.
  intros Hl Hwait. unfold poll_cycle. unfold_M.
  set (l' := mkListener (callback l) (tick l) (counter l + systemIntervalTick s)).
  assert (Hl' : listeners (advance_counters s) !! k = Some l').
  { cbn. by rewrite list_lookup_fmap, Hl. }
  destruct (players_loop_undisturbed (length (players (advance_counters s))) 0
              (advance_counters s) k l' Hl') as [Hk Hc].
  { unfold due. cbn. apply Z.leb_gt. lia. }
  by rewrite Hk, Hc.
Qed.

Lemma minTick_of_app ls extra : minTick_of (ls ++ extra) ≤ minTick_of ls.
Proof.
  unfold minTick_of. rewrite fold_left_app.
  generalize (fold_left (fun min l => Z.min (tick l) min) ls DEFAULT_TICK) as acc.
  intros acc. rewrite fold_left_min_foldr.
  induction extra as [|x extra IH]; cbn [foldr]; lia.
Qed.

Lemma period_inv_positive s : period_inv s → 1 ≤ systemIntervalTick s.
Proof.
  intros (Hmin & Hpos). rewrite Hmin.
  destruct (minTick_of_least (listeners s)) as (_ & _ & [->|Hex]); [done |].
  apply Exists_exists in Hex as (x & Hx & <-).
  by apply (proj1 (Forall_forall _ _) Hpos).
Qed.

Lemma op_never_writes_listen cb t :
  op_never_writes (OpListen (Some cb) t) ↔ never_writes cb.
Proof.
  unfold never_writes. cbn. induction cb as [|op cb IH].
  - split; [constructor | done].
  - rewrite IH, Forall_cons. done.
Qed.

Lemma never_writes_keeps cb : never_writes cb → keeps_entry cb.
Proof.
  intros Hcb. eapply Forall_impl; [exact Hcb |]. intros op Hop. by destruct op.
Qed.

Lemma listen_listeners cb t s :
  listeners (listen cb t s).2 = listeners s
  ∨ ∃ f z, cb = Some f ∧ listeners (listen cb t s).2 = listeners s ++ [mkListener f z 0].
Proof.
  unfold listen. destruct cb as [f|]; [| by left].
  destruct (tick_or_default t) as [|z|]; try by left.
  destruct (Z.ltb_spec z 1) as [|Hz]; [by left |].
  right. exists f, z. split; [done |].
  unfold adjustSystemInterval, startSystemInterval, system_clearRun,
    system_runInterval.
  unfold_M. cbn.
  destruct (decide (minTick_of _ ≠ _)); cbn;
    destruct (systemIntervalId s) eqn:Hid; cbn; rewrite ?Hid; done.
Qed.

Lemma period_inv_listen cb t : preserves period_inv (listen cb t).
Proof.
  intros s [Hmin Hpos].
  split; [| by eapply periods_positive_grows; [apply listen_grows |]].
  unfold listen. destruct cb as [f|]; [| done].
  destruct (tick_or_default t) as [|z|]; try done.
  destruct (Z.ltb_spec z 1) as [|Hz]; [done |].
  unfold adjustSystemInterval, startSystemInterval, system_clearRun,
    system_runInterval.
  unfold_M. cbn.
  destruct (decide (minTick_of _ ≠ _)) as [Hne|Heq]; cbn;
    destruct (systemIntervalId s) eqn:Hid; cbn; rewrite ?Hid; cbn; try done;
    by apply dec_stable in Heq.
Qed.

(** While no callback assigns to a listener entry, the poll period is
    the one computed at the last registration, and it never grows. *)
Lemma unwritten_listen m cb t s :
  registers_no_writer (CallListen cb t) →
  unwritten s ∧ minTick_of (listeners s) ≤ m →
  unwritten (listen cb t s).2 ∧ minTick_of (listeners (listen cb t s).2) ≤ m.
Proof.
  intros Hcb [[Hperiod Hnone] Hm]. split; [split |].
  - by apply period_inv_listen.
  - unfold no_writers.
    destruct (listen_listeners cb t s) as [->|(f & z & -> & ->)]; [done |].
    apply Forall_app. split; [done |]. by repeat constructor.
  - etrans; [| exact Hm].
    destruct (listen_grows cb t s) as (_ & _ & extra & -> & _).
    apply minTick_of_app.
Qed.

Lemma unwritten_run_ops m k p data ops s :
  never_writes ops →
  unwritten s ∧ minTick_of (listeners s) ≤ m →
  unwritten (run_ops k p data ops s).2
  ∧ minTick_of (listeners (run_ops k p data ops s).2) ≤ m.
Proof.
  intros Hops. revert s.
  induction Hops as [|op ops Hop _ IH]; intros s Hs; [done |].
  cbn [run_ops]. unfold_M.
  assert (Hstep : unwritten (run_op k p data op s).2
                  ∧ minTick_of (listeners (run_op k p data op s).2) ≤ m).
  { destruct op as [|msg|[cb|] t| | |]; try done.
    - by apply (preserves_actions_remove
                  (fun s => unwritten s ∧ minTick_of (listeners s) ≤ m)).
    - apply unwritten_listen; [| done]. by apply (op_never_writes_listen cb t). }
  destruct (run_op k p data op s) as [[[]|msg] s1]; [by apply IH | done].
Qed.

Lemma unwritten_step m s e :
  registers_no_writer e →
  unwritten s ∧ minTick_of (listeners s) ≤ m →
  unwritten (step s e) ∧ minTick_of (listeners (step s e)) ≤ m.
Proof.
  apply (kept_by_step (fun s => unwritten s ∧ minTick_of (listeners s) ≤ m));
    try done.
  - intros s0 [[[Hmin Hpos] Hnone] Hm].
    assert (Hticks : tick <$> listeners (advance_counters s0) = tick <$> listeners s0).
    { cbn. rewrite <- list_fmap_compose. by apply list_fmap_ext. }
    split; [split; [split |] |].
    + cbn [systemIntervalTick advance_counters set_listeners].
      rewrite Hmin. symmetry. by apply minTick_of_ticks.
    + unfold periods_positive in *. apply (Forall_fmap tick (Z.le 1)).
      rewrite Hticks. by apply Forall_fmap.
    + unfold no_writers. cbn. by apply Forall_fmap.
    + by rewrite (minTick_of_ticks _ _ Hticks).
  - intros j s0 [[[Hmin Hpos] Hnone] Hm].
    assert (Hticks : tick <$> listeners (reset_counter j s0) = tick <$> listeners s0).
    { cbn. by apply fmap_alter_unchanged. }
    split; [split; [split |] |].
    + cbn [systemIntervalTick reset_counter write_entry set_listeners].
      rewrite Hmin. symmetry. by apply minTick_of_ticks.
    + by apply periods_positive_alter.
    + unfold no_writers in *. cbn.
      apply (Forall_fmap callback never_writes).
      rewrite fmap_alter_unchanged by done. by apply Forall_fmap.
    + by rewrite (minTick_of_ticks _ _ Hticks).
  - intros j p data l s0 Hs0 Hl. apply unwritten_run_ops; [| done].
    destruct Hs0 as [[_ Hnone] _].
    by apply (proj1 (Forall_lookup _ _) Hnone _ _ Hl).
  - intros cb t s0. apply unwritten_listen.
Qed.

Lemma period_never_grows s e :
  registers_no_writer e → unwritten s →
  systemIntervalTick (step s e) ≤ systemIntervalTick s.
Proof.
  intros He Hs.
  destruct (unwritten_step (minTick_of (listeners s)) s e He)
    as [[[Hmin' _] _] Hle]; [done |].
  destruct Hs as [[Hmin _] _]. by rewrite Hmin', Hmin.
Qed.

Lemma unwritten_initial : unwritten initial.
Proof. repeat split; constructor. Qed.

Lemma unwritten_run events :
  Forall registers_no_writer events → unwritten (run events).
Proof.
  intros Hok. unfold run. generalize unwritten_initial. generalize initial.
  induction Hok as [|e events He _ IH]; intros s Hs; [done |].
  cbn [fold_left]. apply IH.
  by apply (unwritten_step (minTick_of (listeners s)) s e He).
Qed.

Lemma step_keeps_waiting k l s e :
  period_inv s →
  listeners s !! k = Some l →
  (e = TimerFires → counter l + systemIntervalTick s < tick l) →
  times_called k (calls (step s e)) = times_called k (calls s)
  ∧ ∃ c, listeners (step s e) !! k = Some (mkListener (callback l) (tick l) c)
         ∧ counter l ≤ c
           ≤ counter l + (if e is TimerFires then systemIntervalTick s else 0).
Proof.
  intros Hs Hl Hwait.
  pose proof (period_inv_positive s Hs) as Hpos.
  destruct e as [cb t| |ps]; cbn [step].
  - destruct (grows_undisturbed k s (listen cb t s).2 (listen_grows cb t s))
      as [Hk Hc]; [by exists l |].
    split; [done |]. exists (counter l). rewrite Hk, Hl. split; [by destruct l | lia].
  - destruct (live (host_calls s)).
    + split; [done |]. exists (counter l). split; [by destruct l | lia].
    + destruct (poll_cycle_skips_waiting k l s Hl (Hwait eq_refl)) as [Hk Hc].
      split; [done |]. eexists. split; [exact Hk | lia].
  - split; [done |]. exists (counter l). split; [by destruct l | lia].
Qed.

Lemma waits_through more k : ∀ s l,
  Forall registers_no_writer more →
  unwritten s →
  listeners s !! k = Some l →
  counter l + Z.of_nat (timer_fires more) * systemIntervalTick s < tick l →
  times_called k (calls (fold_left step more s)) = times_called k (calls s)
  ∧ ∃ c, listeners (fold_left step more s) !! k
         = Some (mkListener (callback l) (tick l) c)
         ∧ counter l ≤ c
           ≤ counter l + Z.of_nat (timer_fires more) * systemIntervalTick s.
Proof.
  induction more as [|e more IH]; intros s l Hok Hs Hl Hwait.
  { split; [done |]. exists (counter l). cbn. split; [by destruct l | lia]. }
  apply Forall_cons in Hok as [He Hok].
  assert (Hs' : unwritten (step s e)).
  { by apply (unwritten_step (minTick_of (listeners s)) s e He). }
  pose proof (period_inv_positive s (proj1 Hs)) as Hpos.
  pose proof (period_never_grows s e He Hs) as Hle.
  pose proof (period_inv_positive _ (proj1 Hs')) as Hpos'.
  assert (Hn : 0 ≤ Z.of_nat (timer_fires more)) by lia.
  destruct (step_keeps_waiting k l s e (proj1 Hs) Hl) as (Hc & c & Hk & Hlo & Hhi).
  { intros ->. cbn [timer_fires] in Hwait. nia. }
  cbn [fold_left].
  destruct (IH (step s e) (mkListener (callback l) (tick l) c)
              Hok Hs' Hk) as (Hc' & c' & Hk' & Hlo' & Hhi').
  { cbn [counter tick]. destruct e; cbn [timer_fires] in Hwait; nia. }
  split; [congruence |]. exists c'. split; [exact Hk' |].
  cbn [counter] in *. destruct e; cbn [timer_fires]; nia.
Qed.

(** X14. A listener waits out its period, as long as no callback
    assigns to a listener entry (neither the callbacks registered from
    outside nor those that callbacks register). While the timer has not
    fired often enough for the listener's counter to reach its period
    (the counter grows by the poll period, which then never grows, at
    each firing), the listener is not called, whatever else happens:
    registrations, world changes, other callbacks that remove, throw or
    register. Its callback and period are kept and its counter only
    grows, by at most the poll period per firing. *)
Theorem listener_waits_out_its_period
  (events more : list Event) (k : nat) (l : Listener)
  (Hplain : Forall registers_no_writer (events ++ more))
  (Hl : listeners (run events) !! k = Some l)
  (Hwait : counter l
           + Z.of_nat (timer_fires more) * systemIntervalTick (run events)
           < tick l) :
  times_called k (calls (run (events ++ more)))
  = times_called k (calls (run events))
  ∧ ∃ c, listeners (run (events ++ more)) !! k
         = Some (mkListener (callback l) (tick l) c)
         ∧ counter l ≤ c
           ≤ counter l
             + Z.of_nat (timer_fires more) * systemIntervalTick (run events).
Proof.
  apply Forall_app in Hplain as [Hevents Hmore].
  unfold run at 1 3. rewrite fold_left_app.
  apply waits_through; [done | by apply unwritten_run | done | done].
Qed.

Lemma listener_waits_out_its_period_witness :
  times_called 0 (calls (run (slow_listener ++ [TimerFires; TimerFires]))) = 0%nat
  ∧ counter <$> listeners (run (slow_listener ++ [TimerFires; TimerFires])) = [20]
  ∧ times_called 0
      (calls (run (slow_listener
                   ++ [TimerFires; TimerFires;
                       WorldChanges [mkPlayer "steve" (Some two_stacks)];
                       TimerFires]))) = 1%nat.
Proof.
  destruct (listener_waits_out_its_period slow_listener [TimerFires; TimerFires]
              0 (mkListener [] 30 0) ltac:(by repeat constructor) eq_refl
              ltac:(by vm_compute))
    as (Hc & c & Hk & _).
  split; [etrans; [exact Hc | by vm_compute] |].
  split; by vm_compute.
Defined.


(** ** Pickups found while no listener is due *)

Lemma diff_same player current :
  JsMap.wf current → diff player current current = [].
Proof.
  intros Hwf. apply diff_nil. intros [type n] Hin. cbn [fst snd].
  rewrite (get_elem_of _ _ _ Hwf Hin), or_zero_Some. lia.
Qed.

Lemma players_loop_quiet_world n p s :
  quiet s →
  ∃ s', players_loop n p s = (Normal tt, s')
        ∧ listeners s' = listeners s ∧ calls s' = calls s
        ∧ players s' = players s.
Proof.
  revert p s. induction n as [|n IH]; intros p s Hq; [by exists s |].
  cbn [players_loop]. unfold_M. cbn.
  destruct (players s !! p) as [player|]; [| by exists s].
  destruct (inventory player) as [inv|]; [| by apply IH].
  rewrite entries_loop_quiet by done.
  set (s1 := set_playerCache _ s).
  destruct (IH (S p) s1) as (s' & Hrun & Hl & Hc & Hp); [done |].
  by exists s'.
Qed.

(** X15. Pickups found while no listener is due are dropped. When no
    listener reaches its period in a poll cycle, the cycle still takes
    and caches the snapshots (player names distinct): it returns without
    calling anyone, the world is unchanged, and a later cycle over the
    same world has nothing to report, although this one may have found
    gain records. A listener whose period exceeds the poll period is
    therefore never told about what was picked up in between. *)
Theorem gains_found_while_nobody_is_due_are_dropped (s : State)
  (Hnames : NoDup (name <$> players s))
  (Hwait : ∀ l, l ∈ listeners s → counter l + systemIntervalTick s < tick l) :
  ∃ s', poll_cycle s = (Normal tt, s')
    ∧ calls s' = calls s
    ∧ players s' = players s
    ∧ listeners s' = listeners (advance_counters s)
    ∧ cycle_gains s' = [].
Proof.
  assert (Hq : quiet (advance_counters s)).
  { unfold quiet. cbn. apply Forall_fmap, Forall_forall. intros l Hin.
    unfold due. cbn. apply Z.leb_gt. by apply Hwait. }
  destruct (players_loop_quiet_world (length (players s)) 0 _ Hq)
    as (s' & Hrun & Hl & Hc & Hp).
  assert (Hpoll : poll_cycle s = (Normal tt, s')) by exact Hrun.
  exists s'. split; [exact Hpoll |]. split; [done |]. split; [done |].
  split; [done |].
  destruct (poll_caches_cycle_start s s' Hnames Hpoll) as (Hcache & _ & _).
  unfold cycle_gains. rewrite Hp. apply gains_from_nil; [done |].
  intros pl inv Hin Hinv. unfold previous_of.
  rewrite (Hcache pl inv Hin Hinv). cbn.
  apply diff_same, snapshotInventory_wf.
Qed.

Lemma gains_found_while_nobody_is_due_are_dropped_witness :
  let s := run slow_listener in
  cycle_gains s = [mkGain "A" 4 "steve"; mkGain "B" 2 "steve"]
  ∧ (poll_cycle s).1 = Normal tt
  ∧ calls (poll_cycle s).2 = []
  ∧ cycle_gains (poll_cycle s).2 = [].
Proof.
  intros s.
  assert (Hnames : NoDup (name <$> players s)) by (vm_compute; compute_done).
  assert (Hwait : ∀ l, l ∈ listeners s →
            counter l + systemIntervalTick s < tick l).
  { intros l [i Hi]%list_elem_of_lookup.
    destruct i as [|i]; vm_compute in Hi; by simplify_eq. }
  destruct (gains_found_while_nobody_is_due_are_dropped s Hnames Hwait)
    as (s' & Hrun & Hc & _ & _ & Hg).
  split; [by vm_compute |]. rewrite Hrun. cbn [fst snd].
  split; [done |]. split; [| done]. by rewrite Hc.
Defined.

(** * Properties of the installer's copy *)

Section InstallerFacts.
Import Installer.

Implicit Types (p q src dest : Path) (fs : FileSystem).

Lemma prefix_below p at_ d todo :
  at_ `prefix_of` p → p `prefix_of` at_ ++ d :: todo → p ≠ at_ →
  (at_ ++ [d]) `prefix_of` p.
Proof.
  intros [k ->] Hp Hne. apply prefix_app_inv in Hp.
  destruct k as [|d' k]; [by rewrite app_nil_r in Hne |].
  apply prefix_cons_inv_1 in Hp as ->.
  exists k. by rewrite <- app_assoc.
Qed.

Lemma below_not_prefix dest n q : ¬ (dest ++ n :: q) `prefix_of` dest.
Proof.
  intros Hp. apply prefix_length in Hp. rewrite length_app in Hp. cbn in Hp. lia.
Qed.

Lemma apart_meet src dest q q' : apart src dest → src ++ q ≠ dest ++ q'.
Proof.
  intros [Hsd Hds] Heq.
  destruct (prefix_weak_total src dest (src ++ q)) as [?|?]; try done.
  - by apply prefix_app_r.
  - rewrite Heq. by apply prefix_app_r.
Qed.

Lemma apart_below src dest n : apart src dest → apart (src ++ [n]) (dest ++ [n]).
Proof.
  intros [Hsd Hds]. split.
  - intros [Hp|Hp]%prefix_snoc_cases.
    + apply Hsd. etrans; [| exact Hp]. by apply prefix_app_r.
    + apply app_inj_tail in Hp as [-> _]. by apply Hsd.
  - intros [Hp|Hp]%prefix_snoc_cases.
    + apply Hds. etrans; [| exact Hp]. by apply prefix_app_r.
    + apply app_inj_tail in Hp as [-> _]. by apply Hsd.
Qed.

Lemma kept_or_made_trans dest fs1 fs2 fs3 p :
  kept_or_made dest fs1 fs2 p → kept_or_made dest fs2 fs3 p →
  kept_or_made dest fs1 fs3 p.
Proof.
  intros [H12|(Hp & Hn & Hd)] [H23|(Hp' & Hn' & Hd')].
  - left. congruence.
  - right. split; [done |]. split; [congruence | done].
  - right. split; [done |]. split; [done | congruence].
  - congruence.
Qed.

Lemma mkdir_loop_makes at_ todo fs :
  (∀ p c, p `prefix_of` at_ ++ todo → fs !! p ≠ Some (File c)) →
  ∃ fs', mkdir_loop at_ todo fs = (Normal tt, fs')
    ∧ (∀ p, at_ `prefix_of` p → p `prefix_of` at_ ++ todo → p ≠ at_ →
         fs' !! p = Some Directory)
    ∧ (∀ p, kept_or_made (at_ ++ todo) fs fs' p).
Proof.
  revert at_ fs. induction todo as [|d todo IH]; intros at_ fs Hfree.
  { exists fs. split; [done |]. split; [| by left].
    intros p Hat Hp Hne. rewrite app_nil_r in Hp.
    destruct Hne. by apply (anti_symm prefix). }
  cbn [mkdir_loop].
  unfold mbind, mret, M_bind, M_ret, bind, ret, throw, modify, gets.
  replace (at_ ++ d :: todo) with ((at_ ++ [d]) ++ todo) in *
    by by rewrite <- app_assoc.
  destruct (fs !! (at_ ++ [d])) as [[c|]|] eqn:Hd.
  - destruct (Hfree (at_ ++ [d]) c); [by apply prefix_app_r | done].
  - destruct (IH (at_ ++ [d]) fs Hfree) as (fs' & Hrun & Hmade & Hkept).
    exists fs'. split; [exact Hrun |]. split; [| done].
    intros p Hat Hp Hne.
    assert (Hbelow : (at_ ++ [d]) `prefix_of` p).
    { apply (prefix_below _ _ _ todo); [done | | done].
      by rewrite <- app_assoc in Hp. }
    destruct (decide (p = at_ ++ [d])) as [->|Hne']; [| by apply Hmade].
    destruct (Hkept (at_ ++ [d])) as [->|(_ & Hnone & _)]; [done | congruence].
  - set (fs1 := <[at_ ++ [d] := Directory]> fs).
    destruct (IH (at_ ++ [d]) fs1) as (fs' & Hrun & Hmade & Hkept).
    { intros p c Hp. unfold fs1.
      destruct (decide (p = at_ ++ [d])) as [->|Hne].
      - by rewrite lookup_insert_eq.
      - rewrite lookup_insert_ne by done. by apply Hfree. }
    exists fs'. split; [exact Hrun |]. split.
    + intros p Hat Hp Hne.
      assert (Hbelow : (at_ ++ [d]) `prefix_of` p).
      { apply (prefix_below _ _ _ todo); [done | | done].
        by rewrite <- app_assoc in Hp. }
      destruct (decide (p = at_ ++ [d])) as [->|Hne']; [| by apply Hmade].
      destruct (Hkept (at_ ++ [d])) as [->|(_ & _ & ->)]; [| done].
      unfold fs1. by rewrite lookup_insert_eq.
    + intros p. destruct (decide (p = at_ ++ [d])) as [->|Hne].
      * right. split; [by apply prefix_app_r |]. split; [done |].
        destruct (Hkept (at_ ++ [d])) as [->|(_ & _ & ->)]; [| done].
        unfold fs1. by rewrite lookup_insert_eq.
      * destruct (Hkept p) as [Heq|(Hp & Hnone & Hdir)].
        -- left. rewrite Heq. unfold fs1. by rewrite lookup_insert_ne.
        -- right. split; [done |]. split; [| done].
           unfold fs1 in Hnone. by rewrite lookup_insert_ne in Hnone.
Qed.

(** The source side is not touched by a copy to a place apart from it. *)
Lemma copied_names_source names src dest fs fs' q :
  apart src dest → copied_names names src dest fs fs' →
  fs' !! (src ++ q) = fs !! (src ++ q).
Proof.
  intros Hapart [_ Hframe].
  destruct (Hframe (src ++ q)) as [Heq|(Hp & _)]; [| done |].
  - intros n q' _ Heq. by destruct (apart_meet src dest q (n :: q')).
  - destruct Hapart as [Hsd _]. destruct Hsd.
    etrans; [| exact Hp]. by apply prefix_app_r.
Qed.

Lemma copied_names_above names src dest fs fs' p :
  copied_names names src dest fs fs' → p `prefix_of` dest →
  kept_or_made dest fs fs' p.
Proof.
  intros [_ Hframe] Hp. apply Hframe. intros n q _ ->.
  by destruct (below_not_prefix dest n q).
Qed.

Lemma copied_names_copyable names depth src dest fs fs' :
  apart src dest → copyable depth src dest fs →
  copied_names names src dest fs fs' →
  copyable depth src dest fs'.
Proof.
  intros Hapart (Hsrc & Hdest & Htree & Hdepth & Hfree & Hcompat) Hcopied.
  pose proof (λ q, copied_names_source names src dest fs fs' q Hapart Hcopied)
    as Hsource.
  split; [| split; [done | split; [| split; [| split]]]].
  - rewrite <- (app_nil_r src), Hsource. by rewrite app_nil_r.
  - intros q n. rewrite !Hsource. apply Htree.
  - intros q. rewrite Hsource. apply Hdepth.
  - intros p c Hp.
    destruct (copied_names_above _ _ _ _ _ p Hcopied Hp) as [->|(_ & _ & ->)];
      [by apply Hfree | done].
  - intros q. rewrite Hsource.
    destruct (fs !! (src ++ q)) as [e|] eqn:He; [| done].
    destruct Hcopied as [Hcopy Hframe].
    assert (Hsame : compatible (Some e) (Some e)) by by destruct e.
    destruct q as [|n q].
    + rewrite app_nil_r in He |- *. assert (e = Directory) as -> by congruence.
      destruct (Hframe dest) as [->|(_ & _ & ->)]; [| | done].
      * intros n q _ Heq. apply (f_equal length) in Heq.
        rewrite length_app in Heq. cbn in Heq. lia.
      * specialize (Hcompat []). rewrite !app_nil_r, Hsrc in Hcompat. done.
    + destruct (decide (n ∈ names)) as [Hin|Hnin].
      * by rewrite (Hcopy n q e Hin He).
      * destruct (Hframe (dest ++ n :: q)) as [->|(Hp & _)].
        -- intros n' q' Hin' Heq. apply app_inv_head in Heq. congruence.
        -- specialize (Hcompat (n :: q)). by rewrite He in Hcompat.
        -- by destruct (below_not_prefix dest n q).
Qed.

Lemma copied_names_app a b src dest fs1 fs2 fs3 :
  apart src dest →
  (∀ n, n ∈ a → n ∉ b) →
  copied_names a src dest fs1 fs2 → copied_names b src dest fs2 fs3 →
  copied_names (a ++ b) src dest fs1 fs3.
Proof.
  intros Hapart Hab H12 H23.
  pose proof (λ q, copied_names_source a src dest fs1 fs2 q Hapart H12) as Hsource.
  destruct H12 as [Hcopy12 Hframe12]. destruct H23 as [Hcopy23 Hframe23].
  split.
  - intros n q e [Hin|Hin]%elem_of_app He.
    + destruct (Hframe23 (dest ++ n :: q)) as [->|(Hp & _)].
      * intros n' q' Hin' Heq. apply app_inv_head in Heq.
        injection Heq as <- _. by destruct (Hab n Hin).
      * by apply Hcopy12.
      * by destruct (below_not_prefix dest n q).
    + apply Hcopy23; [done |]. by rewrite Hsource.
  - intros p Hp. apply (kept_or_made_trans dest fs1 fs2 fs3).
    + apply Hframe12. intros n q Hin. apply Hp. apply elem_of_app. by left.
    + apply Hframe23. intros n q Hin Heq. rewrite Hsource.
      apply Hp; [| done]. apply elem_of_app. by right.
Qed.

Lemma tree_closed src fs q r :
  (∀ q n, is_Some (fs !! (src ++ q ++ [n])) → fs !! (src ++ q) = Some Directory) →
  is_Some (fs !! (src ++ q ++ r)) → r ≠ [] →
  fs !! (src ++ q) = Some Directory.
Proof.
  intros Htree. induction r as [|n r IH] using rev_ind; [done |].
  intros Hsome _. rewrite (app_assoc q r [n]) in Hsome.
  pose proof (Htree _ _ Hsome) as Hdir.
  destruct r as [|m r]; [by rewrite app_nil_r in Hdir |].
  apply IH; [by rewrite Hdir | done].
Qed.

Lemma allowed_refl dest fs p : allowed dest fs fs p.
Proof. left. by left. Qed.

Lemma allowed_trans dest fs1 fs2 fs3 p :
  allowed dest fs1 fs2 p → allowed dest fs2 fs3 p → allowed dest fs1 fs3 p.
Proof.
  intros [H12|(Hp & Hne & Hw)] [H23|(Hp' & Hne' & Hw')].
  - left. by eapply kept_or_made_trans.
  - destruct H12 as [Heq|(Hpre & _)].
    + right. by rewrite <- Heq.
    + destruct Hne'. by apply (anti_symm prefix).
  - destruct H23 as [Heq|(Hpre & _)].
    + right. by rewrite Heq.
    + destruct Hne. by apply (anti_symm prefix).
  - right. split; [done |]. split; [done |].
    destruct (fs1 !! p) as [[?|]|], (fs2 !! p) as [[?|]|], (fs3 !! p) as [[?|]|];
      done.
Qed.

Lemma allowed_below dest n fs fs' p :
  allowed (dest ++ [n]) fs fs' p → allowed dest fs fs' p.
Proof.
  intros [[Heq|(Hpre & Hnone & Hdir)]|(Hpre & Hne & Hw)].
  - left. by left.
  - apply prefix_snoc_cases in Hpre as [Hpre| ->].
    + left. by right.
    + right. split; [by apply prefix_app_r |]. split.
      * intros Heq. apply (f_equal length) in Heq.
        rewrite length_app in Heq. cbn in Heq. lia.
      * by rewrite Hnone, Hdir.
  - right. split; [etrans; [by apply prefix_app_r | exact Hpre] |].
    split; [| done]. intros ->.
    apply prefix_length in Hpre. rewrite length_app in Hpre. cbn in Hpre. lia.
Qed.

Lemma mkdir_loop_allowed at_ todo fs p :
  kept_or_made (at_ ++ todo) fs (mkdir_loop at_ todo fs).2 p.
Proof.
  revert at_ fs. induction todo as [|d todo IH]; intros at_ fs; [by left |].
  cbn [mkdir_loop].
  unfold mbind, mret, M_bind, M_ret, bind, ret, throw, modify, gets.
  replace (at_ ++ d :: todo) with ((at_ ++ [d]) ++ todo)
    by by rewrite <- app_assoc.
  destruct (fs !! (at_ ++ [d])) as [[c|]|] eqn:Hd; cbv beta iota.
  - by left.
  - apply IH.
  - apply (kept_or_made_trans _ fs (<[at_ ++ [d] := Directory]> fs)); [| apply IH].
    destruct (decide (p = at_ ++ [d])) as [->|Hne].
    + right. split; [by apply prefix_app_r |]. split; [done |].
      by rewrite lookup_insert_eq.
    + left. by rewrite lookup_insert_ne.
Qed.

Lemma copyFileSync_allowed src dest n fs p :
  allowed dest fs (copyFileSync src (dest ++ [n]) fs).2 p.
Proof.
  unfold copyFileSync.
  unfold mbind, mret, M_bind, M_ret, bind, ret, throw, modify, gets.
  destruct (fs !! src) as [[c|]|]; cbv beta iota; try apply allowed_refl.
  destruct (fs !! (dest ++ [n])) as [[c'|]|] eqn:Hd; cbv beta iota;
    try apply allowed_refl;
    (destruct (fs !! removelast (dest ++ [n])) as [[?|]|]; cbv beta iota;
     try apply allowed_refl).
  all: cbn [snd]; destruct (decide (p = dest ++ [n])) as [->|Hne];
    [| left; left; by rewrite lookup_insert_ne].
  all: right; split; [by apply prefix_app_r |]; split;
    [intros Heq; apply (f_equal length) in Heq;
     rewrite length_app in Heq; cbn in Heq; lia |].
  all: by rewrite Hd, lookup_insert_eq.
Qed.

Lemma within_ret {A : Type} dest (a : A) : within dest (ret a).
Proof. intros fs p. apply allowed_refl. Qed.

Lemma within_throw {A : Type} dest msg : within dest (@throw FileSystem A msg).
Proof. intros fs p. apply allowed_refl. Qed.

Lemma within_gets {A : Type} dest (f : FileSystem → A) : within dest (gets f).
Proof. intros fs p. apply allowed_refl. Qed.

Lemma within_bind {A B : Type} dest (m : M FileSystem A) (k : A → M FileSystem B) :
  within dest m → (∀ a, within dest (k a)) → within dest (m ≫= k).
Proof.
  intros Hm Hk fs p. unfold mbind, M_bind, bind.
  pose proof (Hm fs p) as H1.
  destruct (m fs) as [[a|msg] fs1]; [| done].
  eapply allowed_trans; [exact H1 | apply Hk].
Qed.

Lemma within_for_of dest (body : string → M FileSystem unit) files :
  (∀ file, within dest (body file)) → within dest (for_of body files).
Proof.
  intros Hbody. induction files as [|file files IH]; [apply within_ret |].
  cbn [for_of]. apply within_bind; [apply Hbody | by intros _].
Qed.

Lemma within_copyDirRecursive entries depth :
  ∀ src dest, within dest (copyDirRecursive entries depth src dest).
Proof.
  induction depth as [|depth IH]; intros src dest; [apply within_throw |].
  cbn [copyDirRecursive].
  apply within_bind; [apply within_gets |]. intros there.
  apply within_bind.
  { destruct there; [apply within_ret |].
    intros fs p. left. apply (mkdir_loop_allowed [] dest). }
  intros _. apply within_bind.
  { apply within_bind; [apply within_gets |].
    intros [[c|]|]; [apply within_throw | apply within_gets | apply within_throw]. }
  intros files. apply within_for_of. intros file.
  apply within_bind; [| intros [|]].
  - apply within_bind; [apply within_gets |].
    intros [[c|]|]; [apply within_ret | apply within_ret | apply within_throw].
  - intros fs p. apply (allowed_below dest file). apply IH.
  - intros fs p. apply copyFileSync_allowed.
Qed.

Section Copy.
Variable entries : FileSystem → Path → list string.
Hypothesis entries_listed : lists_entries entries.

Lemma copy_entry depth src dest n fs :
  (∀ src dest fs, apart src dest → copyable depth src dest fs →
     ∃ fs', copyDirRecursive entries depth src dest fs = (Normal tt, fs')
            ∧ copied src dest fs fs') →
  apart src dest → copyable (S depth) src dest fs →
  fs !! dest = Some Directory →
  is_Some (fs !! (src ++ [n])) →
  ∃ fs',
    (dir ← isDirectory (src ++ [n]);
     if dir : bool then copyDirRecursive entries depth (src ++ [n]) (dest ++ [n])
     else copyFileSync (src ++ [n]) (dest ++ [n])) fs = (Normal tt, fs')
    ∧ copied_names [n] src dest fs fs'.
Proof.
  intros IH Hapart (Hsrc & Hdest & Htree & Hdepth & Hfree & Hcompat) Hthere [e He].
  unfold isDirectory, copyFileSync.
  unfold mbind, mret, M_bind, M_ret, bind, ret, throw, modify, gets.
  rewrite He. cbv beta iota. destruct e as [c|].
  - (* a file *)
    pose proof (Hcompat [n]) as Hc. rewrite He in Hc.
    rewrite He. cbv beta iota.
    exists (<[dest ++ [n] := File c]> fs).
    split.
    { destruct (fs !! (dest ++ [n])) as [[c'|]|]; [| done |];
        cbv beta iota; by rewrite removelast_last, Hthere. }
    split.
    + intros n' q e' ->%list_elem_of_singleton He'.
      destruct q as [|m q].
      * rewrite He in He'. injection He' as <-. by rewrite lookup_insert_eq.
      * assert (Hdir : fs !! (src ++ [n]) = Some Directory).
        { apply (tree_closed src fs [n] (m :: q)); [done | | done].
          by exists e'. }
        congruence.
    + intros p Hp. left. apply lookup_insert_ne. intros <-.
      specialize (Hp n [] ltac:(by left) eq_refl). congruence.
  - (* a directory *)
    destruct (IH (src ++ [n]) (dest ++ [n]) fs) as (fs' & Hrun & Hcopy & Hframe).
    { by apply apart_below. }
    { split; [done |]. split; [by destruct dest |].
      split; [| split; [| split]].
      - intros q m. rewrite <- !app_assoc. apply (Htree ([n] ++ q) m).
      - intros q Hq. rewrite <- app_assoc in Hq. apply Hdepth in Hq.
        cbn in Hq. lia.
      - intros p c [Hp| ->]%prefix_snoc_cases; [by apply Hfree |].
        specialize (Hcompat [n]). rewrite He in Hcompat.
        intros Hf. by rewrite Hf in Hcompat.
      - intros q. rewrite <- !app_assoc. apply (Hcompat ([n] ++ q)). }
    exists fs'. split; [exact Hrun |]. split.
    + intros n' q e ->%list_elem_of_singleton Hq.
      specialize (Hcopy q e). rewrite <- !app_assoc in Hcopy. by apply Hcopy.
    + intros p Hp.
      destruct (Hframe p) as [Heq|(Hpre & Hnone & Hdir)].
      * intros q ->. rewrite <- !app_assoc. apply (Hp n q); [by left |].
        by rewrite <- app_assoc.
      * by left.
      * right. split; [| done].
        apply prefix_snoc_cases in Hpre as [Hpre| ->]; [done |].
        specialize (Hp n [] ltac:(by left) eq_refl). congruence.
Qed.

Lemma copy_entries depth src dest :
  (∀ src dest fs, apart src dest → copyable depth src dest fs →
     ∃ fs', copyDirRecursive entries depth src dest fs = (Normal tt, fs')
            ∧ copied src dest fs fs') →
  apart src dest →
  ∀ files fs,
    NoDup files →
    (∀ n, n ∈ files → is_Some (fs !! (src ++ [n]))) →
    copyable (S depth) src dest fs →
    fs !! dest = Some Directory →
    ∃ fs',
      for_of (fun file =>
                dir ← isDirectory (src ++ [file]);
                if dir : bool
                then copyDirRecursive entries depth (src ++ [file]) (dest ++ [file])
                else copyFileSync (src ++ [file]) (dest ++ [file]))
             files fs = (Normal tt, fs')
      ∧ copied_names files src dest fs fs'.
Proof.
  intros IH Hapart. induction files as [|n files IHfiles];
    intros fs Hnodup Hthere Hcopyable Hdest.
  { exists fs. split; [done |]. split; [| by left].
    by intros n q e ?%elem_of_nil. }
  apply NoDup_cons in Hnodup as [Hnin Hnodup].
  destruct (copy_entry depth src dest n fs IH Hapart Hcopyable Hdest)
    as (fs1 & Hrun1 & H1).
  { apply Hthere. by left. }
  cbn [for_of].
  unfold mbind at 1. unfold M_bind at 1. unfold bind at 1. rewrite Hrun1.
  destruct (IHfiles fs1 Hnodup) as (fs' & Hrun & H2).
  { intros m Hm. rewrite (copied_names_source [n] src dest fs fs1 [m] Hapart H1).
    apply Hthere. by right. }
  { by apply (copied_names_copyable [n] _ _ _ fs). }
  { destruct (copied_names_above _ _ _ _ _ dest H1) as [->|(_ & _ & ->)]; done. }
  exists fs'. split; [exact Hrun |].
  apply (copied_names_app [n] files src dest fs fs1 fs'); try done.
  by intros m ->%list_elem_of_singleton.
Qed.

Lemma copy_tree depth : ∀ src dest fs,
  apart src dest → copyable depth src dest fs →
  ∃ fs', copyDirRecursive entries depth src dest fs = (Normal tt, fs')
         ∧ copied src dest fs fs'.
Proof.
  induction depth as [|depth IH]; intros src dest fs Hapart Hcopyable.
  { destruct Hcopyable as (Hsrc & _ & _ & Hdepth & _).
    specialize (Hdepth []). rewrite app_nil_r, Hsrc in Hdepth.
    specialize (Hdepth ltac:(done)). cbn in Hdepth. lia. }
  pose proof Hcopyable as (Hsrc & Hdest & Htree & Hdepth & Hfree & Hcompat).
  (* the target directory *)
  assert (Hmk : ∃ fs1,
            (if existsSync dest fs then ret tt else mkdirSync dest) fs
            = (Normal tt, fs1)
            ∧ fs1 !! dest = Some Directory
            ∧ ∀ p, kept_or_made dest fs fs1 p).
  { unfold existsSync. case_bool_decide as Hthere.
    - exists fs. split; [done |]. split; [| by left].
      destruct Hthere as [[c|] Hd]; [| done]. by destruct (Hfree dest c).
    - destruct (mkdir_loop_makes [] dest fs Hfree) as (fs1 & Hrun & Hmade & Hkept).
      exists fs1. split; [exact Hrun |]. split; [| done].
      apply Hmade; [apply prefix_nil | done | done]. }
  destruct Hmk as (fs1 & Hrun1 & Hdest1 & Hkept1).
  assert (H01 : copied_names [] src dest fs fs1).
  { split; [by intros n q e ?%elem_of_nil | by intros p _]. }
  pose proof (copied_names_copyable [] _ _ _ fs fs1 Hapart Hcopyable H01)
    as Hcopyable1.
  pose proof (λ q, copied_names_source [] src dest fs fs1 q Hapart H01) as Hsource1.
  destruct (entries_listed fs1 src) as [Hnodup Hlisted].
  destruct (copy_entries depth src dest IH Hapart (entries fs1 src) fs1)
    as (fs' & Hrun & H12); try done.
  { intros n. apply Hlisted. }
  exists fs'. split.
  { cbn [copyDirRecursive]. unfold readdirSync.
    unfold mbind, mret, M_bind, M_ret, bind, ret, throw, modify, gets in *.
    rewrite Hrun1.
    destruct Hcopyable1 as (Hsrc1 & _). rewrite Hsrc1. exact Hrun. }
  pose proof (copied_names_app [] (entries fs1 src) src dest fs fs1 fs' Hapart
                ltac:(by intros n ?%elem_of_nil) H01 H12) as [Hcopy Hframe].
  cbn [app] in Hcopy, Hframe.
  split.
  - intros q e He. destruct q as [|n q].
    + rewrite app_nil_r in He |- *. assert (e = Directory) as -> by congruence.
      destruct (copied_names_above _ _ _ _ _ dest H12) as [->|(_ & _ & ->)]; done.
    + apply Hcopy; [| done]. apply Hlisted. rewrite Hsource1.
      destruct q as [|m q]; [by rewrite He |].
      rewrite (tree_closed src fs [n] (m :: q)); [done | done | | done].
      by exists e.
  - intros p Hp. apply Hframe. intros n q _ ->. by apply Hp.
Qed.

End Copy.

End InstallerFacts.

(** X16. The copy of the template succeeds and merges: when the source
    is a directory tree that fits the call stack, source and target lie
    apart, no file lies on the way to the target and nothing at the
    target stands in the way (no file where the template has a
    directory, no directory where it has a file), [copyDirRecursive]
    returns; every entry of the source is then at the same place below
    the target, files with their content; the source is as it was; and
    what was below the target and has no counterpart in the source is
    still there, unchanged. *)
Theorem template_is_merged_into_the_target
  (entries : Installer.FileSystem → Installer.Path → list string)
  (Hentries : Installer.lists_entries entries)
  (depth : nat) (src dest : Installer.Path) (fs : Installer.FileSystem)
  (Hapart : Installer.apart src dest)
  (Hcopyable : Installer.copyable depth src dest fs) :
  ∃ fs',
    Installer.copyDirRecursive entries depth src dest fs = (Normal tt, fs')
    ∧ (∀ q e, fs !! (src ++ q) = Some e → fs' !! (dest ++ q) = Some e)
    ∧ (∀ q, fs' !! (src ++ q) = fs !! (src ++ q))
    ∧ (∀ q, q ≠ [] → fs !! (src ++ q) = None →
         fs' !! (dest ++ q) = fs !! (dest ++ q)).
Proof.
  destruct (copy_tree entries Hentries depth src dest fs Hapart Hcopyable)
    as (fs' & Hrun & Hcopy & Hframe).
  exists fs'. split; [exact Hrun |]. split; [exact Hcopy |]. split.
  - intros q. destruct (Hframe (src ++ q)) as [Heq|(Hp & _)]; [| done |].
    + intros q' Heq. by destruct (apart_meet src dest q q').
    + destruct Hapart as [Hsd _]. destruct Hsd.
      etrans; [| exact Hp]. by apply prefix_app_r.
  - intros q Hq Hnone. destruct (Hframe (dest ++ q)) as [Heq|(Hp & _)]; [| done |].
    + by intros q' ->%app_inv_head.
    + apply prefix_length in Hp. rewrite length_app in Hp.
      destruct q; [done | cbn in Hp; lia].
Qed.

(** X17. However the copy ends, also when it fails half-way, it only
    adds: every path keeps what it had, except that a missing directory
    on the way to the target may have been created, and that below the
    target entries may have been created and files replaced by files.
    So nothing is deleted, no directory is replaced, and nothing that
    lies neither below nor above the target changes. *)
Theorem copy_only_adds_below_the_target
  (entries : Installer.FileSystem → Installer.Path → list string)
  (depth : nat) (src dest : Installer.Path) (fs : Installer.FileSystem) :
  let fs' := (Installer.copyDirRecursive entries depth src dest fs).2 in
  (∀ p, fs' !! p = fs !! p
        ∨ (p `prefix_of` dest ∧ fs !! p = None
           ∧ fs' !! p = Some Installer.Directory)
        ∨ (dest `prefix_of` p ∧ p ≠ dest
           ∧ Installer.written (fs !! p) (fs' !! p)))
  ∧ (∀ p, is_Some (fs !! p) → is_Some (fs' !! p))
  ∧ (∀ p, fs !! p = Some Installer.Directory →
          fs' !! p = Some Installer.Directory)
  ∧ (∀ p, ¬ dest `prefix_of` p → ¬ p `prefix_of` dest → fs' !! p = fs !! p).
Proof.
  intros fs'.
  assert (Hall : ∀ p, Installer.allowed dest fs fs' p).
  { intros p. apply within_copyDirRecursive. }
  split; [| split; [| split]].
  - intros p. destruct (Hall p) as [[?|?]|?]; auto.
  - intros p [e He].
    destruct (Hall p) as [[->|(_ & _ & ->)]|(_ & _ & Hw)]; [by exists e | done |].
    rewrite He in Hw. destruct e; [| done]. by destruct (fs' !! p).
  - intros p He.
    destruct (Hall p) as [[->|(_ & Hnone & _)]|(_ & _ & Hw)];
      [done | congruence |].
    by rewrite He in Hw.
  - intros p Hbelow Habove.
    by destruct (Hall p) as [[?|(? & _)]|(? & _)].
Qed.

(** The sample listing of the host lists what is there. *)
Lemma names_below_lists : Installer.lists_entries Installer.names_below.
Proof.
  intros fs p.
  set (f := fun q : list string =>
              match drop (length p) q with
              | [n] => if decide (take (length p) q = p) then Some n else None
              | _ => None
              end).
  assert (Hf : ∀ q n, f q = Some n ↔ q = p ++ [n]).
  { intros q n. unfold f. split.
    - destruct (drop (length p) q) as [|m [|]] eqn:Hdrop; try done.
      case_decide as Htake; [| done]. intros [= ->].
      by rewrite <- (take_drop (length p) q), Hdrop, Htake.
    - intros ->. rewrite drop_app_length, take_app_length.
      by rewrite decide_True. }
  unfold Installer.names_below. fold f. split.
  - assert (Hnodup : NoDup (map_to_list fs).*1) by apply NoDup_fst_map_to_list.
    induction (map_to_list fs).*1 as [|q l IH]; [constructor |].
    apply NoDup_cons in Hnodup as [Hnin Hnodup].
    cbn [omap list_omap]. destruct (f q) as [n|] eqn:Hq; [| by apply IH].
    apply NoDup_cons. split; [| by apply IH].
    intros (q' & Hin & Hq')%list_elem_of_omap.
    apply Hf in Hq, Hq'. by subst.
  - intros n. rewrite list_elem_of_omap. split.
    + intros (q & Hin & Hq). apply Hf in Hq as ->.
      apply list_elem_of_fmap in Hin as ([q e] & -> & Hin).
      apply elem_of_map_to_list in Hin. by exists e.
    + intros [e He]. exists (p ++ [n]). split; [| by apply Hf].
      apply list_elem_of_fmap. exists (p ++ [n], e). split; [done |].
      by apply elem_of_map_to_list.
Qed.

Lemma package_and_project_entries p e :
  Installer.package_and_project !! p = Some e →
  (p, e) ∈ [(["pkg"], Installer.Directory);
            (["pkg"; "template"], Installer.Directory);
            (["pkg"; "template"; "mcHook"], Installer.Directory);
            (["pkg"; "template"; "mcHook"; "index.js"], Installer.File "export {}");
            (["project"], Installer.Directory);
            (["project"; "manifest.json"], Installer.File "{}")].
Proof. apply elem_of_list_to_map_2. Qed.

Lemma package_and_project_copyable :
  Installer.apart ["pkg"; "template"] ["project"; "scripts"]
  ∧ Installer.copyable 3 ["pkg"; "template"] ["project"; "scripts"]
      Installer.package_and_project.
Proof.
  split.
  { split; intros [k Hk]; discriminate Hk. }
  split; [by vm_compute |]. split; [done |]. split; [| split; [| split]].
  - intros q n [e He]. apply package_and_project_entries in He.
    repeat (apply elem_of_cons in He as [He|He]); try (by apply elem_of_nil in He);
      destruct q as [|? [|? [|? ?]]]; simplify_eq/=; by vm_compute.
  - intros q [e He]. apply package_and_project_entries in He.
    repeat (apply elem_of_cons in He as [He|He]); try (by apply elem_of_nil in He);
      simplify_eq/=; lia.
  - intros p c [k Hk] Hp. apply package_and_project_entries in Hp.
    repeat (apply elem_of_cons in Hp as [Hp|Hp]); try (by apply elem_of_nil in Hp);
      simplify_eq/=.
  - intros q.
    destruct (Installer.package_and_project !! (["pkg"; "template"] ++ q))
      as [e|] eqn:He; [| done].
    apply package_and_project_entries in He.
    repeat (apply elem_of_cons in He as [He|He]); try (by apply elem_of_nil in He);
      simplify_eq/=; by vm_compute.
Qed.

Lemma template_is_merged_into_the_target_witness :
  let r :=
    Installer.copyDirRecursive Installer.names_below 3 ["pkg"; "template"]
      ["project"; "scripts"] Installer.package_and_project in
  r.1 = Normal tt
  ∧ r.2 !! ["project"; "scripts"; "mcHook"; "index.js"]
    = Some (Installer.File "export {}")
  ∧ r.2 !! ["project"; "manifest.json"] = Some (Installer.File "{}").
Proof.
  destruct package_and_project_copyable as [Hapart Hcopyable].
  destruct (template_is_merged_into_the_target Installer.names_below
              names_below_lists 3 _ _ _ Hapart Hcopyable)
    as (fs' & Hrun & Hcopy & _ & _).
  cbn zeta. rewrite Hrun. cbn [fst snd]. split; [done |]. split.
  - apply (Hcopy ["mcHook"; "index.js"]). by vm_compute.
  - assert (Hfs' : fs' = (Installer.copyDirRecursive Installer.names_below 3
                            ["pkg"; "template"] ["project"; "scripts"]
                            Installer.package_and_project).2) by by rewrite Hrun.
    rewrite Hfs'. by vm_compute.
Defined.


(** ** The order of the records *)

Lemma filter_all {A : Type} (P : A → Prop) `{!∀ x, Decision (P x)} (l : list A) :
  (∀ x, x ∈ l → P x) → filter P l = l.
Proof.
  induction l as [|x l IH]; intros Hall; [done |].
  rewrite filter_cons_True by (apply Hall; by left).
  f_equal. apply IH. intros y Hy. apply Hall. by right.
Qed.

Lemma keys_fold_add_slot l result :
  JsMap.keys (fold_left add_slot l result)
  = JsMap.keys result
    ++ filter (fun type => type ∉ JsMap.keys result)
         (first_occurrences (types_in l)).
Proof.
  revert result. induction l as [|[item|] l IH]; intros result;
    rewrite ?types_in_cons; cbn [fold_left first_occurrences add_slot].
  - by rewrite app_nil_r.
  - rewrite IH. set (value := or_zero _ + _).
    destruct (decide (typeId item ∈ JsMap.keys result)) as [Hin|Hnin].
    + rewrite keys_set_old by done.
      rewrite filter_cons_False by (by intros []).
      f_equal. rewrite list_filter_filter_l; [done |].
      intros type Htype ->. by apply Htype.
    + rewrite keys_set_new by done.
      rewrite filter_cons_True by done.
      rewrite <- app_assoc. cbn [app]. do 2 f_equal.
      rewrite list_filter_filter. apply list_filter_iff.
      intros type. rewrite not_elem_of_app, list_elem_of_singleton. tauto.
  - apply IH.
Qed.

Lemma diff_types player previous (current : list (string * Z)) :
  gain_typeId <$> diff player previous current
  = (filter (fun entry => or_zero (JsMap.get previous entry.1) < entry.2)
       current).*1.
Proof.
  induction current as [|entry current IH]; [done |].
  rewrite diff_cons. unfold pickedUp.
  destruct (Z.leb_spec entry.2 (or_zero (JsMap.get previous entry.1))) as [Hle|Hlt].
  - rewrite filter_cons_False by lia. done.
  - rewrite filter_cons_True by done. rewrite !fmap_cons. cbn. by f_equal.
Qed.

Lemma filter_fst_held {B : Type} (P : string → Prop) (Q : string * B → Prop)
  `{!∀ x, Decision (P x), !∀ x, Decision (Q x)} (l : list (string * B)) :
  (∀ entry, entry ∈ l → Q entry ↔ P entry.1) →
  (filter Q l).*1 = filter P l.*1.
Proof.
  induction l as [|entry l IH]; intros HQ; [done |].
  rewrite fmap_cons.
  assert (HQ' : ∀ e, e ∈ l → Q e ↔ P e.1) by (intros e He; apply HQ; by right).
  destruct (decide (Q entry)) as [Hq|Hq].
  - rewrite !filter_cons_True; [| by apply HQ; [left |] | done].
    rewrite fmap_cons. f_equal. by apply IH.
  - rewrite !filter_cons_False; [by apply IH | | done].
    intros Hp. apply Hq. apply HQ; [by left | done].
Qed.

(** X18. The records a poll fans out for a player come in the order in
    which the slots of the inventory first show their item types. The
    snapshot lists the types of the slots, each once, in
    first-occurrence order, and the loop of the poll over the snapshot
    fans out a list of records, one after the other, whose types are
    these, in this order, restricted to those held beyond the cached
    amount. (A fan-out calls the listeners that are due when it runs;
    which listeners a record reaches is not part of this statement.) *)
Theorem records_follow_the_slots
  (cache : gmap string Snapshot) (player : string) (inventory : Container) :
  let cached type := or_zero (JsMap.get (previous_of cache player) type) in
  JsMap.keys (snapshotInventory inventory)
  = first_occurrences (types_in (slots inventory))
  ∧ ∃ records,
      (∀ p s, entries_loop p player (previous_of cache player)
                (snapshotInventory inventory) s
              = deliver p records s)
      ∧ gain_typeId <$> records
        = filter (fun type => cached type < held type inventory)
            (first_occurrences (types_in (slots inventory))).
Proof.
  intros cached.
  assert (Hkeys : JsMap.keys (snapshotInventory inventory)
                  = first_occurrences (types_in (slots inventory))).
  { rewrite snapshotInventory_fold, keys_fold_add_slot. cbn [JsMap.keys app].
    unfold JsMap.empty. cbn [fmap list_fmap app].
    apply filter_all. intros type _ ?%elem_of_nil. done. }
  split; [exact Hkeys |].
  exists (diff player (previous_of cache player) (snapshotInventory inventory)).
  split; [intros p s; apply entries_loop_delivers_diff |].
  rewrite diff_types, <- Hkeys. unfold JsMap.keys.
  apply (filter_fst_held (fun type => cached type < held type inventory)).
  intros [type n] Hin. cbn [fst snd].
  pose proof (get_elem_of _ _ _ (snapshotInventory_wf inventory) Hin) as Hget.
  rewrite get_snapshotInventory in Hget. case_decide; [| done].
  injection Hget as <-. done.
Qed.


(** ** When a registration restarts the poll *)

Lemma minTick_of_snoc ls l : minTick_of (ls ++ [l]) = Z.min (tick l) (minTick_of ls).
Proof. unfold minTick_of. by rewrite fold_left_app. Qed.

(** X19. A registration restarts the recurring poll exactly when it
    brings a shorter period, as long as no callback has assigned to a
    listener entry. In a state reached by registrations, timer firings
    and world changes in which no callback (registered from outside or
    by a callback) assigns to a listener entry, an accepted
    [listen(callback, z)] does to the host scheduler: nothing, when a
    poll is running and [z] is not below the poll period (period and
    task stay as they are); a [clearRun] of the running task followed by
    a [runInterval] at period [z], when [z] is below it; and, when
    nothing was registered yet, one [runInterval] at the least of [z]
    and the default period. The counters of the listeners already
    registered are not reset. *)
Theorem registration_restarts_only_for_a_shorter_period
  (events : list Event) (cb : Callback) (z : Z) (Hz : 1 ≤ z)
  (Hplain : Forall registers_no_writer events) :
  let s := run events in
  let s' := (listen (Some cb) (TickInteger z) s).2 in
  listeners s' = listeners s ++ [mkListener cb z 0]
  ∧ match systemIntervalId s with
    | Some h =>
        if decide (z < systemIntervalTick s) then
          host_calls s'
          = host_calls s ++ [ClearRun h; RunInterval (next_handle s) z]
          ∧ systemIntervalId s' = Some (next_handle s)
          ∧ systemIntervalTick s' = z
        else
          host_calls s' = host_calls s
          ∧ systemIntervalId s' = Some h
          ∧ systemIntervalTick s' = systemIntervalTick s
    | None =>
        host_calls s' = [RunInterval (next_handle s) (Z.min z DEFAULT_TICK)]
        ∧ systemIntervalId s' = Some (next_handle s)
        ∧ systemIntervalTick s' = Z.min z DEFAULT_TICK
    end.
Proof.
  intros s s'. unfold s'.
  destruct (unwritten_run events Hplain) as ((Hmin & _) & _).
  destruct (running_inv_run events) as (Hidle & Hlog).
  fold s in Hmin, Hidle, Hlog.
  unfold listen. cbn [tick_or_default].
  rewrite (proj2 (Z.ltb_ge z 1)) by lia.
  unfold adjustSystemInterval, startSystemInterval, system_clearRun,
    system_runInterval.
  unfold_M. cbn. rewrite minTick_of_snoc. cbn [tick]. rewrite <- Hmin.
  destruct (systemIntervalId s) as [h|] eqn:Hid.
  - destruct (decide (z < systemIntervalTick s)) as [Hlt|Hge].
    + rewrite Z.min_l by lia. rewrite decide_True by lia. cbn. rewrite Hid. cbn.
      by rewrite <- app_assoc.
    + rewrite Z.min_r by lia. rewrite decide_False by (intros Hne; by apply Hne).
      cbn. by rewrite Hid.
  - assert (Hnone : listeners s = []) by by apply Hidle.
    rewrite Hnone in Hmin. change (minTick_of []) with DEFAULT_TICK in Hmin.
    destruct (decide (Z.min z (systemIntervalTick s) ≠ systemIntervalTick s))
      as [Hne|Heq]; cbn; rewrite ?Hid; cbn; rewrite ?Hid; cbn;
      rewrite ?Hlog, ?Hmin; [done |].
    assert (Hsame : Z.min z DEFAULT_TICK = DEFAULT_TICK).
    { rewrite Hmin in Heq.
      destruct (decide (Z.min z DEFAULT_TICK = DEFAULT_TICK)); tauto. }
    by rewrite Hsame.
Qed.

Lemma registration_restarts_only_for_a_shorter_period_witness :
  let s := run [CallListen (Some []) (TickInteger 8)] in
  host_calls (listen (Some [OpRemove]) (TickInteger 20) s).2 = [RunInterval 0 8]
  ∧ host_calls (listen (Some [OpRemove]) (TickInteger 5) s).2
    = [RunInterval 0 8; ClearRun 0; RunInterval 1 5].
Proof.
  intros s.
  assert (Hid : systemIntervalId s = Some 0%nat) by by vm_compute.
  assert (Hperiod : systemIntervalTick s = 8) by by vm_compute.
  split.
  - destruct (registration_restarts_only_for_a_shorter_period
                [CallListen (Some []) (TickInteger 8)] [OpRemove] 20
                ltac:(lia) ltac:(by repeat constructor)) as (_ & Hhost).
    fold s in Hhost. rewrite Hid, Hperiod in Hhost.
    rewrite decide_False in Hhost by lia.
    destruct Hhost as (Hh & _). etrans; [exact Hh | by vm_compute].
  - destruct (registration_restarts_only_for_a_shorter_period
                [CallListen (Some []) (TickInteger 8)] [OpRemove] 5
                ltac:(lia) ltac:(by repeat constructor)) as (_ & Hhost).
    fold s in Hhost. rewrite Hid, Hperiod in Hhost.
    rewrite decide_True in Hhost by lia.
    destruct Hhost as (Hh & _). etrans; [exact Hh | by vm_compute].
Defined.
